(** * goroutine-inspect: the dump model and analysis engine of [goroutine.go]

    A shallow embedding of [src/goroutine.go]: the [Goroutine] record with
    [AddLine], [Freeze] and [NewGoroutine], and the [GoroutineDump]
    collection with [Dedupe], [Delete], [Keep], [Copy], [Search], [Diff]
    and [Summary].

    Go strings are byte strings and are modelled as [string] (one [ascii]
    per byte); Go [int] is a 64-bit integer modelled in [Z]; pointers to
    [Goroutine] are addresses into an explicit heap; Go maps are [gmap]s
    whose [range] order is an arbitrary permutation handed in by the caller;
    run-time panics are an explicit outcome. *)

From Stdlib Require Import ZArith Lia Ascii String List Permutation.
From stdpp Require Import gmap strings list fin_maps sorting.

Local Open Scope Z_scope.

(** ** Byte strings *)

Module Strings.

(** [len(s)] *)
Definition len (s : string) : Z := Z.of_nat (String.length s).

Fixpoint take (n : nat) (s : string) : string :=
  match n, s with
  | S n', String c s' => String c (take n' s')
  | _, _ => ""
  end.

Fixpoint drop (n : nat) (s : string) : string :=
  match n, s with
  | S n', String _ s' => drop n' s'
  | _, _ => s
  end.

(** [strings.HasPrefix(s, p)] *)
Fixpoint HasPrefix (s p : string) : bool :=
  match p, s with
  | "", _ => true
  | String a p', String b s' => if Ascii.eqb a b then HasPrefix s' p' else false
  | String _ _, "" => false
  end.

(** [strings.Index(s, sub)]: byte offset of the first occurrence of [sub]
    in [s], or [-1]. *)
Fixpoint Index_from (i : Z) (s sub : string) : Z :=
  if HasPrefix s sub then i
  else match s with
       | "" => -1
       | String _ s' => Index_from (i + 1) s' sub
       end.

Definition Index (s sub : string) : Z := Index_from 0 s sub.

(** [strings.Split(s, sep)] for a separator of one byte, which is what both
    call sites pass ([","] and [" "]): the fields between the occurrences
    of [sep], always at least one field. *)
Fixpoint Split_go (sep : ascii) (cur : string) (s : string) : list string :=
  match s with
  | "" => [String.rev cur]
  | String c s' =>
      if Ascii.eqb c sep then String.rev cur :: Split_go sep "" s'
      else Split_go sep (String c cur) s'
  end.

Definition Split (s : string) (sep : ascii) : list string := Split_go sep "" s.

(** White space as [unicode.IsSpace] sees it, in UTF-8: the six ASCII
    spaces, U+0085, U+00A0, U+1680, U+2000..U+200A, U+2028, U+2029,
    U+202F, U+205F and U+3000.  [space_width s] is the number of bytes of
    the space rune [s] starts with, [0] when it starts with none. *)
Definition space_width (s : string) : nat :=
  match s with
  | String c0 r0 =>
      let b0 := nat_of_ascii c0 in
      if (Nat.leb 9 b0 && Nat.leb b0 13) || Nat.eqb b0 32 then 1%nat
      else match r0 with
           | String c1 r1 =>
               let b1 := nat_of_ascii c1 in
               if Nat.eqb b0 194 && (Nat.eqb b1 133 || Nat.eqb b1 160) then 2%nat
               else match r1 with
                    | String c2 _ =>
                        let b2 := nat_of_ascii c2 in
                        if (Nat.eqb b0 225 && Nat.eqb b1 154 && Nat.eqb b2 128)
                           || (Nat.eqb b0 226 && Nat.eqb b1 128
                               && ((Nat.leb 128 b2 && Nat.leb b2 138)
                                   || Nat.eqb b2 168 || Nat.eqb b2 169 || Nat.eqb b2 175))
                           || (Nat.eqb b0 226 && Nat.eqb b1 129 && Nat.eqb b2 159)
                           || (Nat.eqb b0 227 && Nat.eqb b1 128 && Nat.eqb b2 128)
                        then 3%nat else 0%nat
                    | "" => 0%nat
                    end
           | "" => 0%nat
           end
  | "" => 0%nat
  end.

Fixpoint TrimLeft_space (fuel : nat) (s : string) : string :=
  match fuel with
  | O => s
  | S fuel' =>
      match space_width s with
      | O => s
      | w => TrimLeft_space fuel' (drop w s)
      end
  end.

(** The space rune [s] ends with: a rune of one, two or three bytes whose
    encoding is the last bytes of [s]. *)
Definition space_width_end (s : string) : nat :=
  let n := String.length s in
  if Nat.leb 1 n && Nat.eqb (space_width (drop (n - 1) s)) 1 then 1%nat
  else if Nat.leb 2 n && Nat.eqb (space_width (drop (n - 2) s)) 2 then 2%nat
  else if Nat.leb 3 n && Nat.eqb (space_width (drop (n - 3) s)) 3 then 3%nat
  else 0%nat.

Fixpoint TrimRight_space (fuel : nat) (s : string) : string :=
  match fuel with
  | O => s
  | S fuel' =>
      match space_width_end s with
      | O => s
      | w => TrimRight_space fuel' (take (String.length s - w) s)
      end
  end.

(** [strings.TrimSpace(s)] *)
Definition TrimSpace (s : string) : string :=
  let s1 := TrimLeft_space (String.length s) s in
  TrimRight_space (String.length s1) s1.

(** [strings.Trim(s, cutset)] for a cutset of one byte. *)
Fixpoint TrimLeft_byte (c : ascii) (s : string) : string :=
  match s with
  | String a s' => if Ascii.eqb a c then TrimLeft_byte c s' else s
  | "" => ""
  end.

Definition Trim (s : string) (c : ascii) : string :=
  String.rev (TrimLeft_byte c (String.rev (TrimLeft_byte c s))).

Definition lower_byte (c : ascii) : ascii :=
  let n := nat_of_ascii c in
  if Nat.leb 65 n && Nat.leb n 90 then ascii_of_nat (n + 32) else c.

Definition upper_byte (c : ascii) : ascii :=
  let n := nat_of_ascii c in
  if Nat.leb 97 n && Nat.leb n 122 then ascii_of_nat (n - 32) else c.

Fixpoint map_bytes (f : ascii -> ascii) (s : string) : string :=
  match s with
  | "" => ""
  | String c s' => String (f c) (map_bytes f s')
  end.

End Strings.

(** ** Regular expressions

    The three patterns of the program are built from byte classes,
    concatenation and iteration.  A pattern is matched with Brzozowski
    derivatives; [Matches] is the language it denotes. *)

Module Regexp.

Inductive regex : Type :=
| Void : regex
| Eps : regex
| Class (p : ascii -> bool) : regex
| Cat (r1 r2 : regex) : regex
| Alt (r1 r2 : regex) : regex
| Star (r : regex) : regex.

(** [r+] *)
Definition Plus (r : regex) : regex := Cat r (Star r).

(** A literal byte string. *)
Fixpoint Lit (s : string) : regex :=
  match s with
  | "" => Eps
  | String c s' => Cat (Class (Ascii.eqb c)) (Lit s')
  end.

Inductive Matches : regex -> string -> Prop :=
| MEps : Matches Eps ""
| MClass p c : p c = true -> Matches (Class p) (String c "")
| MCat r1 r2 s1 s2 :
    Matches r1 s1 -> Matches r2 s2 -> Matches (Cat r1 r2) (s1 +:+ s2)
| MAltL r1 r2 s : Matches r1 s -> Matches (Alt r1 r2) s
| MAltR r1 r2 s : Matches r2 s -> Matches (Alt r1 r2) s
| MStar0 r : Matches (Star r) ""
| MStarS r s1 s2 :
    Matches r s1 -> Matches (Star r) s2 -> Matches (Star r) (s1 +:+ s2).

Fixpoint nullable (r : regex) : bool :=
  match r with
  | Void => false
  | Eps => true
  | Class _ => false
  | Cat r1 r2 => nullable r1 && nullable r2
  | Alt r1 r2 => nullable r1 || nullable r2
  | Star _ => true
  end.

Fixpoint deriv (c : ascii) (r : regex) : regex :=
  match r with
  | Void => Void
  | Eps => Void
  | Class p => if p c then Eps else Void
  | Cat r1 r2 =>
      if nullable r1 then Alt (Cat (deriv c r1) r2) (deriv c r2)
      else Cat (deriv c r1) r2
  | Alt r1 r2 => Alt (deriv c r1) (deriv c r2)
  | Star r' => Cat (deriv c r') (Star r')
  end.

(** The whole of [s] is in the language of [r]. *)
Fixpoint full_match (r : regex) (s : string) : bool :=
  match s with
  | "" => nullable r
  | String c s' => full_match (deriv c r) s'
  end.

(** A pattern [r$] (no flags, so [$] is the end of the text) matches
    only spans that reach the end of [s]; the leftmost match starts at the
    first offset whose suffix is in the language of [r]. *)
Fixpoint find_to_end (r : regex) (s : string) : option nat :=
  if full_match r s then Some 0%nat
  else match s with
       | "" => None
       | String _ s' => S <$> find_to_end r s'
       end.

Definition digit (c : ascii) : bool :=
  let n := nat_of_ascii c in Nat.leb 48 n && Nat.leb n 57.

(** [[0-9a-f ,]] *)
Definition hex_space_comma (c : ascii) : bool :=
  let n := nat_of_ascii c in
  digit c || (Nat.leb 97 n && Nat.leb n 102) || Nat.eqb n 32 || Nat.eqb n 44.

(** [(0x[0-9a-f ,]+)+], the argument group between the parentheses *)
Definition argGroup : regex :=
  Plus (Cat (Lit "0x") (Plus (Class hex_space_comma))).

(** [lineWithArgs = regexp.MustCompile(`\((0x[0-9a-f ,]+)+\)$`)], without
    its final [$], which [find_to_end] accounts for. *)
Definition lineWithArgs : regex := Cat (Lit "(") (Cat argGroup (Lit ")")).

Definition lineWithArgs_MatchString (l : string) : bool :=
  bool_decide (is_Some (find_to_end lineWithArgs l)).

(** [lineWithArgs.Split(l, -1)].  A match is not empty and reaches the end
    of [l], so there is at most one: [Split] returns the text before it and
    the empty text after it, and [l] itself when there is none. *)
Definition lineWithArgs_Split (l : string) : list string :=
  match find_to_end lineWithArgs l with
  | Some i => [Strings.take i l; ""]
  | None => [l]
  end.

(** [durationPattern = regexp.MustCompile(`^\d+ minutes$`)] *)
Definition durationPattern : regex := Cat (Plus (Class digit)) (Lit " minutes").

Definition durationPattern_MatchString (s : string) : bool :=
  full_match durationPattern s.

(** [rn.ReplaceAllString(s, "~")] for [rn = `[0-9]+`]: every maximal run
    of decimal digits becomes one ["~"]. *)
Fixpoint replace_digit_runs (in_run : bool) (s : string) : string :=
  match s with
  | "" => ""
  | String c s' =>
      if digit c then
        if in_run then replace_digit_runs true s'
        else String "~" (replace_digit_runs true s')
      else String c (replace_digit_runs false s')
  end.

End Regexp.

(** ** [strconv.Atoi] *)

Inductive error : Type :=
| ErrSyntax (fn num : string)      (* strconv.NumError with strconv.ErrSyntax *)
| ErrRange (fn num : string)       (* strconv.NumError with strconv.ErrRange *)
| ErrorString (msg : string).      (* errors.New / fmt.Errorf *)

Module Strconv.

Definition maxUint64 : Z := 2 ^ 64 - 1.

(** The digit loop of [ParseUint(s, 10, 64)], with the value read so far. *)
Fixpoint parse_digits (s0 : string) (n : Z) (s : string) : error + Z :=
  match s with
  | "" => inr n
  | String c s' =>
      if Regexp.digit c then
        let n1 := n * 10 + (Z.of_nat (nat_of_ascii c) - 48) in
        if Z.ltb maxUint64 n1 then inl (ErrRange "Atoi" s0)
        else parse_digits s0 n1 s'
      else inl (ErrSyntax "Atoi" s0)
  end.

(** [strconv.Atoi(s)] on a 64-bit platform: an optional sign and at least
    one decimal digit, the value within the range of [int]. *)
Definition Atoi (s : string) : error + Z :=
  match s with
  | "" => inl (ErrSyntax "Atoi" s)
  | String c s' =>
      let neg := Ascii.eqb c "-" in
      let digits := if neg || Ascii.eqb c "+" then s' else s in
      match digits with
      | "" => inl (ErrSyntax "Atoi" s)
      | _ =>
          match parse_digits s 0 digits with
          | inl e => inl e
          | inr un =>
              if negb neg && Z.leb (2 ^ 63) un then inl (ErrRange "Atoi" s)
              else if neg && Z.ltb (2 ^ 63) un then inl (ErrRange "Atoi" s)
              else inr (if neg then - un else un)
          end
      end
  end.

End Strconv.

(** ** [crypto/md5] and [encoding/hex] *)

Module MD5.

Definition w32 (x : Z) : Z := x mod 2 ^ 32.

Definition rotl32 (x c : Z) : Z :=
  w32 (Z.lor (Z.shiftl x c) (Z.shiftr x (32 - c))).

Definition not32 (x : Z) : Z := Z.lxor x (2 ^ 32 - 1).

(** The sine table: [floor(2^32 * abs(sin(i + 1)))]. *)
Definition K : list Z :=
  [ 0xd76aa478; 0xe8c7b756; 0x242070db; 0xc1bdceee;
    0xf57c0faf; 0x4787c62a; 0xa8304613; 0xfd469501;
    0x698098d8; 0x8b44f7af; 0xffff5bb1; 0x895cd7be;
    0x6b901122; 0xfd987193; 0xa679438e; 0x49b40821;
    0xf61e2562; 0xc040b340; 0x265e5a51; 0xe9b6c7aa;
    0xd62f105d; 0x02441453; 0xd8a1e681; 0xe7d3fbc8;
    0x21e1cde6; 0xc33707d6; 0xf4d50d87; 0x455a14ed;
    0xa9e3e905; 0xfcefa3f8; 0x676f02d9; 0x8d2a4c8a;
    0xfffa3942; 0x8771f681; 0x6d9d6122; 0xfde5380c;
    0xa4beea44; 0x4bdecfa9; 0xf6bb4b60; 0xbebfbc70;
    0x289b7ec6; 0xeaa127fa; 0xd4ef3085; 0x04881d05;
    0xd9d4d039; 0xe6db99e5; 0x1fa27cf8; 0xc4ac5665;
    0xf4292244; 0x432aff97; 0xab9423a7; 0xfc93a039;
    0x655b59c3; 0x8f0ccc92; 0xffeff47d; 0x85845dd1;
    0x6fa87e4f; 0xfe2ce6e0; 0xa3014314; 0x4e0811a1;
    0xf7537e82; 0xbd3af235; 0x2ad7d2bb; 0xeb86d391 ].

(** The per-round shift amounts. *)
Definition shifts : list Z :=
  [ 7; 12; 17; 22; 7; 12; 17; 22; 7; 12; 17; 22; 7; 12; 17; 22;
    5; 9; 14; 20; 5; 9; 14; 20; 5; 9; 14; 20; 5; 9; 14; 20;
    4; 11; 16; 23; 4; 11; 16; 23; 4; 11; 16; 23; 4; 11; 16; 23;
    6; 10; 15; 21; 6; 10; 15; 21; 6; 10; 15; 21; 6; 10; 15; 21 ].

(** [n] as [k] little-endian bytes. *)
Fixpoint le_bytes (k : nat) (n : Z) : list Z :=
  match k with
  | O => []
  | S k' => n mod 256 :: le_bytes k' (n / 256)
  end.

Fixpoint le_word (bs : list Z) : Z :=
  match bs with
  | [] => 0
  | b :: bs' => b + 256 * le_word bs'
  end.

(** The message followed by [0x80], zeros up to 56 modulo 64, and its
    length in bits as 8 little-endian bytes. *)
Definition pad (msg : list Z) : list Z :=
  let n := Z.of_nat (length msg) in
  let zeros := Z.to_nat ((55 - n) mod 64) in
  msg ++ [128] ++ repeat 0 zeros ++ le_bytes 8 ((8 * n) mod 2 ^ 64).

Fixpoint words (k : nat) (bs : list Z) : list Z :=
  match k with
  | O => []
  | S k' => le_word (firstn 4 bs) :: words k' (skipn 4 bs)
  end.

Definition step (M : list Z) (st : Z * Z * Z * Z) (i : nat) : Z * Z * Z * Z :=
  let '(A, B, C, D) := st in
  let iz := Z.of_nat i in
  let '(F, g) :=
    if Nat.ltb i 16 then (Z.lor (Z.land B C) (Z.land (not32 B) D), iz)
    else if Nat.ltb i 32 then
      (Z.lor (Z.land D B) (Z.land (not32 D) C), (5 * iz + 1) mod 16)
    else if Nat.ltb i 48 then (Z.lxor (Z.lxor B C) D, (3 * iz + 5) mod 16)
    else (Z.lxor C (Z.lor B (not32 D)), (7 * iz) mod 16) in
  let F' := w32 (F + A + nth i K 0 + nth (Z.to_nat g) M 0) in
  (D, w32 (B + rotl32 F' (nth i shifts 0)), B, C).

Definition block (st : Z * Z * Z * Z) (chunk : list Z) : Z * Z * Z * Z :=
  let M := words 16 chunk in
  let '(a0, b0, c0, d0) := st in
  let '(A, B, C, D) := fold_left (step M) (seq 0 64) st in
  (w32 (a0 + A), w32 (b0 + B), w32 (c0 + C), w32 (d0 + D)).

Fixpoint blocks (n : nat) (st : Z * Z * Z * Z) (bs : list Z) : Z * Z * Z * Z :=
  match n with
  | O => st
  | S n' => blocks n' (block st (firstn 64 bs)) (skipn 64 bs)
  end.

Definition init : Z * Z * Z * Z :=
  (0x67452301, 0xefcdab89, 0x98badcfe, 0x10325476).

Definition bytes_of_string (s : string) : list Z :=
  map (fun c => Z.of_nat (nat_of_ascii c)) (list_ascii_of_string s).

Definition string_of_bytes (bs : list Z) : string :=
  string_of_list_ascii (map (fun b => ascii_of_nat (Z.to_nat b)) bs).

(** The 16-byte MD5 digest of [msg] (RFC 1321). *)
Definition sum (msg : string) : string :=
  let bs := pad (bytes_of_string msg) in
  let '(a, b, c, d) := blocks (length bs / 64) init bs in
  string_of_bytes (le_bytes 4 a ++ le_bytes 4 b ++ le_bytes 4 c ++ le_bytes 4 d).

(** A [hash.Hash] made by [md5.New()]: what it has been fed so far. *)
Record digest : Type := { written : string }.

Definition New : digest := {| written := "" |}.

(** [d.Write(p)] *)
Definition Write (d : digest) (p : string) : digest :=
  {| written := written d +:+ p |}.

(** [d.Sum(b)]: [b] followed by the digest of what [d] was fed; [d] is
    left as it is. *)
Definition Sum (d : digest) (b : string) : string := b +:+ sum (written d).

End MD5.

Module Hex.

Definition hextable : string := "0123456789abcdef".

Definition digit (n : nat) : ascii :=
  match String.get n hextable with
  | Some c => c
  | None => "0"%char
  end.

(** [hex.EncodeToString(src)]: two lower-case digits per byte. *)
Fixpoint EncodeToString (src : string) : string :=
  match src with
  | "" => ""
  | String c src' =>
      let n := nat_of_ascii c in
      String (digit (n / 16)) (String (digit (n mod 16)) (EncodeToString src'))
  end.

End Hex.

(** ** Run-time panics *)

Inductive panic : Type :=
| SliceBoundsOutOfRange
| NilPointerDereference
| InterfaceConversion.

Inductive outcome (A : Type) : Type :=
| Done (a : A)
| Panics (p : panic).

Arguments Done {A} a.
Arguments Panics {A} p.

Definition obind {A B : Type} (m : outcome A) (k : A -> outcome B) : outcome B :=
  match m with
  | Done a => k a
  | Panics p => Panics p
  end.

#[global] Instance outcome_bind : MBind outcome :=
  fun A B k m => obind m k.
#[global] Instance outcome_ret : MRet outcome := fun A a => Done a.

(** [s[lo:hi]] on a string, with its bounds check. *)
Definition slice (s : string) (lo hi : Z) : outcome string :=
  if Z.leb 0 lo && Z.leb lo hi && Z.leb hi (Strings.len s)
  then Done (Strings.take (Z.to_nat (hi - lo)) (Strings.drop (Z.to_nat lo) s))
  else Panics SliceBoundsOutOfRange.

(** Go [int] arithmetic is modulo [2^64], in two's complement. *)
Definition int_wrap (z : Z) : Z := (z + 2 ^ 63) mod 2 ^ 64 - 2 ^ 63.

(** ** What the program prints

    A call of [fmt.Printf], [fmt.Println] or [sgr.Printf] is recorded with
    its format and its arguments; the text is not rendered. *)

Inductive fmtarg : Type :=
| AInt (n : Z)
| AString (s : string)
| AInts (ns : list Z)
| AError (e : error).

Inductive output : Type :=
| OutPrintf (format : string) (args : list fmtarg)
| OutPrintln (args : list fmtarg)
| OutSgrPrintf (format : string) (args : list fmtarg).

(** ** [Goroutine] *)

Definition MetaType : Type := Z.
Definition MetaState : MetaType := 0.
Definition MetaDuration : MetaType := 1.

Definition newline : string := String "010" "".
Definition tab : string := String "009" "".

Record Goroutine : Type := mkGoroutine {
  id : Z;
  header : string;
  lines : Z;
  duration : Z;
  metas : gmap Z string;
  scrubbedHash : string;
  fullHasher : MD5.digest;
  bufScrubbed : string;
  duplicates : list Z;
  frozen : bool;
  buf : string
}.

(** What [AddLine] writes to [bufScrubbed] for the line [l]; on a match
    [ss] has two elements and [ss[0]] is the text before the match. *)
Definition scrub (l : string) : string :=
  if Regexp.lineWithArgs_MatchString l then
    let ss := Regexp.lineWithArgs_Split l in
    nth 0 ss "" +:+ "(...)" +:+ newline
  else l +:+ newline.

(** [g.AddLine(l)]: the record afterwards and what was printed. *)
Definition AddLine (l : string) (g : Goroutine) : Goroutine * list output :=
  if frozen g then (g, [])
  else
    let g' :=
      {| id := id g; header := header g;
         lines := int_wrap (lines g + 1);
         duration := duration g; metas := metas g;
         scrubbedHash := scrubbedHash g; fullHasher := fullHasher g;
         bufScrubbed := bufScrubbed g +:+ scrub l;
         duplicates := duplicates g; frozen := frozen g;
         buf := buf g +:+ l +:+ newline |} in
    if Strings.HasPrefix l tab
       && negb (Nat.eqb (length (Strings.Split l " ")) 2)
    then (g', [OutPrintln [AString "ignored one line for digest"]])
    else (g', []).

(** [g.Freeze()] *)
Definition Freeze (g : Goroutine) : Goroutine :=
  if frozen g then g
  else
    {| id := id g; header := header g; lines := lines g;
       duration := duration g; metas := metas g;
       scrubbedHash :=
         Hex.EncodeToString (MD5.Sum (fullHasher g) (bufScrubbed g));
       fullHasher := fullHasher g; bufScrubbed := bufScrubbed g;
       duplicates := duplicates g; frozen := true; buf := buf g |}.

(** [AddLine] for each line of [ls] in turn. *)
Definition AddLines (ls : list string) (g : Goroutine) : Goroutine :=
  fold_left (fun g l => fst (AddLine l g)) ls g.

(** The annotations after the state: [metas[MetaDuration]] and [duration]. *)
Definition parse_duration (parts : list string) (metas0 : gmap Z string)
  : outcome (gmap Z string * Z) :=
  if Nat.ltb 1 (length parts) then
    let value := Strings.TrimSpace (nth 1 parts "") in
    let metas1 := <[MetaDuration := value]> metas0 in
    if Regexp.durationPattern_MatchString value then
      v ← slice value 0 (Strings.len value - 8);
      match Strconv.Atoi v with
      | inr d => Done (metas1, d)
      | inl _ => Done (metas1, 0)
      end
    else Done (metas1, 0)
  else Done (metas0, 0).

(** [NewGoroutine(metaline)]: the new record, an error, or a panic of one of
    the two slice expressions. *)
Definition NewGoroutine (metaline : string) : outcome (error + Goroutine) :=
  let idx := Strings.Index metaline "[" in
  inner ← slice metaline (idx + 1) (Strings.len metaline - 2);
  let parts := Strings.Split inner "," in
  let metas0 : gmap Z string := {[ MetaState := Strings.TrimSpace (nth 0 parts "") ]} in
  md ← parse_duration parts metas0;
  prefix ← slice metaline 9 idx;
  let idstr := Strings.TrimSpace prefix in
  match Strconv.Atoi idstr with
  | inl err => Done (inl err)
  | inr n =>
      Done (inr {| id := n; lines := 1; header := metaline;
                   buf := ""; bufScrubbed := "";
                   duration := snd md; metas := fst md;
                   fullHasher := MD5.New; duplicates := [];
                   scrubbedHash := ""; frozen := false |})
  end.

(** [scrubHeader(s)] *)
Definition scrubHeader (s : string) : string :=
  Regexp.replace_digit_runs false s.

(** [g.PrintWithColor()]: what it prints. *)
Definition PrintWithColor (g : Goroutine) : list output :=
  if Nat.ltb 1 (length (duplicates g)) then
    [ OutSgrPrintf
        "[fg-blue]%s[reset] [fg-red]%d[reset] times: [fg-green]%v[reset]\n"
        [ AString (scrubHeader (header g));
          AInt (Z.of_nat (length (duplicates g)));
          AInts (duplicates g) ];
      OutPrintln [AString (bufScrubbed g)] ]
  else
    [ OutSgrPrintf "[fg-blue]%s[reset]\n" [AString (header g)];
      OutPrintln [AString (buf g)] ].

(** ** The expression language ([govaluate])

    Values of type [interface{}] that reach the program.  [VFloat64 n] is
    the [float64] that [govaluate] makes of the [int] parameter [n]. *)

Inductive value : Type :=
| VInt (n : Z)
| VFloat64 (n : Z)
| VString (s : string)
| VBool (b : bool).

(** [govaluate.ExpressionFunction]: a result, an error, or a panic. *)
Definition ExpressionFunction : Type := list value -> outcome (error + value).

(** [strings.ToLower] and [strings.ToUpper], which fold case with the
    Unicode tables of the Go library. *)
Class CaseMapping : Type := {
  ToLower : string -> string;
  ToUpper : string -> string
}.

(** The interface of [govaluate] that [withCondition] uses: compiling a
    condition with a table of functions, and evaluating the compiled
    expression on the parameters of one record. *)
Class Evaluable (E : Type) : Type := {
  NewEvaluableExpressionWithFunctions :
    string -> gmap string ExpressionFunction -> error + E;
  Evaluate : E -> gmap string value -> outcome (error + value)
}.

(** [v.(string)] *)
Definition assert_string (v : value) : outcome string :=
  match v with
  | VString s => Done s
  | _ => Panics InterfaceConversion
  end.

Section Functions.

Context `{CaseMapping}.

Definition contains : ExpressionFunction := fun args =>
  if negb (Nat.eqb (length args) 2) then
    Done (inl (ErrorString "contains() accepts exactly two arguments"))
  else
    a0 ← assert_string (nth 0 args (VBool false));
    a1 ← assert_string (nth 1 args (VBool false));
    let idx := Strings.Index a0 a1 in
    Done (inr (VBool (Z.ltb (-1) idx))).

Definition lower : ExpressionFunction := fun args =>
  if negb (Nat.eqb (length args) 1) then
    Done (inl (ErrorString "lower() accepts exactly one arguments"))
  else
    a0 ← assert_string (nth 0 args (VBool false));
    Done (inr (VString (ToLower a0))).

Definition upper : ExpressionFunction := fun args =>
  if negb (Nat.eqb (length args) 1) then
    Done (inl (ErrorString "upper() accepts exactly one arguments"))
  else
    a0 ← assert_string (nth 0 args (VBool false));
    Done (inr (VString (ToUpper a0))).

Definition functions : gmap string ExpressionFunction :=
  <["contains" := contains]> (<["lower" := lower]> (<["upper" := upper]> ∅)).

End Functions.

(** ** The heap, and the state of a run

    A [*Goroutine] is an address; [nil] is an address the heap does not
    hold, and dereferencing it panics. *)

Definition ptr : Type := positive.

Record World : Type := mkWorld {
  heap : gmap positive Goroutine;
  stdout : list output
}.

Definition M (A : Type) : Type := World -> outcome (A * World).

Definition Mret {A : Type} (a : A) : M A := fun w => Done (a, w).

Definition Mbind {A B : Type} (m : M A) (k : A -> M B) : M B :=
  fun w => match m w with
           | Done (a, w') => k a w'
           | Panics p => Panics p
           end.

#[global] Instance M_bind : MBind M := fun A B k m => Mbind m k.
#[global] Instance M_ret : MRet M := fun A a => Mret a.

(** [*g] *)
Definition deref (g : ptr) : M Goroutine :=
  fun w => match heap w !! g with
           | Some r => Done (r, w)
           | None => Panics NilPointerDereference
           end.

(** [*g = r] *)
Definition store (g : ptr) (r : Goroutine) : M unit :=
  fun w => Done (tt, {| heap := <[g := r]> (heap w); stdout := stdout w |}).

Definition emit (out : list output) : M unit :=
  fun w => Done (tt, {| heap := heap w; stdout := stdout w ++ out |}).

Definition lift {A : Type} (o : outcome A) : M A :=
  fun w => match o with
           | Done a => Done (a, w)
           | Panics p => Panics p
           end.

(** ** [GoroutineDump] *)

Record GoroutineDump : Type := mkDump {
  goroutines : list ptr
}.

(** [NewGoroutineDump()] *)
Definition NewGoroutineDump : GoroutineDump := {| goroutines := [] |}.

(** [gd.Add(g)] *)
Definition Add (g : ptr) (gd : GoroutineDump) : GoroutineDump :=
  {| goroutines := goroutines gd ++ [g] |}.

(** The order in which one [range] over the map [m] yields its keys: any
    order is possible, each key once. *)
Definition range_order `{Countable K} {V : Type}
    (m : gmap K V) (order : list K) : Prop :=
  order ≡ₚ (map_to_list m).*1.

(** [NewGoroutineDumpFromMap(gs)], the [range] over [gs] yielding its keys
    in [order]. *)
Definition NewGoroutineDumpFromMap
    (order : list Z) (gs : gmap Z ptr) : GoroutineDump :=
  {| goroutines := omap (fun k => gs !! k) order |}.

(** The parameters [withCondition] hands to [Evaluate] for one record. *)
Definition params_of (g : Goroutine) : gmap string value :=
  <["id" := VInt (id g)]>
  (<["dups" := VInt (Z.of_nat (length (duplicates g)))]>
  (<["duration" := VInt (duration g)]>
  (<["lines" := VInt (lines g)]>
  (<["state" := VString (default "" (metas g !! MetaState))]>
  (<["trace" := VString (buf g)]> ∅))))).

Definition double_quote : ascii := "034"%char.

Section Filter.

Context `{CaseMapping} `{Evaluable E}.

(** The loop of [withCondition] over the records from position [i] on.
    [St] is the state the callback closes over. *)
Fixpoint withCondition_loop {St : Type} (expression : E)
    (callback : nat -> ptr -> bool -> St -> M (option ptr * St))
    (i : nat) (gs : list ptr) (acc : list ptr) (st : St)
  : M ((error + list ptr) * St) :=
  match gs with
  | [] => mret (inr acc, st)
  | g :: gs' =>
      r ← deref g;
      res ← lift (Evaluate expression (params_of r));
      match res with
      | inl err => mret (inl err, st)
      | inr (VBool val) =>
          cb ← callback i g val st;
          withCondition_loop expression callback (S i) gs'
            (match fst cb with Some gor => acc ++ [gor] | None => acc end)
            (snd cb)
      | inr _ =>
          mret (inl (ErrorString "argument expression should return a boolean"), st)
      end
  end.

(** [gd.withCondition(cond, callback)] *)
Definition withCondition {St : Type} (cond : string)
    (callback : nat -> ptr -> bool -> St -> M (option ptr * St))
    (st : St) (gd : GoroutineDump) : M ((error + list ptr) * St) :=
  let cond := Strings.Trim cond double_quote in
  match NewEvaluableExpressionWithFunctions cond functions with
  | inl err => mret (inl err, st)
  | inr expression =>
      r ← withCondition_loop expression callback 0%nat (goroutines gd) [] st;
      match fst r with
      | inl err => mret (inl err, snd r)
      | inr kept =>
          _ ← emit [OutPrintf "Deleted %d goroutines, kept %d.\n"
                      [AInt (Z.of_nat (length (goroutines gd)) - Z.of_nat (length kept));
                       AInt (Z.of_nat (length kept))]];
          mret (inr kept, snd r)
      end
  end.

(** [gd.Delete(cond)]: the error returned and the collection afterwards. *)
Definition Delete (cond : string) (gd : GoroutineDump)
  : M (option error * GoroutineDump) :=
  r ← withCondition cond
        (fun _ g passed (_ : unit) =>
           mret (if negb passed then Some g else None, tt)) tt gd;
  match fst r with
  | inl err => mret (Some err, gd)
  | inr kept => mret (None, {| goroutines := kept |})
  end.

(** [gd.Keep(cond)] *)
Definition Keep (cond : string) (gd : GoroutineDump)
  : M (option error * GoroutineDump) :=
  r ← withCondition cond
        (fun _ g passed (_ : unit) =>
           mret (if passed then Some g else None, tt)) tt gd;
  match fst r with
  | inl err => mret (Some err, gd)
  | inr kept => mret (None, {| goroutines := kept |})
  end.

(** [gd.Copy(cond)]: the new collection, [None] for the [nil] returned on
    an error. *)
Definition Copy (cond : string) (gd : GoroutineDump)
  : M (option GoroutineDump) :=
  if String.eqb cond "" then
    mret (Some {| goroutines := goroutines gd |})
  else
    r ← withCondition cond
          (fun _ g passed (_ : unit) =>
             mret (if passed then Some g else None, tt)) tt gd;
    match fst r with
    | inl err => _ ← emit [OutPrintln [AError err]]; mret None
    | inr kept => mret (Some {| goroutines := kept |})
    end.

(** [gd.Search(cond, offset, limit)]; the callback closes over [count]. *)
Definition Search (cond : string) (offset limit : Z) (gd : GoroutineDump)
  : M unit :=
  _ ← emit [OutSgrPrintf "[fg-green]Search with offset %d and limit %d.[reset]\n\n"
              [AInt offset; AInt limit]];
  r ← withCondition cond
        (fun _ g passed (count : Z) =>
           if passed then
             _ ← (if Z.leb offset count && Z.ltb count (int_wrap (offset + limit))
                  then r ← deref g; emit (PrintWithColor r)
                  else mret tt);
             mret (None, int_wrap (count + 1))
           else mret (None, count)) 0 gd;
  match fst r with
  | inl err => emit [OutPrintln [AError err]]
  | inr _ => mret tt
  end.

End Filter.

(** ** [Dedupe] *)

(** [g.duplicates = ids] *)
Definition set_duplicates (ids : list Z) (r : Goroutine) : Goroutine :=
  {| id := id r; header := header r; lines := lines r;
     duration := duration r; metas := metas r;
     scrubbedHash := scrubbedHash r; fullHasher := fullHasher r;
     bufScrubbed := bufScrubbed r; duplicates := ids;
     frozen := frozen r; buf := buf r |}.

(** The first loop of [Dedupe]: the identities of the records of each
    fingerprint, in the order of the collection. *)
Fixpoint Dedupe_groups (gs : list ptr) (m : gmap string (list Z))
  : M (gmap string (list Z)) :=
  match gs with
  | [] => mret m
  | g :: gs' =>
      r ← deref g;
      Dedupe_groups gs'
        (<[scrubbedHash r := default [] (m !! scrubbedHash r) ++ [id r]]> m)
  end.

(** The inner loop: the first record whose fingerprint is [digest] gets
    [ids] as its duplicates and is the one kept. *)
Fixpoint Dedupe_first (digest : string) (ids : list Z) (gs : list ptr)
  : M (option ptr) :=
  match gs with
  | [] => mret None
  | g :: gs' =>
      r ← deref g;
      if String.eqb (scrubbedHash r) digest then
        _ ← store g (set_duplicates ids r);
        mret (Some g)
      else Dedupe_first digest ids gs'
  end.

(** The second loop, over the entries of [m] in the order [order]. *)
Fixpoint Dedupe_range (m : gmap string (list Z)) (order : list string)
    (gs : list ptr) (kept : list ptr) : M (list ptr) :=
  match order with
  | [] => mret kept
  | digest :: order' =>
      found ← Dedupe_first digest (default [] (m !! digest)) gs;
      Dedupe_range m order' gs
        (match found with Some g => kept ++ [g] | None => kept end)
  end.

(** [gd.Dedupe()], the [range] over the map of groups yielding its keys in
    [order]. *)
Definition Dedupe (order : list string) (gd : GoroutineDump) : M GoroutineDump :=
  m ← Dedupe_groups (goroutines gd) ∅;
  kept ← Dedupe_range m order (goroutines gd) [];
  if negb (Nat.eqb (length (goroutines gd)) (length kept)) then
    _ ← emit [OutPrintf "dedupped %d, kept %d\n"
                [AInt (Z.of_nat (length (goroutines gd)));
                 AInt (Z.of_nat (length kept))]];
    mret {| goroutines := kept |}
  else mret gd.

(** ** [Diff] *)

(** The first loop of [Diff]. *)
Fixpoint Diff_left (gs : list ptr) (lonly : gmap Z ptr) : M (gmap Z ptr) :=
  match gs with
  | [] => mret lonly
  | v :: gs' => r ← deref v; Diff_left gs' (<[id r := v]> lonly)
  end.

(** The second loop of [Diff], on the maps [(lonly, common, ronly)]. *)
Fixpoint Diff_right (gs : list ptr)
    (maps : gmap Z ptr * gmap Z ptr * gmap Z ptr)
  : M (gmap Z ptr * gmap Z ptr * gmap Z ptr) :=
  match gs with
  | [] => mret maps
  | v :: gs' =>
      r ← deref v;
      let '(lonly, common, ronly) := maps in
      match lonly !! id r with
      | Some _ => Diff_right gs' (delete (id r) lonly, <[id r := v]> common, ronly)
      | None => Diff_right gs' (lonly, common, <[id r := v]> ronly)
      end
  end.

(** The three maps [Diff] has built when it returns. *)
Definition Diff_maps (gd another : GoroutineDump)
  : M (gmap Z ptr * gmap Z ptr * gmap Z ptr) :=
  lonly ← Diff_left (goroutines gd) ∅;
  Diff_right (goroutines another) (lonly, ∅, ∅).

(** [gd.Diff(another)], the three [range]s of [NewGoroutineDumpFromMap]
    yielding the keys in [ol], [oc] and [or]. *)
Definition Diff (ol oc or : list Z) (gd another : GoroutineDump)
  : M (GoroutineDump * GoroutineDump * GoroutineDump) :=
  maps ← Diff_maps gd another;
  let '(lonly, common, ronly) := maps in
  mret (NewGoroutineDumpFromMap ol lonly,
        NewGoroutineDumpFromMap oc common,
        NewGoroutineDumpFromMap or ronly).

(** ** A small expression language

    An instance of [Evaluable] to run the operations on in the examples:
    parameters, string literals in single quotes, and calls of the functions
    of the table.  A parameter of type [int] reaches a function as a
    [float64]; the error or the panic of a function is that of the
    evaluation.  It is not the language of [govaluate], which has operators
    and more kinds of literals: the properties of the operations are stated
    for every instance of [Evaluable], and this one only provides inputs to
    run them on. *)

Module Mini.

#[warnings="-register-all"]
Inductive Expr : Type :=
| EVar (name : string)
| EString (s : string)
| ECall (name : string) (f : ExpressionFunction) (args : list Expr).

(** The arguments from left to right, then the call. *)
Definition eval_args (ev : Expr -> outcome (error + value))
    (f : ExpressionFunction) : list Expr -> list value -> outcome (error + value) :=
  fix go (es : list Expr) (vals : list value) :=
    match es with
    | [] => f vals
    | e :: es' =>
        r ← ev e;
        match r with
        | inl err => Done (inl err)
        | inr v => go es' (vals ++ [v])
        end
    end.

Fixpoint eval (params : gmap string value) (e : Expr) : outcome (error + value) :=
  match e with
  | EVar x =>
      match params !! x with
      | Some (VInt n) => Done (inr (VFloat64 n))
      | Some v => Done (inr v)
      | None => Done (inl (ErrorString ("No parameter '" +:+ x +:+ "' found.")))
      end
  | EString s => Done (inr (VString s))
  | ECall _ f args => eval_args (eval params) f args []
  end.

Definition is_letter (c : ascii) : bool :=
  let n := nat_of_ascii c in
  (Nat.leb 65 n && Nat.leb n 90) || (Nat.leb 97 n && Nat.leb n 122).

Fixpoint read_ident (s : string) : string * string :=
  match s with
  | String c s' =>
      if is_letter c || Regexp.digit c || Ascii.eqb c "_" then
        let '(name, rest) := read_ident s' in (String c name, rest)
      else ("", s)
  | "" => ("", "")
  end.

Fixpoint read_until (q : ascii) (s : string) : option (string * string) :=
  match s with
  | String c s' =>
      if Ascii.eqb c q then Some ("", s')
      else '(lit, rest) ← read_until q s'; Some (String c lit, rest)
  | "" => None
  end.

Definition skip_spaces (s : string) : string := Strings.TrimLeft_byte " " s.

(** One or more expressions separated by commas, up to the closing
    parenthesis. *)
Fixpoint parse_args (pe : string -> option (Expr * string))
    (fuel : nat) (s : string) : option (list Expr * string) :=
  match fuel with
  | O => None
  | S fuel' =>
      '(e, rest) ← pe s;
      match skip_spaces rest with
      | String c rest' =>
          if Ascii.eqb c "," then
            '(es, rest'') ← parse_args pe fuel' rest'; Some (e :: es, rest'')
          else if Ascii.eqb c ")" then Some ([e], rest')
          else None
      | "" => None
      end
  end.

Fixpoint parse_expr (fs : gmap string ExpressionFunction)
    (fuel : nat) (s : string) : option (Expr * string) :=
  match fuel with
  | O => None
  | S fuel' =>
      match skip_spaces s with
      | String c rest =>
          if Ascii.eqb c "'" then
            '(lit, rest') ← read_until "'" rest; Some (EString lit, rest')
          else if is_letter c then
            let '(name, rest') := read_ident (String c rest) in
            match skip_spaces rest' with
            | String c2 rest2 =>
                if Ascii.eqb c2 "(" then
                  f ← fs !! name;
                  match skip_spaces rest2 with
                  | String c3 rest3 =>
                      if Ascii.eqb c3 ")" then Some (ECall name f [], rest3)
                      else
                        '(es, r) ← parse_args (parse_expr fs fuel')
                                     (String.length rest2) rest2;
                        Some (ECall name f es, r)
                  | "" => None
                  end
                else Some (EVar name, rest')
            | "" => Some (EVar name, rest')
            end
          else None
      | "" => None
      end
  end.

Definition compile (cond : string) (fs : gmap string ExpressionFunction)
  : error + Expr :=
  match parse_expr fs (S (String.length cond)) cond with
  | Some (e, rest) =>
      match skip_spaces rest with
      | "" => inr e
      | _ => inl (ErrorString "Invalid token")
      end
  | None => inl (ErrorString "Invalid token")
  end.

Definition evaluable : Evaluable Expr :=
  {| NewEvaluableExpressionWithFunctions := compile;
     Evaluate := fun e params => eval params e |}.

(** Case folding of the ASCII letters. *)
Definition ascii_case : CaseMapping :=
  {| ToLower := Strings.map_bytes Strings.lower_byte;
     ToUpper := Strings.map_bytes Strings.upper_byte |}.

End Mini.

(** ** Notions the properties are stated with *)

(** Occurrence of a byte in a string. *)
Fixpoint occurs (c : ascii) (s : string) : bool :=
  match s with
  | "" => false
  | String a s' => Ascii.eqb a c || occurs c s'
  end.

(** Every byte class of [r] is included in [P]. *)
Fixpoint classes_within (P : ascii -> bool) (r : Regexp.regex) : Prop :=
  match r with
  | Regexp.Class p => forall c, p c = true -> P c = true
  | Regexp.Cat r1 r2 | Regexp.Alt r1 r2 => classes_within P r1 /\ classes_within P r2
  | Regexp.Star r' => classes_within P r'
  | _ => True
  end.

(** Two body lines that are the same but for the hexadecimal values of a
    trailing parenthesised argument group. *)
Definition same_but_args (la lb : string) : Prop :=
  la = lb \/
  exists pre a b,
    la = pre +:+ "(" +:+ a +:+ ")" /\ lb = pre +:+ "(" +:+ b +:+ ")" /\
    Regexp.full_match Regexp.argGroup a = true /\
    Regexp.full_match Regexp.argGroup b = true.

(** What [AddLine] has written to [bufScrubbed] after the lines [ls]. *)
Definition scrubbed_body (ls : list string) : string :=
  fold_right (fun l acc => scrub l +:+ acc) "" ls.

(** The states a record goes through: made by [NewGoroutine], then changed
    by [AddLine], by [Freeze] and, in its [duplicates], by [Dedupe]. *)
Inductive built : Goroutine -> Prop :=
| built_new metaline g : NewGoroutine metaline = Done (inr g) -> built g
| built_AddLine l g : built g -> built (fst (AddLine l g))
| built_Freeze g : built g -> built (Freeze g)
| built_duplicates ids g : built g -> built (set_duplicates ids g).

(** The result of evaluating [e] on the record at [g]. *)
Definition eval_at `{Evaluable E} (w : World) (e : E) (g : ptr)
  : outcome (error + value) :=
  match heap w !! g with
  | Some r => Evaluate e (params_of r)
  | None => Panics NilPointerDereference
  end.


(** [e] evaluates to a boolean on the record at [g]. *)
Definition decides `{Evaluable E} (w : World) (e : E) (g : ptr) : Prop :=
  exists b, eval_at w e g = Done (inr (VBool b)).

(** [e] evaluates to [true] on the record at [g]. *)
Definition passes `{Evaluable E} (w : World) (e : E) (g : ptr) : bool :=
  match eval_at w e g with
  | Done (inr (VBool true)) => true
  | _ => false
  end.

(** The callbacks of [Delete], [Keep] and [Copy]: the record is kept when
    [sel passed]. *)
Definition selecting (sel : bool -> bool)
  : nat -> ptr -> bool -> unit -> M (option ptr * unit) :=
  fun _ g passed _ => mret (if sel passed then Some g else None, tt).

(** The identities of the records at [gs], in order. *)
Definition ids_of (w : World) (gs : list ptr) : list Z :=
  omap (fun g => id <$> heap w !! g) gs.

(** The identity of the record at [g]. *)
Definition id_at (w : World) (g : ptr) : option Z := id <$> heap w !! g.

(** The set of the identities of the records at [gs]. *)
Definition ids_set (w : World) (gs : list ptr) : gset Z :=
  list_to_set (ids_of w gs).

(** The fingerprints of the records at [gs], in order. *)
Definition hashes_of (w : World) (gs : list ptr) : list string :=
  omap (fun g => scrubbedHash <$> heap w !! g) gs.

(** The fingerprint of the record at [g]. *)
Definition hash_at (w : World) (g : ptr) : option string :=
  scrubbedHash <$> heap w !! g.

(** The first of [gs] whose record has the fingerprint [h]. *)
Fixpoint first_with (w : World) (h : string) (gs : list ptr) : option ptr :=
  match gs with
  | [] => None
  | g :: gs' =>
      if bool_decide (hash_at w g = Some h) then Some g else first_with w h gs'
  end.

(** [g] is the first record of [gs] with its fingerprint. *)
Definition first_of_group (w : World) (gs : list ptr) (g : ptr) : Prop :=
  exists pre post h,
    gs = pre ++ g :: post /\ hash_at w g = Some h /\ h ∉ hashes_of w pre.

(** The identities of the records of [gs] with the fingerprint [h], in
    order. *)
Definition group_ids (w : World) (h : string) (gs : list ptr) : list Z :=
  ids_of w (List.filter (fun g => bool_decide (hash_at w g = Some h)) gs).

(** The fingerprint and the identity of each record of [gs], in order. *)
Definition keyed (w : World) (gs : list ptr) : list (string * Z) :=
  omap (fun g => (fun r => (scrubbedHash r, id r)) <$> heap w !! g) gs.

(** The map the first loop of [Dedupe] builds from [m]. *)
Definition groups (l : list (string * Z)) (m : gmap string (list Z))
  : gmap string (list Z) :=
  fold_left (fun m x => <[fst x := default [] (m !! fst x) ++ [snd x]]> m) l m.

(** The world after [g.duplicates = ids]. *)
Definition with_duplicates (g : ptr) (ids : list Z) (w : World) : World :=
  {| heap := alter (set_duplicates ids) g (heap w); stdout := stdout w |}.

(** The world after the second loop of [Dedupe]. *)
Definition range_world (m : gmap string (list Z)) (order : list string)
    (gs : list ptr) (w : World) : World :=
  fold_left
    (fun w h =>
       match first_with w h gs with
       | Some g => with_duplicates g (default [] (m !! h)) w
       | None => w
       end) order w.

(** All of [gs] are addresses of records. *)
Definition allocated (w : World) (gs : list ptr) : Prop :=
  Forall (fun g => is_Some (heap w !! g)) gs.

(** The world after [out] has been printed. *)
Definition printed (w : World) (out : list output) : World :=
  {| heap := heap w; stdout := stdout w ++ out |}.

(** ** Records and collections to run the operations on *)

(** The zero value of [Goroutine]. *)
Definition zero_Goroutine : Goroutine :=
  {| id := 0; header := ""; lines := 0; duration := 0; metas := ∅;
     scrubbedHash := ""; fullHasher := MD5.New; bufScrubbed := "";
     duplicates := []; frozen := false; buf := "" |}.

(** The record [NewGoroutine] makes of [metaline]. *)
Definition record_of (metaline : string) : Goroutine :=
  match NewGoroutine metaline with
  | Done (inr g) => g
  | _ => zero_Goroutine
  end.

(** The record of [metaline] with the body lines [ls], finalized. *)
Definition finalized_record (metaline : string) (ls : list string) : Goroutine :=
  Freeze (AddLines ls (record_of metaline)).

(** A heap of three finalized records: two with the identity 7 and
    different bodies, one with the identity 9. *)
Definition example_world : World :=
  {| heap :=
       <[1%positive := finalized_record "goroutine 7 [semacquire]:"
                         ["sync.(*Mutex).Lock(0xc000012345)"]]>
       (<[2%positive := finalized_record "goroutine 7 [chan receive]:"
                          ["main.worker(0xc000012345)"]]>
       (<[3%positive := finalized_record "goroutine 9 [chan receive]:"
                          ["main.worker(0xc000067890)"]]> ∅));
     stdout := [] |}.

Definition example_dump : GoroutineDump :=
  {| goroutines := [1%positive; 2%positive; 3%positive] |}.

(** ** [Summary] *)

(** The first loop of [Summary]: how many records are in each state. *)
Fixpoint Summary_stats (gs : list ptr) (stats : gmap string Z) : M (gmap string Z) :=
  match gs with
  | [] => mret stats
  | g :: gs' =>
      r ← deref g;
      let k := default "" (metas r !! MetaState) in
      Summary_stats gs' (<[k := int_wrap (default 0 (stats !! k) + 1)]> stats)
  end.

(** [sort.Sort(sort.StringSlice(states))]: the strings in ascending order
    of their bytes. *)
Definition sort_strings (states : list string) : list string :=
  merge_sort String.le states.

(** [gd.Summary()], the [range] over [stats] yielding its keys in [order]. *)
Definition Summary (order : list string) (gd : GoroutineDump) : M unit :=
  _ ← emit [OutPrintf "# of goroutines: %d\n"
              [AInt (Z.of_nat (length (goroutines gd)))]];
  stats ← (if Nat.ltb 0 (length (goroutines gd)) then
             stats ← Summary_stats (goroutines gd) ∅;
             _ ← emit [OutPrintln []];
             mret stats
           else mret ∅);
  if Nat.ltb 0 (size stats) then
    let states := sort_strings order in
    _ ← emit (map (fun k => OutPrintf "%15s: %d\n"
                              [AString k; AInt (default 0 (stats !! k))]) states);
    emit [OutPrintln []]
  else mret tt.

(** ** More notions the properties are stated with *)

(** The line [l] as [AddLine] writes it to [bufScrubbed], without the
    newline. *)
Definition stem (l : string) : string :=
  if Regexp.lineWithArgs_MatchString l then
    nth 0 (Regexp.lineWithArgs_Split l) "" +:+ "(...)"
  else l.

(** What [AddLine] has written to [buf] after the lines [ls]. *)
Definition raw_body (ls : list string) : string :=
  fold_right (fun l acc => l +:+ newline +:+ acc) "" ls.

(** The byte of [newline]. *)
Definition newline_byte : ascii := "010"%char.

(** The state of the record at [g], as [Summary] counts it. *)
Definition state_at (w : World) (g : ptr) : option string :=
  (fun r => default "" (metas r !! MetaState)) <$> heap w !! g.

(** The number of the records at [gs] that are in the state [k]. *)
Definition state_count (w : World) (k : string) (gs : list ptr) : nat :=
  length (List.filter (fun g => bool_decide (state_at w g = Some k)) gs).

(** The duplicates of the records at [gs], in order. *)
Definition duplicates_of (w : World) (gs : list ptr) : list (list Z) :=
  omap (fun g => duplicates <$> heap w !! g) gs.

(** What [PrintWithColor] prints for the records at [gs], in order. *)
Definition printed_records (w : World) (gs : list ptr) : list output :=
  concat (omap (fun g => PrintWithColor <$> heap w !! g) gs).

(** The callback of [Search]. *)
Definition searching (offset limit : Z)
  : nat -> ptr -> bool -> Z -> M (option ptr * Z) :=
  fun _ g passed count =>
    if passed then
      _ ← (if Z.leb offset count && Z.ltb count (int_wrap (offset + limit))
           then r ← deref g; emit (PrintWithColor r)
           else mret tt);
      mret (None, int_wrap (count + 1))
    else mret (None, count).

(** The records of [gs] whose rank, counted from [count], is in
    [[offset, offset + limit)]. *)
Fixpoint in_window (offset limit count : Z) (gs : list ptr) : list ptr :=
  match gs with
  | [] => []
  | g :: gs' =>
      if Z.leb offset count && Z.ltb count (offset + limit)
      then g :: in_window offset limit (count + 1) gs'
      else in_window offset limit (count + 1) gs'
  end.


(** The record at [g] has an identity of [ids]. *)
Definition id_in (w : World) (ids : gset Z) (g : ptr) : bool :=
  match id_at w g with
  | Some i => bool_decide (i ∈ ids)
  | None => false
  end.

(** [s] is made of decimal digits. *)
Fixpoint all_digits (s : string) : bool :=
  match s with
  | "" => true
  | String c s' => Regexp.digit c && all_digits s'
  end.

(** A byte below 128 that is no white space. *)
Definition plain (c : ascii) : bool :=
  let n := nat_of_ascii c in
  Nat.ltb n 128 && negb ((Nat.leb 9 n && Nat.leb n 13) || Nat.eqb n 32).

(** The header line of the record of a goroutine as the Go runtime writes
    it: the identity, the state and, for a goroutine that has waited, the
    minutes. *)
Definition metaline_of (ids state : string) (wait : option string) : string :=
  "goroutine " +:+ ids +:+ " [" +:+ state
  +:+ match wait with
      | Some ds => ", " +:+ ds +:+ " minutes"
      | None => ""
      end
  +:+ "]:".
(** * Properties *)

#[local] Set Warnings "-clear-no-such-hyp".

(** ** Byte strings *)

Section StringFacts.

Implicit Types s t u : string.

Lemma str_app_nil_l s : "" +:+ s = s.
Proof. reflexivity. Qed.

Lemma str_app_cons c s t : String c s +:+ t = String c (s +:+ t).
Proof. reflexivity. Qed.

Lemma str_app_nil_r s : s +:+ "" = s.
Proof. induction s as [|c s IH]; [reflexivity|]. now rewrite str_app_cons, IH. Qed.

Lemma str_app_assoc s t u : (s +:+ t) +:+ u = s +:+ (t +:+ u).
Proof.
  induction s as [|c s IH]; [reflexivity|]. now rewrite !str_app_cons, IH.
Qed.

Lemma str_length_app s t :
  String.length (s +:+ t) = (String.length s + String.length t)%nat.
Proof.
  induction s as [|c s IH]; [reflexivity|].
  rewrite str_app_cons. cbn [String.length]. now rewrite IH.
Qed.

Lemma str_app_eq_nil s t : s +:+ t = "" -> s = "" /\ t = "".
Proof. destruct s; [auto | discriminate]. Qed.

Lemma list_of_app s t :
  list_ascii_of_string (s +:+ t)
  = (list_ascii_of_string s ++ list_ascii_of_string t)%list.
Proof.
  induction s as [|c s IH]; [reflexivity|].
  rewrite str_app_cons. cbn [list_ascii_of_string]. now rewrite IH.
Qed.

Lemma list_of_string_inj s t :
  list_ascii_of_string s = list_ascii_of_string t -> s = t.
Proof.
  intros Heq.
  rewrite <- (string_of_list_ascii_of_string s),
          <- (string_of_list_ascii_of_string t).
  now rewrite Heq.
Qed.

Lemma str_app_inv_tail s t u : s +:+ u = t +:+ u -> s = t.
Proof.
  intros Heq. apply list_of_string_inj.
  apply (f_equal list_ascii_of_string) in Heq.
  rewrite !list_of_app in Heq.
  now apply List.app_inv_tail in Heq.
Qed.

Lemma str_take_app_length s t : Strings.take (String.length s) (s +:+ t) = s.
Proof.
  induction s as [|c s IH]; [now destruct t|].
  rewrite str_app_cons. cbn [String.length Strings.take]. now rewrite IH.
Qed.

End StringFacts.

(** ** Regular expressions: the matcher decides the language *)

Section RegexpFacts.

Import Regexp.

Lemma Matches_Cat_inv r1 r2 s :
  Matches (Cat r1 r2) s ->
  exists s1 s2, s = s1 +:+ s2 /\ Matches r1 s1 /\ Matches r2 s2.
Proof. inversion 1; subst; eauto. Qed.

Lemma Matches_Star_cons r c s :
  Matches (Star r) (String c s) ->
  exists s1 s2, s = s1 +:+ s2 /\ Matches r (String c s1) /\ Matches (Star r) s2.
Proof.
  remember (Star r) as r' eqn:Hr. remember (String c s) as t eqn:Ht.
  intros HM. revert s Ht.
  induction HM as [| | | | | |r0 s1 s2 H1 _ H2 IH2]; intros u Ht; try discriminate.
  injection Hr as ->.
  destruct s1 as [|c1 s1].
  - rewrite str_app_nil_l in Ht. now apply IH2.
  - rewrite str_app_cons in Ht. injection Ht as -> <-. eauto.
Qed.

Lemma nullable_spec r : nullable r = true <-> Matches r "".
Proof.
  induction r as [| |p|r1 IH1 r2 IH2|r1 IH1 r2 IH2|r IH]; cbn.
  - split; [discriminate | inversion 1].
  - split; [constructor | reflexivity].
  - split; [discriminate | inversion 1].
  - rewrite andb_true_iff, IH1, IH2. split.
    + intros [H1 H2]. apply (MCat _ _ "" "" H1 H2).
    + intros (s1 & s2 & Hs & H1 & H2)%Matches_Cat_inv.
      symmetry in Hs. apply str_app_eq_nil in Hs as [-> ->]. auto.
  - rewrite orb_true_iff, IH1, IH2. split.
    + intros [H1|H2]; [now apply MAltL | now apply MAltR].
    + inversion 1; subst; auto.
  - split; [constructor | reflexivity].
Qed.

Lemma deriv_spec c r s : Matches (deriv c r) s <-> Matches r (String c s).
Proof.
  revert s.
  induction r as [| |p|r1 IH1 r2 IH2|r1 IH1 r2 IH2|r IH]; intros s; cbn.
  - split; inversion 1.
  - split; inversion 1.
  - destruct (p c) eqn:Hp; split.
    + inversion 1; subst. now constructor.
    + inversion 1; subst. constructor.
    + inversion 1.
    + inversion 1; subst. congruence.
  - assert (Hcat : Matches (Cat (deriv c r1) r2) s ->
                   Matches (Cat r1 r2) (String c s)).
    { intros (s1 & s2 & -> & H1 & H2)%Matches_Cat_inv.
      apply IH1 in H1. apply (MCat _ _ _ _ H1 H2). }
    assert (Hinv : Matches (Cat r1 r2) (String c s) ->
                   Matches (Cat (deriv c r1) r2) s \/
                   (Matches r1 "" /\ Matches (deriv c r2) s)).
    { intros (s1 & s2 & Hs & H1 & H2)%Matches_Cat_inv.
      destruct s1 as [|c1 s1].
      - rewrite str_app_nil_l in Hs. subst s2. right. split; [done|]. now apply IH2.
      - rewrite str_app_cons in Hs. injection Hs as -> ->. left.
        apply MCat; [now apply IH1 | done]. }
    destruct (nullable r1) eqn:Hn; split.
    + inversion 1; subst; [auto|].
      apply (MCat r1 r2 "" (String c s)); [now apply nullable_spec | now apply IH2].
    + intros [H1|[_ H2]]%Hinv; [now apply MAltL | now apply MAltR].
    + apply Hcat.
    + intros [H1|[H1 _]]%Hinv; [done|].
      apply nullable_spec in H1. congruence.
  - split.
    + inversion 1; subst; [apply MAltL | apply MAltR]; [now apply IH1 | now apply IH2].
    + inversion 1; subst; [apply MAltL | apply MAltR]; [now apply IH1 | now apply IH2].
  - split.
    + intros (s1 & s2 & -> & H1 & H2)%Matches_Cat_inv.
      apply IH in H1. apply (MStarS _ _ _ H1 H2).
    + intros (s1 & s2 & -> & H1 & H2)%Matches_Star_cons.
      apply MCat; [now apply IH | done].
Qed.

Lemma full_match_spec r s : full_match r s = true <-> Matches r s.
Proof.
  revert r. induction s as [|c s IH]; intros r; cbn.
  - apply nullable_spec.
  - rewrite IH. apply deriv_spec.
Qed.

Lemma Matches_Lit t s : Matches (Lit t) s <-> s = t.
Proof.
  revert s. induction t as [|c t IH]; intros s; cbn.
  - split; [now inversion 1 | intros ->; constructor].
  - split.
    + intros (s1 & s2 & -> & H1 & H2)%Matches_Cat_inv.
      inversion H1 as [|p c' Hc| | | | |]; subst.
      apply Ascii.eqb_eq in Hc as <-. apply IH in H2 as ->. reflexivity.
    + intros ->. apply (MCat _ _ (String c "") t).
      * constructor. apply Ascii.eqb_refl.
      * now apply IH.
Qed.

Lemma occurs_app c s t : occurs c (s +:+ t) = occurs c s || occurs c t.
Proof.
  induction s as [|a s IH]; [reflexivity|].
  rewrite str_app_cons. cbn. now rewrite IH, orb_assoc.
Qed.

(** The bytes of a matched text all belong to the classes of the pattern. *)
Lemma Matches_classes P r s :
  Matches r s -> classes_within P r -> forall c, occurs c s = true -> P c = true.
Proof.
  induction 1 as [|p c0 Hp|r1 r2 s1 s2 _ IH1 _ IH2|r1 r2 s _ IH|r1 r2 s _ IH
                 |r|r s1 s2 _ IH1 _ IH2]; cbn; intros Hcl c Hc.
  - discriminate.
  - rewrite orb_false_r in Hc. apply Ascii.eqb_eq in Hc as <-. auto.
  - destruct Hcl as [Hc1 Hc2].
    rewrite occurs_app in Hc. apply orb_true_iff in Hc as [Hc|Hc]; eauto.
  - destruct Hcl. eauto.
  - destruct Hcl. eauto.
  - discriminate.
  - rewrite occurs_app in Hc. apply orb_true_iff in Hc as [Hc|Hc]; eauto.
Qed.

End RegexpFacts.
(** ** Scrubbing and the fingerprint *)

Section Scrubbing.

Import Regexp.

Lemma lineWithArgs_inv s :
  Matches lineWithArgs s ->
  exists x, s = "(" +:+ x +:+ ")" /\ Matches argGroup x.
Proof.
  intros (s1 & s2 & -> & H1 & H2)%Matches_Cat_inv.
  apply Matches_Cat_inv in H2 as (x & s3 & -> & Hx & H3).
  apply Matches_Lit in H1 as ->. apply Matches_Lit in H3 as ->. eauto.
Qed.

Lemma lineWithArgs_intro x :
  Matches argGroup x -> Matches lineWithArgs ("(" +:+ x +:+ ")").
Proof.
  intros Hx. apply MCat; [now apply Matches_Lit|].
  apply MCat; [done | now apply Matches_Lit].
Qed.

Lemma hex_space_comma_not_paren c :
  hex_space_comma c = true -> negb (Ascii.eqb c "(") = true.
Proof. destruct c as [[] [] [] [] [] [] [] []]; vm_compute; congruence. Qed.

Lemma argGroup_no_paren x : Matches argGroup x -> occurs "(" x = false.
Proof.
  intros Hx. destruct (occurs "(" x) eqn:Ho; [|reflexivity].
  assert (Hcl : classes_within (fun c => negb (Ascii.eqb c "(")) argGroup).
  { unfold argGroup, Plus. cbn [classes_within Lit].
    repeat split; intros c Hc;
      try (apply Ascii.eqb_eq in Hc as <-; reflexivity);
      now apply hex_space_comma_not_paren. }
  pose proof (Matches_classes _ _ _ Hx Hcl _ Ho) as Hn. discriminate.
Qed.

(** No match starts before the last opening parenthesis. *)
Lemma lineWithArgs_not_before c pre rest :
  full_match lineWithArgs (String c pre +:+ "(" +:+ rest) = false.
Proof.
  destruct (full_match _ _) eqn:Hm; [|reflexivity].
  apply full_match_spec, lineWithArgs_inv in Hm as (x & Heq & Hx).
  apply argGroup_no_paren in Hx.
  change ("(" +:+ x +:+ ")") with (String "(" (x +:+ ")")) in Heq.
  rewrite str_app_cons in Heq. injection Heq as _ Heq.
  assert (Ho : occurs "(" (x +:+ ")") = true).
  { rewrite <- Heq, occurs_app. cbn. apply orb_true_r. }
  rewrite occurs_app, Hx in Ho. discriminate.
Qed.

Lemma find_to_end_here r s :
  full_match r s = true -> find_to_end r s = Some 0%nat.
Proof. intros Hm. destruct s; cbn [find_to_end]; now rewrite Hm. Qed.

Lemma find_to_end_args pre a :
  Matches argGroup a ->
  find_to_end lineWithArgs (pre +:+ "(" +:+ a +:+ ")") = Some (String.length pre).
Proof.
  intros Ha. induction pre as [|c pre IH].
  - rewrite str_app_nil_l. apply find_to_end_here.
    now apply full_match_spec, lineWithArgs_intro.
  - rewrite str_app_cons. cbn [find_to_end String.length].
    rewrite <- str_app_cons, lineWithArgs_not_before, IH. reflexivity.
Qed.

Lemma scrub_args pre a :
  full_match argGroup a = true ->
  scrub (pre +:+ "(" +:+ a +:+ ")") = pre +:+ "(...)" +:+ newline.
Proof.
  intros Ha%full_match_spec. unfold scrub, lineWithArgs_MatchString, lineWithArgs_Split.
  rewrite find_to_end_args by done.
  rewrite bool_decide_eq_true_2 by eauto.
  cbn [nth]. now rewrite str_take_app_length.
Qed.

Lemma same_but_args_scrub la lb : same_but_args la lb -> scrub la = scrub lb.
Proof.
  intros [->|(pre & a & b & -> & -> & Ha & Hb)]; [reflexivity|].
  now rewrite !scrub_args.
Qed.

End Scrubbing.
(** ** Records: [NewGoroutine], [AddLine] and [Freeze] *)

Section Records.

Lemma NewGoroutine_fresh metaline g :
  NewGoroutine metaline = Done (inr g) ->
  frozen g = false /\ bufScrubbed g = "" /\ fullHasher g = MD5.New
  /\ buf g = "" /\ scrubbedHash g = "" /\ duplicates g = [] /\ lines g = 1
  /\ header g = metaline.
Proof.
  unfold NewGoroutine, mbind, outcome_bind, obind.
  destruct (slice metaline _ _); [|discriminate].
  destruct (parse_duration _ _); [|discriminate].
  destruct (slice metaline 9 _); [|discriminate].
  destruct (Strconv.Atoi _); [discriminate|].
  intros [= <-]. cbn. auto 10.
Qed.

Lemma AddLine_unfrozen l g :
  frozen g = false ->
  frozen (fst (AddLine l g)) = false
  /\ bufScrubbed (fst (AddLine l g)) = bufScrubbed g +:+ scrub l
  /\ fullHasher (fst (AddLine l g)) = fullHasher g.
Proof.
  intros Hf. unfold AddLine. rewrite Hf.
  destruct (_ && _); cbn; auto.
Qed.

Lemma AddLines_unfrozen ls g :
  frozen g = false ->
  frozen (AddLines ls g) = false
  /\ bufScrubbed (AddLines ls g) = bufScrubbed g +:+ scrubbed_body ls
  /\ fullHasher (AddLines ls g) = fullHasher g.
Proof.
  revert g. induction ls as [|l ls IH]; intros g Hf; cbn.
  - now rewrite str_app_nil_r.
  - destruct (AddLine_unfrozen l g Hf) as (Hf' & Hb & Hh).
    destruct (IH _ Hf') as (IHf & IHb & IHh).
    change (fold_left _ ls ?x) with (AddLines ls x).
    rewrite IHf, IHb, IHh, Hb, Hh, str_app_assoc. auto.
Qed.

Lemma Forall2_scrub las lbs :
  Forall2 same_but_args las lbs -> scrubbed_body las = scrubbed_body lbs.
Proof.
  induction 1 as [|la lb las lbs Hab _ IH]; [reflexivity|].
  cbn [scrubbed_body fold_right]. fold (scrubbed_body las) (scrubbed_body lbs).
  now rewrite (same_but_args_scrub la lb Hab), IH.
Qed.

Lemma Freeze_unfrozen g :
  frozen g = false ->
  scrubbedHash (Freeze g)
  = Hex.EncodeToString (MD5.Sum (fullHasher g) (bufScrubbed g)).
Proof. intros Hf. unfold Freeze. now rewrite Hf. Qed.

End Records.

Lemma AddLines_scrubbedHash ls g :
  scrubbedHash (AddLines ls g) = scrubbedHash g.
Proof.
  revert g. induction ls as [|l ls IH]; intros g; [reflexivity|].
  cbn [AddLines fold_left]. change (fold_left _ ls ?x) with (AddLines ls x).
  rewrite IH. unfold AddLine. destruct (frozen g); [reflexivity|].
  destruct (_ && _); reflexivity.
Qed.

(** What the scrubbing makes of the two lines of a pair. *)
Lemma same_but_args_scrubbed la lb :
  same_but_args la lb ->
  la = lb
  \/ exists pre x y,
       la = pre +:+ "(" +:+ x +:+ ")" /\ lb = pre +:+ "(" +:+ y +:+ ")"
       /\ scrub la = pre +:+ "(...)" +:+ newline
       /\ scrub lb = pre +:+ "(...)" +:+ newline.
Proof.
  intros [->|(pre & a & b & -> & -> & Ha & Hb)]; [now left|].
  right. exists pre, a, b. now rewrite !scrub_args.
Qed.

(** C1. Two records whose body lines are the same but for the hexadecimal
    values inside a trailing parenthesised argument group of a line have the
    same fingerprint once finalized.  The two lines of a pair are equal, or
    each is written to the scrubbed body as the text before its argument
    group followed by [(...)] and a newline, the same text for both; a line
    the pattern does not match is written as it is.  The scrubbed body of a
    record is its scrubbed lines one after the other; as long as the record
    is not finalized it has no fingerprint, and [Freeze] sets the
    fingerprint to the hexadecimal text of the scrubbed body followed by the
    digest of the (empty) input of the hasher. *)
Theorem fingerprint_stability (ma mb : string) (ga gb : Goroutine)
    (las lbs : list string) :
  NewGoroutine ma = Done (inr ga) ->
  NewGoroutine mb = Done (inr gb) ->
  Forall2 same_but_args las lbs ->
  let a := AddLines las ga in
  let b := AddLines lbs gb in
  scrubbedHash (Freeze a) = scrubbedHash (Freeze b)
  /\ Forall2
       (fun la lb =>
          la = lb
          \/ exists pre x y,
               la = pre +:+ "(" +:+ x +:+ ")" /\ lb = pre +:+ "(" +:+ y +:+ ")"
               /\ scrub la = pre +:+ "(...)" +:+ newline
               /\ scrub lb = pre +:+ "(...)" +:+ newline)
       las lbs
  /\ (forall l, Regexp.lineWithArgs_MatchString l = false ->
                scrub l = l +:+ newline)
  /\ bufScrubbed a = scrubbed_body las
  /\ bufScrubbed b = scrubbed_body lbs
  /\ scrubbed_body las = scrubbed_body lbs
  /\ frozen a = false /\ scrubbedHash a = ""
  /\ frozen b = false /\ scrubbedHash b = ""
  /\ frozen (Freeze a) = true /\ frozen (Freeze b) = true
  /\ scrubbedHash (Freeze a)
     = Hex.EncodeToString (scrubbed_body las +:+ MD5.sum "")
  /\ scrubbedHash (Freeze b)
     = Hex.EncodeToString (scrubbed_body lbs +:+ MD5.sum "").
Proof.
  intros Hna Hnb Hls a b.
  destruct (NewGoroutine_fresh _ _ Hna) as (Hfa & Hba & Hha & _ & Hsa & _).
  destruct (NewGoroutine_fresh _ _ Hnb) as (Hfb & Hbb & Hhb & _ & Hsb & _).
  destruct (AddLines_unfrozen las ga Hfa) as (Hfa' & Hba' & Hha').
  destruct (AddLines_unfrozen lbs gb Hfb) as (Hfb' & Hbb' & Hhb').
  fold a in Hfa', Hba', Hha'. fold b in Hfb', Hbb', Hhb'.
  rewrite Hba, str_app_nil_l in Hba'. rewrite Hbb, str_app_nil_l in Hbb'.
  assert (Ha : scrubbedHash (Freeze a)
               = Hex.EncodeToString (scrubbed_body las +:+ MD5.sum "")).
  { rewrite (Freeze_unfrozen a Hfa'), Hha', Hha, Hba'. reflexivity. }
  assert (Hb : scrubbedHash (Freeze b)
               = Hex.EncodeToString (scrubbed_body lbs +:+ MD5.sum "")).
  { rewrite (Freeze_unfrozen b Hfb'), Hhb', Hhb, Hbb'. reflexivity. }
  pose proof (Forall2_scrub las lbs Hls) as Hbody.
  split; [now rewrite Ha, Hb, Hbody|].
  split.
  { clear -Hls. induction Hls as [|la lb las lbs Hab _ IH]; constructor; [|exact IH].
    now apply same_but_args_scrubbed. }
  split.
  { intros l Hl. unfold scrub. now rewrite Hl. }
  split; [exact Hba'|]. split; [exact Hbb'|]. split; [exact Hbody|].
  split; [exact Hfa'|].
  split; [unfold a; now rewrite AddLines_scrubbedHash|].
  split; [exact Hfb'|].
  split; [unfold b; now rewrite AddLines_scrubbedHash|].
  split; [unfold Freeze; now rewrite Hfa'|].
  split; [unfold Freeze; now rewrite Hfb'|].
  split; [exact Ha | exact Hb].
Qed.

Lemma fingerprint_stability_witness :
  let a := AddLines ["main.foo(0x1, 0x2)"; "main.main()"]
             (record_of "goroutine 1 [running]:") in
  let b := AddLines ["main.foo(0xabc, 0xdef)"; "main.main()"]
             (record_of "goroutine 2 [running]:") in
  scrubbedHash (Freeze a) = scrubbedHash (Freeze b)
  /\ bufScrubbed a = scrubbed_body ["main.foo(0x1, 0x2)"; "main.main()"]
  /\ scrubbedHash a = ""
  /\ scrubbedHash (Freeze a)
     = Hex.EncodeToString
         (scrubbed_body ["main.foo(0x1, 0x2)"; "main.main()"] +:+ MD5.sum "").
Proof.
  intros a b.
  destruct (fingerprint_stability "goroutine 1 [running]:" "goroutine 2 [running]:"
              (record_of "goroutine 1 [running]:")
              (record_of "goroutine 2 [running]:")
              ["main.foo(0x1, 0x2)"; "main.main()"]
              ["main.foo(0xabc, 0xdef)"; "main.main()"])
    as (Heq & _ & _ & Hbuf & _ & _ & _ & Hno & _ & _ & _ & _ & Hhash & _).
  - vm_compute. reflexivity.
  - vm_compute. reflexivity.
  - constructor.
    + right. exists "main.foo", "0x1, 0x2", "0xabc, 0xdef".
      repeat split; vm_compute; reflexivity.
    + constructor; [left; reflexivity | constructor].
  - split; [exact Heq|]. split; [exact Hbuf|]. split; [exact Hno | exact Hhash].
Defined.

(** C8. On a finalized record [AddLine] changes no field and prints
    nothing, and [Freeze] changes nothing; on a record not yet finalized
    [Freeze] sets the flag and stores the fingerprint, and nothing else. *)
Theorem finalized_record_is_fixed (g : Goroutine) (l : string) :
  (frozen g = true -> AddLine l g = (g, []) /\ Freeze g = g)
  /\ (frozen g = false ->
      Freeze g
      = {| id := id g; header := header g; lines := lines g;
           duration := duration g; metas := metas g;
           scrubbedHash :=
             Hex.EncodeToString (MD5.Sum (fullHasher g) (bufScrubbed g));
           fullHasher := fullHasher g; bufScrubbed := bufScrubbed g;
           duplicates := duplicates g; frozen := true; buf := buf g |})
  /\ frozen (Freeze g) = true
  /\ Freeze (Freeze g) = Freeze g
  /\ AddLine l (Freeze g) = (Freeze g, []).
Proof.
  unfold AddLine, Freeze.
  destruct (frozen g) eqn:Hf; cbn; rewrite ?Hf; repeat split; congruence.
Qed.

Lemma finalized_record_is_fixed_witness :
  let g := finalized_record "goroutine 1 [running]:" ["main.foo(0x1)"] in
  let g0 := record_of "goroutine 1 [running]:" in
  (AddLine "main.bar()" g = (g, []) /\ Freeze g = g)
  /\ scrubbedHash (Freeze g0) = "d41d8cd98f00b204e9800998ecf8427e"
  /\ frozen (Freeze g0) = true.
Proof.
  intros g g0. split; [|split].
  - apply (finalized_record_is_fixed g "main.bar()"). vm_compute. reflexivity.
  - rewrite (proj1 (proj2 (finalized_record_is_fixed g0 "main.bar()"))).
    + vm_compute. reflexivity.
    + vm_compute. reflexivity.
  - apply (finalized_record_is_fixed g0 "main.bar()").
Defined.
(** ** The fingerprint is the scrubbed body itself *)

Section Fingerprint.

Lemma EncodeToString_length s :
  String.length (Hex.EncodeToString s) = (2 * String.length s)%nat.
Proof. induction s as [|c s IH]; cbn [Hex.EncodeToString String.length]; lia. Qed.

Lemma hex_digits_inj (c d : ascii) :
  Hex.digit (nat_of_ascii c / 16) = Hex.digit (nat_of_ascii d / 16) ->
  Hex.digit (nat_of_ascii c mod 16) = Hex.digit (nat_of_ascii d mod 16) ->
  c = d.
Proof.
  assert (Hinj : forall m n, (m < 16)%nat -> (n < 16)%nat ->
                             Hex.digit m = Hex.digit n -> m = n).
  { intros m n Hm Hn.
    do 16 (destruct m as [|m]; [do 16 (destruct n as [|n];
             [vm_compute; congruence|]); lia|]). lia. }
  intros Hhi Hlo.
  pose proof (nat_ascii_bounded c) as Hc. pose proof (nat_ascii_bounded d) as Hd.
  apply Hinj in Hhi; [|apply Nat.Div0.div_lt_upper_bound; lia..].
  apply Hinj in Hlo; [|apply Nat.mod_upper_bound; lia..].
  rewrite <- (ascii_nat_embedding c), <- (ascii_nat_embedding d).
  f_equal.
  rewrite (Nat.div_mod_eq (nat_of_ascii c) 16), (Nat.div_mod_eq (nat_of_ascii d) 16).
  congruence.
Qed.

Lemma EncodeToString_inj s t :
  Hex.EncodeToString s = Hex.EncodeToString t -> s = t.
Proof.
  revert t. induction s as [|c s IH]; intros [|d t]; cbn; try congruence.
  intros [= Hhi Hlo Hrest]. f_equal; [now apply hex_digits_inj | now apply IH].
Qed.

(** No operation of the program writes to [fullHasher], and a finalized
    record has the fingerprint [Freeze] gave it. *)
Lemma built_invariant g :
  built g ->
  fullHasher g = MD5.New
  /\ (frozen g = true ->
      scrubbedHash g = Hex.EncodeToString (MD5.Sum MD5.New (bufScrubbed g))).
Proof.
  induction 1 as [m g Hnew|l g _ [IHh IHf]|g _ [IHh IHf]|ids g _ [IHh IHf]].
  - apply NewGoroutine_fresh in Hnew as (Hf & _ & Hh & _).
    split; [done | congruence].
  - unfold AddLine. destruct (frozen g) eqn:Hf; [auto|].
    destruct (_ && _); cbn; split; auto; congruence.
  - unfold Freeze. destruct (frozen g) eqn:Hf; [auto|].
    cbn. split; [done | now rewrite IHh].
  - cbn. auto.
Qed.

End Fingerprint.

(** C9. The fingerprint of a finalized record is the hexadecimal text of its
    scrubbed body followed by the MD5 digest of the empty input: two
    finalized records have the same fingerprint exactly when their scrubbed
    bodies are equal, and the fingerprint has two digits for each byte of the
    body and 32 more. *)
Theorem fingerprint_is_scrubbed_body (ga gb : Goroutine) :
  built ga -> built gb -> frozen ga = true -> frozen gb = true ->
  scrubbedHash ga = Hex.EncodeToString (bufScrubbed ga +:+ MD5.sum "")
  /\ String.length (scrubbedHash ga) = (2 * String.length (bufScrubbed ga) + 32)%nat
  /\ (scrubbedHash ga = scrubbedHash gb <-> bufScrubbed ga = bufScrubbed gb).
Proof.
  intros [_ Ha]%built_invariant [_ Hb]%built_invariant Hfa Hfb.
  specialize (Ha Hfa). specialize (Hb Hfb).
  unfold MD5.Sum in Ha, Hb. change (MD5.written MD5.New) with "" in Ha, Hb.
  split; [done|]. split.
  - rewrite Ha, EncodeToString_length, str_length_app.
    assert (Hlen : String.length (MD5.sum "") = 16%nat) by (vm_compute; reflexivity).
    rewrite Hlen. lia.
  - rewrite Ha, Hb. split.
    + intros Heq%EncodeToString_inj. now apply str_app_inv_tail in Heq.
    + now intros ->.
Qed.

Lemma fingerprint_is_scrubbed_body_witness :
  let ga := finalized_record "goroutine 1 [running]:" ["main.foo(0x1)"] in
  let gb := finalized_record "goroutine 2 [sleep]:" ["main.foo(0x2)"] in
  scrubbedHash ga = Hex.EncodeToString (bufScrubbed ga +:+ MD5.sum "")
  /\ String.length (scrubbedHash ga) = (2 * String.length (bufScrubbed ga) + 32)%nat
  /\ (scrubbedHash ga = scrubbedHash gb <-> bufScrubbed ga = bufScrubbed gb).
Proof.
  intros ga gb.
  apply (fingerprint_is_scrubbed_body ga gb).
  - apply built_Freeze.
    apply (built_AddLine "main.foo(0x1)" (record_of "goroutine 1 [running]:")).
    apply (built_new "goroutine 1 [running]:"). vm_compute. reflexivity.
  - apply built_Freeze.
    apply (built_AddLine "main.foo(0x2)" (record_of "goroutine 2 [sleep]:")).
    apply (built_new "goroutine 2 [sleep]:"). vm_compute. reflexivity.
  - vm_compute. reflexivity.
  - vm_compute. reflexivity.
Defined.
(** ** [NewGoroutine]: when it panics and when it fails *)

Section Constructor.

Lemma Index_from_bound i s sub :
  0 <= i -> Strings.Index_from i s sub = -1 \/ i <= Strings.Index_from i s sub.
Proof.
  revert i. induction s as [|c s IH]; intros i Hi; cbn [Strings.Index_from].
  - destruct (Strings.HasPrefix _ _); lia.
  - destruct (Strings.HasPrefix _ _); [lia|].
    destruct (IH (i + 1)) as [->| ]; lia.
Qed.

Lemma Index_lower s sub : -1 <= Strings.Index s sub.
Proof. destruct (Index_from_bound 0 s sub); unfold Strings.Index; lia. Qed.

Lemma durationPattern_length value :
  Regexp.durationPattern_MatchString value = true -> 8 <= Strings.len value.
Proof.
  intros Hm%full_match_spec.
  apply Matches_Cat_inv in Hm as (s1 & s2 & -> & _ & ->%Matches_Lit).
  unfold Strings.len. rewrite str_length_app. cbn. lia.
Qed.

Lemma parse_duration_done parts metas0 :
  exists md, parse_duration parts metas0 = Done md.
Proof.
  unfold parse_duration. destruct (Nat.ltb _ _); [|eauto].
  destruct (Regexp.durationPattern_MatchString _) eqn:Hm; [|eauto].
  apply durationPattern_length in Hm.
  unfold slice.
  assert (Hb : Z.leb 0 0 && Z.leb 0 (Strings.len (Strings.TrimSpace (nth 1 parts "")) - 8)
               && Z.leb (Strings.len (Strings.TrimSpace (nth 1 parts "")) - 8)
                    (Strings.len (Strings.TrimSpace (nth 1 parts ""))) = true).
  { rewrite !andb_true_iff, !Z.leb_le. lia. }
  rewrite Hb. cbn. destruct (Strconv.Atoi _); eauto.
Qed.

End Constructor.

(** C7, amended.  [NewGoroutine] returns when the first ["["] of the line is
    at offset 9 or later and has at least two bytes after it: then it returns
    an error exactly when [strconv.Atoi] rejects the trimmed text between
    offset 9 and the ["["], and a record with that identity otherwise.  On
    every other line it panics on a slice expression. *)
Theorem NewGoroutine_outcome (metaline : string) :
  let idx := Strings.Index metaline "[" in
  if Z.leb 9 idx && Z.leb (idx + 3) (Strings.len metaline) then
    match Strconv.Atoi
            (Strings.TrimSpace
               (Strings.take (Z.to_nat (idx - 9)) (Strings.drop 9 metaline))) with
    | inl err => NewGoroutine metaline = Done (inl err)
    | inr n => exists g, NewGoroutine metaline = Done (inr g) /\ id g = n
    end
  else NewGoroutine metaline = Panics SliceBoundsOutOfRange.
Proof.
  intros idx. pose proof (Index_lower metaline "[") as Hidx. fold idx in Hidx.
  unfold NewGoroutine. fold idx.
  unfold mbind, outcome_bind, obind.
  destruct (slice metaline (idx + 1) _) as [inner|p] eqn:Hs1;
    unfold slice in Hs1;
    destruct (Z.leb 0 (idx + 1) && Z.leb (idx + 1) (Strings.len metaline - 2)
              && Z.leb (Strings.len metaline - 2) (Strings.len metaline)) eqn:Hb1;
    try discriminate.
  - apply andb_true_iff in Hb1 as [[_ Hlo%Z.leb_le]%andb_true_iff _].
    match goal with
    | |- context [parse_duration ?a ?b] =>
        destruct (parse_duration_done a b) as [md ->]
    end.
    unfold slice.
    destruct (Z.leb 9 idx) eqn:H9.
    + apply Z.leb_le in H9.
      assert (H3 : Z.leb (idx + 3) (Strings.len metaline) = true)
        by (apply Z.leb_le; lia).
      assert (Hi : Z.leb idx (Strings.len metaline) = true)
        by (apply Z.leb_le; lia).
      rewrite H3, Hi. cbn [andb Z.leb Z.compare].
      change (Z.to_nat 9) with 9%nat.
      destruct (Strconv.Atoi _); [reflexivity|]. eexists. split; reflexivity.
    + rewrite andb_false_r. reflexivity.
  - injection Hs1 as <-.
    assert (Hc : Z.leb 9 idx && Z.leb (idx + 3) (Strings.len metaline) = false).
    { apply andb_false_iff. right. apply Z.leb_gt.
      apply andb_false_iff in Hb1 as [Hb1|Hb1]; [|apply Z.leb_gt in Hb1; lia].
      apply andb_false_iff in Hb1 as [Hb1|Hb1]; apply Z.leb_gt in Hb1; lia. }
    now rewrite Hc.
Qed.

(** C7 as stated fails: the empty line makes [NewGoroutine] panic. *)
Lemma NewGoroutine_empty_line_panics :
  NewGoroutine "" = Panics SliceBoundsOutOfRange
  /\ ~ (exists r, NewGoroutine "" = Done r).
Proof.
  split; [vm_compute; reflexivity|].
  intros [r Hr]. vm_compute in Hr. discriminate.
Qed.
(** ** [withCondition] and the filters *)

Section FilterFacts.

Context `{CaseMapping} `{Evaluable E}.

Implicit Types (w : World) (e : E) (gs acc : list ptr) (sel : bool -> bool).

Lemma loop_step_decided sel w e i g gs acc b :
  eval_at w e g = Done (inr (VBool b)) ->
  withCondition_loop e (selecting sel) i (g :: gs) acc tt w
  = withCondition_loop e (selecting sel) (S i) gs
      (if sel b then acc ++ [g] else acc) tt w.
Proof.
  unfold eval_at. intros He. cbn [withCondition_loop].
  unfold mbind, M_bind, Mbind, deref, lift.
  destruct (heap w !! g) as [r|]; [|discriminate].
  rewrite He. unfold selecting, mret, M_ret, Mret. cbn.
  now destruct (sel b).
Qed.

Lemma loop_decided sel w e i gs acc :
  Forall (decides w e) gs ->
  withCondition_loop e (selecting sel) i gs acc tt w
  = Done ((inr (acc ++ List.filter (fun g => sel (passes w e g)) gs), tt), w).
Proof.
  intros Hall. revert i acc.
  induction Hall as [|g gs [b Hb] _ IH]; intros i acc.
  - cbn. now rewrite app_nil_r.
  - rewrite (loop_step_decided _ _ _ _ _ _ _ _ Hb), IH.
    cbn [List.filter]. unfold passes at 2. rewrite Hb.
    assert (Hsel : sel (if b then true else false) = sel b) by now destruct b.
    destruct b; cbn in Hsel |- *; destruct (sel _); cbn;
      now rewrite <- ?app_assoc.
Qed.

Lemma loop_prefix sel w e i pre rest acc :
  Forall (decides w e) pre ->
  withCondition_loop e (selecting sel) i (pre ++ rest) acc tt w
  = withCondition_loop e (selecting sel) (i + length pre) rest
      (acc ++ List.filter (fun g => sel (passes w e g)) pre) tt w.
Proof.
  intros Hall. revert i acc.
  induction Hall as [|g gs [b Hb] _ IH]; intros i acc.
  - cbn. now rewrite app_nil_r, Nat.add_0_r.
  - cbn [app]. rewrite (loop_step_decided _ _ _ _ _ _ _ _ Hb), IH.
    cbn [List.filter length]. unfold passes at 2. rewrite Hb.
    replace (S i + length gs)%nat with (i + S (length gs))%nat by lia.
    destruct b; cbn; destruct (sel _); cbn; now rewrite <- ?app_assoc.
Qed.

Lemma loop_head_error {St : Type}
    (cb : nat -> ptr -> bool -> St -> M (option ptr * St)) w e i g gs acc st err :
  eval_at w e g = Done (inl err) ->
  withCondition_loop e cb i (g :: gs) acc st w = Done ((inl err, st), w).
Proof.
  unfold eval_at. intros He. cbn [withCondition_loop].
  unfold mbind, M_bind, Mbind, deref, lift.
  destruct (heap w !! g) as [r|]; [|discriminate]. now rewrite He.
Qed.

Lemma loop_head_not_bool {St : Type}
    (cb : nat -> ptr -> bool -> St -> M (option ptr * St)) w e i g gs acc st v :
  eval_at w e g = Done (inr v) -> (forall b, v <> VBool b) ->
  withCondition_loop e cb i (g :: gs) acc st w
  = Done ((inl (ErrorString "argument expression should return a boolean"), st), w).
Proof.
  unfold eval_at. intros He Hv. cbn [withCondition_loop].
  unfold mbind, M_bind, Mbind, deref, lift.
  destruct (heap w !! g) as [r|]; [|discriminate]. rewrite He.
  destruct v; try reflexivity. now destruct (Hv b).
Qed.


(** The filters on a collection whose records the condition decides. *)
Lemma withCondition_decided sel w cond e gd :
  NewEvaluableExpressionWithFunctions (Strings.Trim cond double_quote) functions
  = inr e ->
  Forall (decides w e) (goroutines gd) ->
  let kept := List.filter (fun g => sel (passes w e g)) (goroutines gd) in
  withCondition cond (selecting sel) tt gd w
  = Done ((inr kept, tt),
          printed w [OutPrintf "Deleted %d goroutines, kept %d.\n"
                       [AInt (Z.of_nat (length (goroutines gd)) - Z.of_nat (length kept));
                        AInt (Z.of_nat (length kept))]]).
Proof.
  intros Hc Hall kept. unfold withCondition. rewrite Hc.
  unfold mbind, M_bind, Mbind. rewrite (loop_decided sel w e 0 _ [] Hall).
  reflexivity.
Qed.

(** The filters on a collection with a record the condition fails on. *)
Lemma withCondition_failed sel w cond gd err :
  NewEvaluableExpressionWithFunctions (Strings.Trim cond double_quote) functions
  = inl err
  \/ (exists e pre g post,
        NewEvaluableExpressionWithFunctions (Strings.Trim cond double_quote) functions
        = inr e
        /\ goroutines gd = pre ++ g :: post
        /\ Forall (decides w e) pre
        /\ (eval_at w e g = Done (inl err)
            \/ exists v, eval_at w e g = Done (inr v) /\ (forall b, v <> VBool b)
                 /\ err = ErrorString "argument expression should return a boolean")) ->
  withCondition cond (selecting sel) tt gd w = Done ((inl err, tt), w).
Proof.
  unfold withCondition.
  intros [->|(e & pre & g & post & -> & -> & Hpre & Hg)]; [reflexivity|].
  unfold mbind, M_bind, Mbind. rewrite (loop_prefix sel w e 0 pre _ [] Hpre).
  destruct Hg as [Hg|(v & Hg & Hv & ->)].
  - now rewrite (loop_head_error _ _ _ _ _ _ _ _ _ Hg).
  - now rewrite (loop_head_not_bool _ _ _ _ _ _ _ _ _ Hg Hv).
Qed.

End FilterFacts.
Section FilterClaims.

Context `{CaseMapping} `{Evaluable E}.

Lemma Delete_unfold cond gd :
  Delete cond gd
  = (r ← withCondition cond (selecting negb) tt gd;
     match fst r with
     | inl err => mret (Some err, gd)
     | inr kept => mret (None, {| goroutines := kept |})
     end).
Proof. reflexivity. Qed.

Lemma Keep_unfold cond gd :
  Keep cond gd
  = (r ← withCondition cond (selecting (fun b => b)) tt gd;
     match fst r with
     | inl err => mret (Some err, gd)
     | inr kept => mret (None, {| goroutines := kept |})
     end).
Proof. reflexivity. Qed.

Lemma contains_arity args :
  length args <> 2%nat ->
  contains args
  = Done (inl (ErrorString "contains() accepts exactly two arguments")).
Proof.
  intros Hlen. unfold contains.
  destruct (Nat.eqb (length args) 2) eqn:Heq; [|reflexivity].
  apply Nat.eqb_eq in Heq. contradiction.
Qed.

(** C3. When the condition does not compile, or its evaluation on a record
    returns an error (or a value that is not a boolean) after it gave a
    boolean on every record before, [Delete] and [Keep] return that error
    and leave the collection and the heap as they were.  [contains] with a
    number of arguments other than two returns such an error. *)
Theorem filter_error_leaves_collection (cond : string) (gd : GoroutineDump)
    (w : World) (err : error) :
  NewEvaluableExpressionWithFunctions (Strings.Trim cond double_quote) functions
  = inl err
  \/ (exists e pre g post,
        NewEvaluableExpressionWithFunctions (Strings.Trim cond double_quote) functions
        = inr e
        /\ goroutines gd = pre ++ g :: post
        /\ Forall (decides w e) pre
        /\ (eval_at w e g = Done (inl err)
            \/ exists v, eval_at w e g = Done (inr v) /\ (forall b, v <> VBool b)
                 /\ err = ErrorString "argument expression should return a boolean")) ->
  Delete cond gd w = Done ((Some err, gd), w)
  /\ Keep cond gd w = Done ((Some err, gd), w)
  /\ (forall args, length args <> 2%nat ->
        contains args
        = Done (inl (ErrorString "contains() accepts exactly two arguments"))).
Proof.
  intros Hfail. split; [|split].
  - rewrite Delete_unfold. unfold mbind, M_bind, Mbind.
    now rewrite (withCondition_failed negb w cond gd err Hfail).
  - rewrite Keep_unfold. unfold mbind, M_bind, Mbind.
    now rewrite (withCondition_failed (fun b => b) w cond gd err Hfail).
  - apply contains_arity.
Qed.

End FilterClaims.

Lemma filter_error_leaves_collection_witness :
  let err := ErrorString "contains() accepts exactly two arguments" in
  @Delete Mini.ascii_case _ Mini.evaluable "contains(trace)" example_dump example_world
  = Done ((Some err, example_dump), example_world)
  /\ @Keep Mini.ascii_case _ Mini.evaluable "contains(trace)" example_dump example_world
     = Done ((Some err, example_dump), example_world).
Proof.
  intros err.
  destruct (@filter_error_leaves_collection Mini.ascii_case _ Mini.evaluable
              "contains(trace)" example_dump example_world err) as (HD & HK & _);
    [|split; assumption].
  right.
  exists (Mini.ECall "contains" contains [Mini.EVar "trace"]),
    [], 1%positive, [2%positive; 3%positive].
  split; [vm_compute; reflexivity|].
  split; [reflexivity|].
  split; [constructor|].
  left. vm_compute. reflexivity.
Defined.
(** ** [Keep] and [Delete] split the collection *)

Section Partition.

Lemma filter_split {A : Type} (f : A -> bool) (l : list A) :
  List.filter f l ++ List.filter (fun x => negb (f x)) l ≡ₚ l.
Proof.
  induction l as [|x l IH]; [reflexivity|].
  cbn [List.filter]. destruct (f x); cbn [negb app].
  - now rewrite IH.
  - rewrite <- Permutation_middle. now rewrite IH.
Qed.

Lemma filter_filter_negb {A : Type} (f : A -> bool) (l : list A) :
  List.filter (fun x => negb (f x)) (List.filter f l) = [].
Proof.
  induction l as [|x l IH]; [reflexivity|].
  cbn [List.filter]. destruct (f x) eqn:Hf; [|exact IH].
  cbn [List.filter]. now rewrite Hf.
Qed.

Lemma ids_of_app w gs1 gs2 : ids_of w (gs1 ++ gs2) = ids_of w gs1 ++ ids_of w gs2.
Proof. unfold ids_of. apply omap_app. Qed.

Lemma ids_of_Permutation w gs1 gs2 :
  gs1 ≡ₚ gs2 -> ids_of w gs1 ≡ₚ ids_of w gs2.
Proof. unfold ids_of. now intros ->. Qed.

Lemma ids_of_printed w out gs : ids_of (printed w out) gs = ids_of w gs.
Proof. reflexivity. Qed.

End Partition.

Section PartitionClaim.

Context `{CaseMapping} `{Evaluable E}.

(** C6, amended.  For a condition that compiles and gives a boolean on
    every record of the collection: [Keep] leaves the records it is true
    of, [Delete] the others, both in the order of the collection and with
    the heap untouched; the identities of the two results together are those
    of the collection, each as often as there; when no two records of the
    collection share an identity, no identity is in both results; and
    [Delete] after [Keep] leaves the empty collection. *)
Theorem Keep_Delete_partition (cond : string) (e : E) (gd : GoroutineDump)
    (w : World) :
  NewEvaluableExpressionWithFunctions (Strings.Trim cond double_quote) functions
  = inr e ->
  Forall (decides w e) (goroutines gd) ->
  let kept := List.filter (passes w e) (goroutines gd) in
  let deleted := List.filter (fun g => negb (passes w e g)) (goroutines gd) in
  exists wk wd wkd,
    Copy "" gd w = Done (Some gd, w)
    /\ Keep cond gd w = Done ((None, {| goroutines := kept |}), wk)
    /\ Delete cond gd w = Done ((None, {| goroutines := deleted |}), wd)
    /\ heap wk = heap w /\ heap wd = heap w
    /\ ids_of w kept ++ ids_of w deleted ≡ₚ ids_of w (goroutines gd)
    /\ (NoDup (ids_of w (goroutines gd)) ->
        forall i, i ∈ ids_of w kept -> i ∉ ids_of w deleted)
    /\ Delete cond {| goroutines := kept |} wk
       = Done ((None, {| goroutines := [] |}), wkd).
Proof.
  intros Hc Hall kept deleted.
  pose proof (withCondition_decided (fun b => b) w cond e gd Hc Hall) as HK.
  pose proof (withCondition_decided negb w cond e gd Hc Hall) as HD.
  cbn zeta in HK, HD.
  set (wk := printed w _) in HK. set (wd := printed w _) in HD.
  assert (Hallk : Forall (decides wk e) (goroutines {| goroutines := kept |})).
  { cbn. apply Forall_forall. intros g Hg%list_elem_of_In.
    apply filter_In in Hg as [Hg%list_elem_of_In _].
    rewrite Forall_forall in Hall. apply (Hall g Hg). }
  pose proof (withCondition_decided negb wk cond e _ Hc Hallk) as HKD.
  cbn zeta in HKD. set (wkd := printed wk _) in HKD.
  exists wk, wd, wkd.
  assert (Hperm : ids_of w kept ++ ids_of w deleted ≡ₚ ids_of w (goroutines gd)).
  { rewrite <- ids_of_app. apply ids_of_Permutation, filter_split. }
  repeat split.
  - now destruct gd.
  - rewrite Keep_unfold. unfold mbind, M_bind, Mbind. rewrite HK. reflexivity.
  - rewrite Delete_unfold. unfold mbind, M_bind, Mbind. rewrite HD. reflexivity.
  - exact Hperm.
  - intros Hnd i Hk Hd. rewrite <- Hperm in Hnd.
    apply NoDup_app in Hnd as (_ & Hdisj & _). exact (Hdisj i Hk Hd).
  - rewrite Delete_unfold. unfold mbind, M_bind, Mbind. rewrite HKD.
    cbn [fst goroutines].
    change (fun g => negb (passes wk e g)) with (fun g => negb (passes w e g)).
    unfold kept. now rewrite filter_filter_negb.
Qed.

End PartitionClaim.

Lemma Keep_Delete_partition_witness :
  let e := Mini.ECall "contains" contains [Mini.EVar "trace"; Mini.EString "Mutex"] in
  let w := example_world in
  let gd := {| goroutines := [1%positive; 3%positive] |} in
  let kept := List.filter (@passes _ Mini.evaluable w e) (goroutines gd) in
  let deleted :=
    List.filter (fun g => negb (@passes _ Mini.evaluable w e g)) (goroutines gd) in
  exists wk wd wkd,
    @Copy Mini.ascii_case _ Mini.evaluable "" gd w = Done (Some gd, w)
    /\ @Keep Mini.ascii_case _ Mini.evaluable "contains(trace, 'Mutex')" gd w
       = Done ((None, {| goroutines := kept |}), wk)
    /\ @Delete Mini.ascii_case _ Mini.evaluable "contains(trace, 'Mutex')" gd w
       = Done ((None, {| goroutines := deleted |}), wd)
    /\ heap wk = heap w /\ heap wd = heap w
    /\ ids_of w kept ++ ids_of w deleted ≡ₚ ids_of w (goroutines gd)
    /\ (NoDup (ids_of w (goroutines gd)) ->
        forall i, i ∈ ids_of w kept -> i ∉ ids_of w deleted)
    /\ @Delete Mini.ascii_case _ Mini.evaluable "contains(trace, 'Mutex')"
         {| goroutines := kept |} wk
       = Done ((None, {| goroutines := [] |}), wkd).
Proof.
  intros e w gd.
  apply (@Keep_Delete_partition Mini.ascii_case _ Mini.evaluable
           "contains(trace, 'Mutex')" e gd w).
  - vm_compute. reflexivity.
  - repeat constructor.
    + exists true. vm_compute. reflexivity.
    + exists false. vm_compute. reflexivity.
Defined.

(** C6 as stated fails: two records of a collection can have the same
    identity and differ on the condition, and then that identity is in the
    result of [Keep] and in the result of [Delete]. *)
Lemma Keep_Delete_share_identity :
  let e := Mini.ECall "contains" contains [Mini.EVar "trace"; Mini.EString "Mutex"] in
  let cond := "contains(trace, 'Mutex')" in
  let w := example_world in
  let out := [OutPrintf "Deleted %d goroutines, kept %d.\n" [AInt 2; AInt 1]] in
  let out' := [OutPrintf "Deleted %d goroutines, kept %d.\n" [AInt 1; AInt 2]] in
  Mini.compile (Strings.Trim cond double_quote) (@functions Mini.ascii_case) = inr e
  /\ Forall (@decides _ Mini.evaluable w e) (goroutines example_dump)
  /\ @Keep Mini.ascii_case _ Mini.evaluable cond example_dump w
     = Done ((None, {| goroutines := [1%positive] |}), printed w out)
  /\ @Delete Mini.ascii_case _ Mini.evaluable cond example_dump w
     = Done ((None, {| goroutines := [2%positive; 3%positive] |}), printed w out')
  /\ ids_of w [1%positive] = [7]
  /\ ids_of w [2%positive; 3%positive] = [7; 9]
  /\ ~ (forall i, i ∈ ids_of w [1%positive] -> i ∉ ids_of w [2%positive; 3%positive]).
Proof.
  intros e cond w out out'.
  split; [vm_compute; reflexivity|].
  split.
  { repeat constructor.
    - exists true. vm_compute. reflexivity.
    - exists false. vm_compute. reflexivity.
    - exists false. vm_compute. reflexivity. }
  split; [vm_compute; reflexivity|].
  split; [vm_compute; reflexivity|].
  split; [vm_compute; reflexivity|].
  split; [vm_compute; reflexivity|].
  intros Hdisj. apply (Hdisj 7).
  - change (ids_of w [1%positive]) with [7]. apply list_elem_of_here.
  - change (ids_of w [2%positive; 3%positive]) with [7; 9]. apply list_elem_of_here.
Qed.
(** ** A function applied to a value that is not a string *)

Section FunctionPanics.

Context `{CaseMapping}.

Lemma functions_lookup name f :
  functions !! name = Some f ->
  (name = "contains" /\ f = contains)
  \/ (name = "lower" /\ f = lower)
  \/ (name = "upper" /\ f = upper).
Proof.
  unfold functions. rewrite !lookup_insert.
  repeat case_decide; subst; rewrite ?lookup_empty; intros [= <-]; auto.
Qed.

Lemma assert_string_panics v :
  (forall s, v <> VString s) -> assert_string v = Panics InterfaceConversion.
Proof. destruct v; try reflexivity. intros Hv. now destruct (Hv s). Qed.

Lemma assert_string_cases v :
  (exists s, v = VString s /\ assert_string v = Done s)
  \/ ((forall s, v <> VString s) /\ assert_string v = Panics InterfaceConversion).
Proof. destruct v; try (right; split; [congruence | reflexivity]). left. eauto. Qed.

Lemma contains_non_string vals :
  length vals = 2%nat -> Exists (fun v => forall s, v <> VString s) vals ->
  contains vals = Panics InterfaceConversion.
Proof.
  destruct vals as [|v0 [|v1 [|? ?]]]; try discriminate. intros _ Hex.
  unfold contains. cbn [length Nat.eqb negb nth].
  unfold mbind, outcome_bind, obind.
  destruct (assert_string_cases v0) as [(s0 & -> & ->)|[_ ->]]; [|reflexivity].
  destruct (assert_string_cases v1) as [(s1 & -> & ->)|[_ ->]]; [|reflexivity].
  apply Exists_cons in Hex as [Hex|Hex]; [now destruct (Hex s0)|].
  apply Exists_cons in Hex as [Hex|Hex]; [now destruct (Hex s1)|].
  now apply Exists_nil in Hex.
Qed.

Lemma lower_upper_non_string vals :
  length vals = 1%nat -> Exists (fun v => forall s, v <> VString s) vals ->
  lower vals = Panics InterfaceConversion /\ upper vals = Panics InterfaceConversion.
Proof.
  destruct vals as [|v0 [|? ?]]; try discriminate. intros _ Hex.
  apply Exists_cons in Hex as [Hex|Hex]; [|now apply Exists_nil in Hex].
  unfold lower, upper. cbn [length Nat.eqb negb nth].
  unfold mbind, outcome_bind, obind.
  now rewrite (assert_string_panics v0 Hex).
Qed.

End FunctionPanics.

Section FunctionPanicsClaim.

Context `{CaseMapping} `{Evaluable E}.

Lemma Search_unfold cond offset limit gd :
  Search cond offset limit gd
  = (_ ← emit [OutSgrPrintf "[fg-green]Search with offset %d and limit %d.[reset]\n\n"
                 [AInt offset; AInt limit]];
     r ← withCondition cond (searching offset limit) 0 gd;
     match fst r with
     | inl err => emit [OutPrintln [AError err]]
     | inr _ => mret tt
     end).
Proof. reflexivity. Qed.




End FunctionPanicsClaim.

(** ** [Dedupe] *)

Section DedupeFacts.

Implicit Types (w : World) (gs : list ptr) (m : gmap string (list Z)).

Lemma hash_at_with_duplicates g ids w q :
  hash_at (with_duplicates g ids w) q = hash_at w q.
Proof.
  unfold hash_at, with_duplicates. cbn [heap]. rewrite lookup_alter.
  case_decide; [subst|reflexivity]. now destruct (heap w !! q).
Qed.

Lemma id_with_duplicates g ids w q :
  id <$> heap (with_duplicates g ids w) !! q = id <$> heap w !! q.
Proof.
  unfold with_duplicates. cbn [heap]. rewrite lookup_alter.
  case_decide; [subst|reflexivity]. now destruct (heap w !! q).
Qed.

Lemma first_with_ext w w' h gs :
  (forall q, hash_at w' q = hash_at w q) ->
  first_with w' h gs = first_with w h gs.
Proof.
  intros Hext. induction gs as [|g gs IH]; [reflexivity|].
  cbn [first_with]. now rewrite Hext, IH.
Qed.

Lemma omap_first_with_ext w w' gs (order : list string) :
  (forall q, hash_at w' q = hash_at w q) ->
  omap (fun h => first_with w' h gs) order = omap (fun h => first_with w h gs) order.
Proof.
  intros Hext. induction order as [|h order IH]; [reflexivity|].
  cbn [omap list_omap]. now rewrite (first_with_ext w w' h gs Hext), IH.
Qed.

Lemma allocated_hash w g : is_Some (heap w !! g) <-> is_Some (hash_at w g).
Proof. unfold hash_at. now rewrite fmap_is_Some. Qed.

Lemma allocated_ext w w' gs :
  (forall q, hash_at w' q = hash_at w q) -> allocated w gs -> allocated w' gs.
Proof.
  intros Hext Hall. eapply Forall_impl; [exact Hall|]. intros g.
  now rewrite !allocated_hash, Hext.
Qed.

Lemma Dedupe_groups_spec gs m w :
  allocated w gs -> Dedupe_groups gs m w = Done (groups (keyed w gs) m, w).
Proof.
  intros Hall. revert m. induction Hall as [|g gs [r Hr] _ IH]; intros m.
  - reflexivity.
  - cbn [Dedupe_groups]. unfold mbind, M_bind, Mbind, deref. rewrite Hr.
    rewrite IH. unfold keyed. cbn [omap list_omap]. rewrite Hr. reflexivity.
Qed.

Lemma Dedupe_first_spec h ids gs w :
  allocated w gs ->
  Dedupe_first h ids gs w
  = Done (first_with w h gs,
          match first_with w h gs with
          | Some g => with_duplicates g ids w
          | None => w
          end).
Proof.
  induction 1 as [|g gs [r Hr] _ IH]; [reflexivity|].
  cbn [Dedupe_first first_with]. unfold mbind, M_bind, Mbind, deref.
  rewrite Hr. unfold hash_at. rewrite Hr. cbn [fmap option_fmap option_map].
  destruct (String.eqb (scrubbedHash r) h) eqn:Heq.
  - apply String.eqb_eq in Heq as ->. rewrite bool_decide_eq_true_2 by done.
    unfold store, with_duplicates, mret, M_ret, Mret. cbn.
    now rewrite (alter_alt_Some _ _ _ _ Hr).
  - apply String.eqb_neq in Heq. rewrite bool_decide_eq_false_2 by congruence.
    exact IH.
Qed.

Lemma Dedupe_range_spec m order gs kept w :
  allocated w gs ->
  Dedupe_range m order gs kept w
  = Done (kept ++ omap (fun h => first_with w h gs) order,
          range_world m order gs w).
Proof.
  revert kept w. induction order as [|h order IH]; intros kept w Hall.
  - cbn. now rewrite app_nil_r.
  - cbn [Dedupe_range]. unfold mbind, M_bind, Mbind.
    rewrite (Dedupe_first_spec _ _ _ _ Hall).
    unfold range_world. cbn [fold_left omap list_omap].
    destruct (first_with w h gs) as [g|] eqn:Hfirst.
    + rewrite IH by (eapply allocated_ext; [apply hash_at_with_duplicates | done]).
      rewrite (omap_first_with_ext w _ gs order (hash_at_with_duplicates g _ w)).
      now rewrite <- app_assoc.
    + now rewrite IH.
Qed.


Lemma range_world_hash m order gs w q :
  hash_at (range_world m order gs w) q = hash_at w q.
Proof.
  unfold range_world. revert w.
  induction order as [|h order IH]; intros w; [reflexivity|].
  cbn [fold_left]. rewrite IH.
  destruct (first_with w h gs); [apply hash_at_with_duplicates | reflexivity].
Qed.

Lemma range_world_id m order gs w q :
  id <$> heap (range_world m order gs w) !! q = id <$> heap w !! q.
Proof.
  unfold range_world. revert w.
  induction order as [|h order IH]; intros w; [reflexivity|].
  cbn [fold_left]. rewrite IH.
  destruct (first_with w h gs); [apply id_with_duplicates | reflexivity].
Qed.

Lemma range_world_stdout m order gs w :
  stdout (range_world m order gs w) = stdout w.
Proof.
  unfold range_world. revert w.
  induction order as [|h order IH]; intros w; [reflexivity|].
  cbn [fold_left]. rewrite IH. now destruct (first_with w h gs).
Qed.

Lemma hashes_of_ext w w' gs :
  (forall q, hash_at w' q = hash_at w q) -> hashes_of w' gs = hashes_of w gs.
Proof.
  intros Hext. unfold hashes_of. induction gs as [|g gs IH]; [reflexivity|].
  cbn [omap list_omap]. change (scrubbedHash <$> heap ?x !! g) with (hash_at x g).
  now rewrite Hext, IH.
Qed.

Lemma ids_of_ext w w' gs :
  (forall q, id <$> heap w' !! q = id <$> heap w !! q) -> ids_of w' gs = ids_of w gs.
Proof.
  intros Hext. unfold ids_of. induction gs as [|g gs IH]; [reflexivity|].
  cbn [omap list_omap]. now rewrite Hext, IH.
Qed.

Lemma hashes_of_cons w g gs h :
  hash_at w g = Some h -> hashes_of w (g :: gs) = h :: hashes_of w gs.
Proof.
  intros Hg. unfold hashes_of. cbn [omap list_omap].
  change (scrubbedHash <$> heap w !! g) with (hash_at w g). now rewrite Hg.
Qed.

Lemma hashes_of_length w gs :
  allocated w gs -> length (hashes_of w gs) = length gs.
Proof.
  induction 1 as [|g gs [h Hh]%allocated_hash _ IH]; [reflexivity|].
  rewrite (hashes_of_cons _ _ _ _ Hh). cbn. now rewrite IH.
Qed.

Lemma elem_of_hashes_of w gs h :
  h ∈ hashes_of w gs <-> exists g, g ∈ gs /\ hash_at w g = Some h.
Proof. unfold hashes_of. apply list_elem_of_omap. Qed.

(** [first_with] finds the first record of the group. *)
Lemma first_with_Some w h gs g :
  first_with w h gs = Some g <->
  exists pre post,
    gs = pre ++ g :: post /\ hash_at w g = Some h /\ h ∉ hashes_of w pre.
Proof.
  induction gs as [|g0 gs IH]; cbn [first_with].
  - split; [discriminate|]. intros (pre & post & Heq & _). now destruct pre.
  - case_bool_decide as Hg0.
    + split.
      * intros [= <-]. exists [], gs. repeat split; [done|]. apply not_elem_of_nil.
      * intros (pre & post & Heq & Hg & Hpre).
        destruct pre as [|g1 pre]; [now injection Heq as ->|].
        injection Heq as <- _. rewrite (hashes_of_cons _ _ _ _ Hg0) in Hpre.
        destruct Hpre. apply list_elem_of_here.
    + rewrite IH. split.
      * intros (pre & post & -> & Hg & Hpre). exists (g0 :: pre), post.
        repeat split; [done|]. intros [g1 [Hin Hg1]]%elem_of_hashes_of.
        apply elem_of_cons in Hin as [->|Hin]; [contradiction|].
        apply Hpre, elem_of_hashes_of. eauto.
      * intros (pre & post & Heq & Hg & Hpre).
        destruct pre as [|g1 pre]; [injection Heq as -> _; contradiction|].
        injection Heq as <- ->. exists pre, post. repeat split; [done|].
        intros [g1 [Hin Hg1]]%elem_of_hashes_of.
        apply Hpre, elem_of_hashes_of. exists g1. split; [now apply elem_of_cons; right | done].
Qed.

Lemma first_with_is_Some w h gs :
  h ∈ hashes_of w gs -> exists g, first_with w h gs = Some g /\ hash_at w g = Some h.
Proof.
  induction gs as [|g0 gs IH]; cbn [first_with].
  - intros Hin. now apply elem_of_nil in Hin.
  - intros [g [Hin Hg]]%elem_of_hashes_of. case_bool_decide as Hg0; [eauto|].
    apply elem_of_cons in Hin as [->|Hin]; [contradiction|].
    apply IH, elem_of_hashes_of. eauto.
Qed.

Lemma first_with_None w h gs :
  h ∉ hashes_of w gs -> first_with w h gs = None.
Proof.
  intros Hnot. destruct (first_with w h gs) as [g|] eqn:Hf; [|reflexivity].
  apply first_with_Some in Hf as (pre & post & -> & Hg & _).
  destruct Hnot. apply elem_of_hashes_of. exists g. split; [|done].
  apply elem_of_app. right. apply list_elem_of_here.
Qed.

(** The fingerprints of the kept records are the keys in the order of the
    [range]. *)
Lemma hashes_of_kept w gs (order : list string) :
  (forall h, h ∈ order -> h ∈ hashes_of w gs) ->
  hashes_of w (omap (fun h => first_with w h gs) order) = order
  /\ length (omap (fun h => first_with w h gs) order) = length order.
Proof.
  induction order as [|h order IH]; intros Hin; [split; reflexivity|].
  destruct (first_with_is_Some w h gs) as (g & Hf & Hg).
  { apply Hin, list_elem_of_here. }
  destruct IH as [IH1 IH2].
  { intros h' Hh'. apply Hin. now apply elem_of_cons; right. }
  cbn [omap list_omap]. rewrite Hf.
  rewrite (hashes_of_cons _ _ _ _ Hg), IH1. cbn [length]. now rewrite IH2.
Qed.


Lemma group_ids_cons w h g gs r :
  heap w !! g = Some r ->
  group_ids w h (g :: gs)
  = if bool_decide (scrubbedHash r = h) then id r :: group_ids w h gs
    else group_ids w h gs.
Proof.
  intros Hr. unfold group_ids, hash_at. cbn [List.filter]. rewrite Hr.
  cbn [fmap option_fmap option_map].
  destruct (decide (scrubbedHash r = h)) as [Heq|Hne].
  - rewrite !bool_decide_eq_true_2 by congruence.
    unfold ids_of. cbn [omap list_omap]. now rewrite Hr.
  - rewrite !bool_decide_eq_false_2 by congruence. reflexivity.
Qed.

Lemma keyed_cons w g gs r :
  heap w !! g = Some r -> keyed w (g :: gs) = (scrubbedHash r, id r) :: keyed w gs.
Proof. intros Hr. unfold keyed. cbn [omap list_omap]. now rewrite Hr. Qed.

(** The entry of the fingerprint [h] in the map of groups. *)
Lemma groups_lookup w gs m h :
  allocated w gs ->
  groups (keyed w gs) m !! h
  = match group_ids w h gs with
    | [] => m !! h
    | ids => Some (default [] (m !! h) ++ ids)
    end.
Proof.
  intros Hall. revert m. induction Hall as [|g gs [r Hr] _ IH]; intros m.
  - reflexivity.
  - rewrite (keyed_cons _ _ _ _ Hr), (group_ids_cons _ _ _ _ _ Hr).
    unfold groups. cbn [fold_left fst snd]. fold (groups (keyed w gs)).
    rewrite IH. case_bool_decide as Hh.
    + subst h. rewrite lookup_insert_eq.
      destruct (group_ids w (scrubbedHash r) gs); simpl; [reflexivity|].
      now rewrite <- app_assoc.
    + rewrite lookup_insert_ne by done. reflexivity.
Qed.

Lemma group_ids_nil w h gs :
  allocated w gs -> (group_ids w h gs = [] <-> h ∉ hashes_of w gs).
Proof.
  induction 1 as [|g gs [r Hr] _ IH]; [split; [intros _; apply not_elem_of_nil | done]|].
  rewrite (group_ids_cons _ _ _ _ _ Hr).
  assert (Hg : hash_at w g = Some (scrubbedHash r)) by (unfold hash_at; now rewrite Hr).
  rewrite (hashes_of_cons _ _ _ _ Hg), not_elem_of_cons.
  case_bool_decide as Hh.
  - split; [discriminate | intros [Hne _]; congruence].
  - rewrite IH. split; [intros Hn; split; congruence | intros [_ Hn]; exact Hn].
Qed.

(** The keys a [range] over the map of groups yields: the fingerprints of
    the collection, each once. *)
Lemma range_order_keys w gs (order : list string) :
  allocated w gs ->
  range_order (groups (keyed w gs) ∅) order ->
  NoDup order /\ (forall h, h ∈ order <-> h ∈ hashes_of w gs).
Proof.
  unfold range_order. intros Hall Hperm. split.
  - rewrite Hperm. apply NoDup_fst_map_to_list.
  - intros h. rewrite Hperm, list_elem_of_fmap. split.
    + intros [[h' ids] [-> Hin%elem_of_map_to_list]]. cbn [fst].
      rewrite (groups_lookup _ _ _ _ Hall), lookup_empty in Hin.
      destruct (decide (h' ∈ hashes_of w gs)) as [|Hn]; [done|].
      apply (group_ids_nil _ _ _ Hall) in Hn. now rewrite Hn in Hin.
    + intros Hin.
      destruct (group_ids w h gs) as [|i ids] eqn:Hids.
      { apply (group_ids_nil _ _ _ Hall) in Hids. contradiction. }
      exists (h, i :: ids). split; [reflexivity|]. apply elem_of_map_to_list.
      now rewrite (groups_lookup _ _ _ _ Hall), lookup_empty, Hids.
Qed.

(** As many kept records as records: no two records share a fingerprint. *)
Lemma kept_length_NoDup w gs (order : list string) :
  allocated w gs -> NoDup order ->
  (forall h, h ∈ order <-> h ∈ hashes_of w gs) ->
  (length gs = length order <-> NoDup (hashes_of w gs)).
Proof.
  intros Hall Hnd Hel. rewrite <- (hashes_of_length w gs Hall). split.
  - intros Hlen. apply NoDup_ListNoDup.
    apply (NoDup_incl_NoDup (l := order)); [now apply NoDup_ListNoDup | lia|].
    intros h Hin%list_elem_of_In. now apply list_elem_of_In, Hel.
  - intros Hnd'. apply Permutation_length, NoDup_Permutation; [done..|].
    intros h. now rewrite Hel.
Qed.

(** [Dedupe] in one equation. *)
Lemma Dedupe_spec (order : list string) gd w :
  allocated w (goroutines gd) ->
  let gs := goroutines gd in
  let m := groups (keyed w gs) ∅ in
  let kept := omap (fun h => first_with w h gs) order in
  let w' := range_world m order gs w in
  Dedupe order gd w
  = if Nat.eqb (length gs) (length kept) then Done (gd, w')
    else Done ({| goroutines := kept |},
               printed w' [OutPrintf "dedupped %d, kept %d\n"
                             [AInt (Z.of_nat (length gs));
                              AInt (Z.of_nat (length kept))]]).
Proof.
  intros Hall gs m kept w'. unfold Dedupe, mbind, M_bind, Mbind.
  rewrite (Dedupe_groups_spec _ _ _ Hall), (Dedupe_range_spec _ _ _ _ _ Hall).
  cbn [app]. fold gs m kept w'.
  now destruct (Nat.eqb (length gs) (length kept)).
Qed.

End DedupeFacts.
(** ** [Dedupe]: what one run leaves, and a second run *)

Section DedupeRuns.

Implicit Types (w : World) (gs : list ptr) (m : gmap string (list Z)).

Lemma first_of_group_NoDup w gs g :
  NoDup (hashes_of w gs) -> allocated w gs ->
  (g ∈ gs <-> first_of_group w gs g).
Proof.
  intros Hnd Hall. split.
  - intros (pre & post & ->)%list_elem_of_split.
    assert (Hg : is_Some (hash_at w g)).
    { apply allocated_hash. unfold allocated in Hall.
      rewrite Forall_app, Forall_cons in Hall. tauto. }
    destruct Hg as [h Hg]. exists pre, post, h. repeat split; [done|].
    unfold hashes_of in Hnd. rewrite omap_app in Hnd.
    apply NoDup_app in Hnd as (_ & Hdisj & _). intros Hin.
    apply (Hdisj h Hin). fold (hashes_of w (g :: post)).
    rewrite (hashes_of_cons _ _ _ _ Hg). apply list_elem_of_here.
  - intros (pre & post & h & -> & _). apply elem_of_app. right.
    apply list_elem_of_here.
Qed.

Lemma elem_of_kept w gs (order : list string) g :
  (forall h, h ∈ order <-> h ∈ hashes_of w gs) ->
  g ∈ omap (fun h => first_with w h gs) order <-> first_of_group w gs g.
Proof.
  intros Hel. rewrite list_elem_of_omap. split.
  - intros (h & _ & (pre & post & Hf)%first_with_Some). exists pre, post, h. exact Hf.
  - intros (pre & post & h & Heq & Hg & Hpre). exists h. split.
    + apply Hel, elem_of_hashes_of. exists g. split; [|done].
      rewrite Heq. apply elem_of_app. right. apply list_elem_of_here.
    + apply first_with_Some. eauto.
Qed.

Lemma first_with_elem_of w h gs g : first_with w h gs = Some g -> g ∈ gs.
Proof.
  intros (pre & post & -> & _)%first_with_Some.
  apply elem_of_app. right. apply list_elem_of_here.
Qed.

Lemma first_with_hash w h gs g : first_with w h gs = Some g -> hash_at w g = Some h.
Proof. now intros (pre & post & _ & Hg & _)%first_with_Some. Qed.

(** One run of [Dedupe]. *)
Lemma Dedupe_once (order : list string) gd w :
  allocated w (goroutines gd) ->
  range_order (groups (keyed w (goroutines gd)) ∅) order ->
  exists gd' w',
    Dedupe order gd w = Done (gd', w')
    /\ heap w'
       = heap (range_world (groups (keyed w (goroutines gd)) ∅) order (goroutines gd) w)
    /\ NoDup (hashes_of w (goroutines gd'))
    /\ (forall h, h ∈ hashes_of w (goroutines gd') <-> h ∈ hashes_of w (goroutines gd))
    /\ (forall g, g ∈ goroutines gd' <-> first_of_group w (goroutines gd) g)
    /\ (NoDup (hashes_of w (goroutines gd)) -> gd' = gd /\ stdout w' = stdout w)
    /\ (~ NoDup (hashes_of w (goroutines gd)) -> hashes_of w (goroutines gd') = order).
Proof.
  intros Hall Horder.
  destruct (range_order_keys _ _ _ Hall Horder) as [Hnd Hel].
  pose proof (kept_length_NoDup _ _ _ Hall Hnd Hel) as Hlen.
  destruct (hashes_of_kept w (goroutines gd) order) as [Hk Hkl].
  { intros h. apply Hel. }
  rewrite (Dedupe_spec _ _ _ Hall). cbn zeta. rewrite Hkl.
  destruct (Nat.eqb _ _) eqn:Heq.
  - apply Nat.eqb_eq, Hlen in Heq.
    eexists gd, _. split; [reflexivity|]. split; [reflexivity|].
    split; [done|]. split; [done|].
    split; [intros g; now apply first_of_group_NoDup|].
    split; [intros _; split; [done | apply range_world_stdout]|].
    intros Hn. contradiction.
  - apply Nat.eqb_neq in Heq.
    eexists _, _. split; [reflexivity|]. cbn [goroutines]. rewrite Hk.
    split; [reflexivity|]. split; [done|].
    split; [intros h; apply Hel|].
    split; [intros g; now apply elem_of_kept|].
    split; [|done].
    intros Hnd'. apply Hlen in Hnd'. contradiction.
Qed.

Lemma range_world_lookup_other m (order : list string) gs w g :
  (forall h, h ∈ order -> first_with w h gs <> Some g) ->
  heap (range_world m order gs w) !! g = heap w !! g.
Proof.
  unfold range_world. revert w.
  induction order as [|h order IH]; intros w Hother; [reflexivity|].
  cbn [fold_left].
  assert (Hh : first_with w h gs <> Some g) by apply Hother, list_elem_of_here.
  destruct (first_with w h gs) as [g0|] eqn:Hf.
  - rewrite IH.
    + unfold with_duplicates. cbn [heap]. apply lookup_alter_ne. congruence.
    + intros h' Hh'.
      rewrite (first_with_ext w _ h' gs (hash_at_with_duplicates g0 _ w)).
      apply Hother. now apply elem_of_cons; right.
  - apply IH. intros h' Hh'. apply Hother. now apply elem_of_cons; right.
Qed.

Lemma range_world_lookup_first m (order : list string) gs w h g :
  NoDup order -> h ∈ order -> first_with w h gs = Some g ->
  heap (range_world m order gs w) !! g
  = set_duplicates (default [] (m !! h)) <$> heap w !! g.
Proof.
  unfold range_world. revert w.
  induction order as [|h0 order IH]; intros w Hnd Hin Hf.
  { now apply elem_of_nil in Hin. }
  apply NoDup_cons in Hnd as [Hh0 Hnd]. cbn [fold_left].
  destruct (decide (h0 = h)) as [->|Hne].
  - rewrite Hf.
    fold (range_world m order gs (with_duplicates g (default [] (m !! h)) w)).
    rewrite range_world_lookup_other.
    + unfold with_duplicates. cbn [heap]. apply lookup_alter_eq.
    + intros h' Hh' Hf'.
      rewrite (first_with_ext w _ h' gs (hash_at_with_duplicates g _ w)) in Hf'.
      apply first_with_hash in Hf, Hf'. congruence.
  - apply elem_of_cons in Hin as [->|Hin]; [done|].
    destruct (first_with w h0 gs) as [g0|] eqn:Hf0.
    + rewrite IH; [|done..|].
      * unfold with_duplicates. cbn [heap]. rewrite lookup_alter_ne; [done|].
        intros ->. apply first_with_hash in Hf, Hf0. congruence.
      * now rewrite (first_with_ext w _ h gs (hash_at_with_duplicates g0 _ w)).
    + now apply IH.
Qed.

Lemma first_with_NoDup w gs g h :
  NoDup (hashes_of w gs) -> g ∈ gs -> hash_at w g = Some h ->
  first_with w h gs = Some g.
Proof.
  intros Hnd Hin Hg. apply first_with_Some.
  apply list_elem_of_split in Hin as (pre & post & ->).
  exists pre, post. repeat split; [done|].
  unfold hashes_of in Hnd. rewrite omap_app in Hnd.
  apply NoDup_app in Hnd as (_ & Hdisj & _). intros Hpre.
  apply (Hdisj h Hpre). fold (hashes_of w (g :: post)).
  rewrite (hashes_of_cons _ _ _ _ Hg). apply list_elem_of_here.
Qed.

Lemma group_ids_absent w h gs : h ∉ hashes_of w gs -> group_ids w h gs = [].
Proof.
  intros Hn. unfold group_ids.
  induction gs as [|g gs IH]; [reflexivity|]. cbn [List.filter].
  case_bool_decide as Hg.
  - destruct Hn. rewrite (hashes_of_cons _ _ _ _ Hg). apply list_elem_of_here.
  - apply IH. intros Hin. apply Hn, elem_of_hashes_of.
    apply elem_of_hashes_of in Hin as (g' & Hin & Hg'). exists g'.
    split; [now apply elem_of_cons; right | done].
Qed.

Lemma group_ids_NoDup w gs g r :
  NoDup (hashes_of w gs) -> g ∈ gs -> heap w !! g = Some r ->
  group_ids w (scrubbedHash r) gs = [id r].
Proof.
  intros Hnd Hin Hr.
  assert (Hg : hash_at w g = Some (scrubbedHash r)) by (unfold hash_at; now rewrite Hr).
  induction gs as [|g0 gs IH]; [now apply elem_of_nil in Hin|].
  destruct (heap w !! g0) as [r0|] eqn:Hr0.
  - assert (Hg0 : hash_at w g0 = Some (scrubbedHash r0))
      by (unfold hash_at; now rewrite Hr0).
    rewrite (hashes_of_cons _ _ _ _ Hg0) in Hnd.
    apply NoDup_cons in Hnd as [Hnot Hnd].
    rewrite (group_ids_cons _ _ _ _ _ Hr0).
    apply elem_of_cons in Hin as [->|Hin].
    + assert (r0 = r) as -> by congruence.
      rewrite bool_decide_eq_true_2 by done.
      now rewrite (group_ids_absent _ _ _ Hnot).
    + rewrite bool_decide_eq_false_2; [now apply IH|].
      intros Heq. apply Hnot. rewrite Heq. apply elem_of_hashes_of. eauto.
  - apply elem_of_cons in Hin as [->|Hin]; [congruence|].
    unfold hashes_of in Hnd. cbn [omap list_omap] in Hnd. rewrite Hr0 in Hnd.
    unfold group_ids, hash_at. cbn [List.filter]. rewrite Hr0.
    cbn [fmap option_fmap option_map].
    rewrite bool_decide_eq_false_2 by discriminate. now apply IH.
Qed.


(** C2, amended.  [Dedupe] leaves one record for each fingerprint of the
    collection, the first record of the collection with that fingerprint.
    When no two records share a fingerprint the sequence is left as it is;
    otherwise the kept records are in the order in which the [range] over
    the map of groups yields their fingerprints. *)
Theorem Dedupe_representatives (order : list string) (gd : GoroutineDump)
    (w : World) (m : gmap string (list Z)) :
  allocated w (goroutines gd) ->
  Dedupe_groups (goroutines gd) ∅ w = Done (m, w) ->
  range_order m order ->
  exists gd' w',
    Dedupe order gd w = Done (gd', w')
    /\ NoDup (hashes_of w' (goroutines gd'))
    /\ (forall h, h ∈ hashes_of w' (goroutines gd') <-> h ∈ hashes_of w (goroutines gd))
    /\ (forall g, g ∈ goroutines gd' <-> first_of_group w (goroutines gd) g)
    /\ (NoDup (hashes_of w (goroutines gd)) -> gd' = gd)
    /\ (~ NoDup (hashes_of w (goroutines gd)) ->
        hashes_of w' (goroutines gd') = order).
Proof.
  intros Hall Hm Horder.
  rewrite (Dedupe_groups_spec _ _ _ Hall) in Hm. injection Hm as <-.
  destruct (Dedupe_once order gd w Hall Horder)
    as (gd' & w' & HD & Hheap & Hnd & Hel & Hfirst & Hsame & Hdiff).
  assert (Hext : forall q, hash_at w' q = hash_at w q).
  { intros q. unfold hash_at at 1. rewrite Hheap. apply range_world_hash. }
  exists gd', w'. rewrite (hashes_of_ext _ _ _ Hext).
  repeat split; try done.
  - apply Hel.
  - apply Hel.
  - apply Hfirst.
  - apply Hfirst.
  - intros Hnd'. now apply Hsame.
Qed.


(** C5, amended.  A second [Dedupe] leaves the sequence the first one
    left and prints nothing; but it overwrites the duplicates of every kept
    record, which after the first run were the identities of the whole
    group, by the one-element list of the record's own identity. *)
Theorem Dedupe_twice (order1 : list string) (gd : GoroutineDump) (w : World)
    (m1 : gmap string (list Z)) :
  allocated w (goroutines gd) ->
  Dedupe_groups (goroutines gd) ∅ w = Done (m1, w) ->
  range_order m1 order1 ->
  exists gd1 w1 m2,
    Dedupe order1 gd w = Done (gd1, w1)
    /\ Dedupe_groups (goroutines gd1) ∅ w1 = Done (m2, w1)
    /\ forall order2, range_order m2 order2 ->
       exists w2,
         Dedupe order2 gd1 w1 = Done (gd1, w2)
         /\ stdout w2 = stdout w1
         /\ (forall g, g ∉ goroutines gd1 -> heap w2 !! g = heap w1 !! g)
         /\ (forall g, g ∈ goroutines gd1 ->
               exists r1,
                 heap w1 !! g = Some r1
                 /\ duplicates r1 = group_ids w (scrubbedHash r1) (goroutines gd)
                 /\ heap w2 !! g = Some (set_duplicates [id r1] r1)).
Proof.
  intros Hall Hm Horder1.
  rewrite (Dedupe_groups_spec _ _ _ Hall) in Hm. injection Hm as <-.
  destruct (range_order_keys _ _ _ Hall Horder1) as [Hnd1 Hel1].
  destruct (Dedupe_once order1 gd w Hall Horder1)
    as (gd1 & w1 & HD1 & Hheap1 & Hnd & Hel & Hfirst & _ & _).
  assert (Hext : forall q, hash_at w1 q = hash_at w q).
  { intros q. unfold hash_at at 1. rewrite Hheap1. apply range_world_hash. }
  assert (Hall1 : allocated w1 (goroutines gd1)).
  { apply Forall_forall. intros g (pre & post & h & Heq & Hg & _)%Hfirst.
    apply allocated_hash. rewrite Hext, Hg. eauto. }
  rewrite <- (hashes_of_ext w w1 _ Hext) in Hnd.
  exists gd1, w1, (groups (keyed w1 (goroutines gd1)) ∅).
  split; [exact HD1|]. split; [now apply Dedupe_groups_spec|].
  intros order2 Horder2.
  destruct (range_order_keys _ _ _ Hall1 Horder2) as [Hnd2 Hel2].
  destruct (Dedupe_once order2 gd1 w1 Hall1 Horder2)
    as (gd2 & w2 & HD2 & Hheap2 & _ & _ & _ & Hsame & _).
  destruct (Hsame Hnd) as [-> Hout].
  exists w2. split; [exact HD2|]. split; [exact Hout|]. split.
  - intros g Hg. rewrite Hheap2. apply range_world_lookup_other.
    intros h _ Hf. apply Hg. eapply first_with_elem_of, Hf.
  - intros g Hg.
    destruct (proj1 (Hfirst g) Hg) as (pre & post & h & Heq & Hgh & Hpre).
    assert (Hf1 : first_with w h (goroutines gd) = Some g).
    { apply first_with_Some. eauto. }
    assert (Hin1 : h ∈ order1).
    { apply Hel1, elem_of_hashes_of. exists g. split; [|done].
      rewrite Heq. apply elem_of_app. right. apply list_elem_of_here. }
    pose proof (range_world_lookup_first
                  (groups (keyed w (goroutines gd)) ∅) order1 _ w h g Hnd1 Hin1 Hf1)
      as Hw1.
    rewrite <- Hheap1 in Hw1.
    unfold hash_at in Hgh. destruct (heap w !! g) as [r|] eqn:Hr; [|discriminate].
    injection Hgh as <-.
    rewrite (groups_lookup _ _ _ _ Hall), lookup_empty in Hw1.
    assert (Hids : group_ids w (scrubbedHash r) (goroutines gd) <> []).
    { rewrite (group_ids_nil _ _ _ Hall). intros Hn. apply Hn, Hel1, Hin1. }
    destruct (group_ids w (scrubbedHash r) (goroutines gd)) as [|i ids] eqn:Hgi;
      [done|]. cbn in Hw1.
    eexists. split; [exact Hw1|]. split; [cbn; now rewrite Hgi|].
    assert (Hgh1 : hash_at w1 g = Some (scrubbedHash r)).
    { unfold hash_at. now rewrite Hw1. }
    assert (Hf2 : first_with w1 (scrubbedHash r) (goroutines gd1) = Some g)
      by now apply first_with_NoDup.
    assert (Hin2 : scrubbedHash r ∈ order2).
    { apply Hel2, elem_of_hashes_of. eauto. }
    rewrite Hheap2.
    rewrite (range_world_lookup_first _ order2 _ w1 _ g Hnd2 Hin2 Hf2), Hw1.
    rewrite (groups_lookup _ _ _ _ Hall1), lookup_empty.
    change (scrubbedHash r) with (scrubbedHash (set_duplicates (i :: ids) r)).
    rewrite (group_ids_NoDup w1 _ g _ Hnd Hg Hw1). reflexivity.
Qed.

End DedupeRuns.


Lemma Dedupe_representatives_witness :
  let m := groups (keyed example_world (goroutines example_dump)) ∅ in
  let order := (map_to_list m).*1 in
  exists gd' w',
    Dedupe order example_dump example_world = Done (gd', w')
    /\ NoDup (hashes_of w' (goroutines gd'))
    /\ (forall g, g ∈ goroutines gd'
                  <-> first_of_group example_world (goroutines example_dump) g).
Proof.
  intros m order.
  destruct (Dedupe_representatives order example_dump example_world m)
    as (gd' & w' & HD & Hnd & _ & Hfirst & _).
  - repeat constructor; vm_compute; eauto.
  - vm_compute. reflexivity.
  - unfold range_order. reflexivity.
  - exists gd', w'. auto.
Defined.

(** C2 as stated fails: the kept records need not be in the order they had
    in the collection.  The records 2 and 3 share a fingerprint; a [range]
    that yields that fingerprint first puts record 2 before record 1. *)
Lemma Dedupe_reorders :
  let order := hashes_of example_world [2%positive; 1%positive] in
  let m := groups (keyed example_world (goroutines example_dump)) ∅ in
  allocated example_world (goroutines example_dump)
  /\ Dedupe_groups (goroutines example_dump) ∅ example_world = Done (m, example_world)
  /\ range_order m order
  /\ (exists w',
        Dedupe order example_dump example_world
        = Done ({| goroutines := [2%positive; 1%positive] |}, w'))
  /\ ~ sublist [2%positive; 1%positive] (goroutines example_dump).
Proof.
  intros order m. split; [|split; [|split; [|split]]].
  - repeat constructor; vm_compute; eauto.
  - vm_compute. reflexivity.
  - unfold range_order. vm_compute. first [reflexivity | apply perm_swap].
  - eexists. vm_compute. reflexivity.
  - cbn [goroutines example_dump].
    rewrite !sublist_cons_r, sublist_nil_r. intros Hsub.
    repeat match goal with
           | Hx : _ \/ _ |- _ => destruct Hx
           | Hx : exists _, _ |- _ => destruct Hx
           | Hx : _ /\ _ |- _ => destruct Hx
           end; try discriminate.
    match goal with
    | Heq : _ = _ :: ?x, Hs : ?x `sublist_of` _ |- _ =>
        injection Heq as <-;
        apply sublist_cons_r in Hs as [Hs|(l' & Hs & _)]; [|discriminate];
        apply sublist_nil_r in Hs; discriminate
    end.
Qed.

Lemma Dedupe_twice_witness :
  let m1 := groups (keyed example_world (goroutines example_dump)) ∅ in
  let order1 := (map_to_list m1).*1 in
  exists gd1 w1 m2,
    Dedupe order1 example_dump example_world = Done (gd1, w1)
    /\ Dedupe_groups (goroutines gd1) ∅ w1 = Done (m2, w1)
    /\ forall order2, range_order m2 order2 ->
       exists w2, Dedupe order2 gd1 w1 = Done (gd1, w2) /\ stdout w2 = stdout w1.
Proof.
  intros m1 order1.
  destruct (Dedupe_twice order1 example_dump example_world m1)
    as (gd1 & w1 & m2 & HD1 & Hm2 & H2).
  - repeat constructor; vm_compute; eauto.
  - vm_compute. reflexivity.
  - unfold range_order. reflexivity.
  - exists gd1, w1, m2. split; [done|]. split; [done|].
    intros order2 Ho2. destruct (H2 order2 Ho2) as (w2 & HD2 & Hout & _).
    exists w2. auto.
Defined.

(** C5 as stated fails: in the collection of the example the record 2
    stands for the records 2 and 3, and has the identities of both as its
    duplicates after one run; after a second run it has its own only. *)
Lemma Dedupe_twice_forgets_duplicates :
  let order1 := hashes_of example_world [1%positive; 2%positive] in
  let m1 := groups (keyed example_world (goroutines example_dump)) ∅ in
  let gd1 := {| goroutines := [1%positive; 2%positive] |} in
  exists w1 w2,
    range_order m1 order1
    /\ Dedupe order1 example_dump example_world = Done (gd1, w1)
    /\ range_order (groups (keyed w1 (goroutines gd1)) ∅) order1
    /\ Dedupe order1 gd1 w1 = Done (gd1, w2)
    /\ duplicates <$> heap w1 !! 2%positive = Some [7; 9]
    /\ duplicates <$> heap w2 !! 2%positive = Some [7].
Proof.
  intros order1 m1 gd1. eexists _, _.
  split; [unfold range_order; vm_compute; first [reflexivity | apply perm_swap]|].
  split; [vm_compute; reflexivity|].
  split; [unfold range_order; vm_compute; first [reflexivity | apply perm_swap]|].
  split; [vm_compute; reflexivity|].
  split; vm_compute; reflexivity.
Qed.
(** ** [Diff] *)

Section DiffFacts.

Implicit Types (w : World) (gs : list ptr) (l c r : gmap Z ptr).

Lemma ids_set_cons w g gs rec :
  heap w !! g = Some rec -> ids_set w (g :: gs) = {[id rec]} ∪ ids_set w gs.
Proof.
  intros Hr. unfold ids_set, ids_of. cbn [omap list_omap]. now rewrite Hr.
Qed.

Lemma ids_of_cons w g gs rec :
  heap w !! g = Some rec -> ids_of w (g :: gs) = id rec :: ids_of w gs.
Proof. intros Hr. unfold ids_of. cbn [omap list_omap]. now rewrite Hr. Qed.

(** The first loop: [lonly] maps the identities of the collection to
    records of the collection. *)
Lemma Diff_left_spec gs l w :
  allocated w gs ->
  exists l',
    Diff_left gs l w = Done (l', w)
    /\ dom l' = dom l ∪ ids_set w gs
    /\ (forall i g, l' !! i = Some g ->
          l !! i = Some g \/ (g ∈ gs /\ id_at w g = Some i)).
Proof.
  intros Hall. revert l. induction Hall as [|g gs [rec Hr] _ IH]; intros l.
  - exists l. split; [reflexivity|]. split; [|auto].
    unfold ids_set, ids_of. cbn. set_solver.
  - cbn [Diff_left]. unfold mbind, M_bind, Mbind, deref. rewrite Hr.
    destruct (IH (<[id rec := g]> l)) as (l' & -> & Hdom & Hent).
    exists l'. split; [reflexivity|]. split.
    + rewrite Hdom, dom_insert_L, (ids_set_cons _ _ _ _ Hr). set_solver.
    + intros i g' Hl'. destruct (Hent i g' Hl') as [Hins|[Hin Hid]].
      * rewrite lookup_insert in Hins. case_decide as Hi.
        -- injection Hins as <-. subst i. right. split; [apply list_elem_of_here|].
           unfold id_at. now rewrite Hr.
        -- now left.
      * right. split; [now apply elem_of_cons; right | done].
Qed.

(** The second loop. *)
Lemma Diff_right_spec gs l c r w :
  allocated w gs -> NoDup (ids_of w gs) ->
  exists l' c' r',
    Diff_right gs (l, c, r) w = Done ((l', c', r'), w)
    /\ dom l' = dom l ∖ ids_set w gs
    /\ dom c' = dom c ∪ (ids_set w gs ∩ dom l)
    /\ dom r' = dom r ∪ (ids_set w gs ∖ dom l)
    /\ (forall i g, l' !! i = Some g -> l !! i = Some g)
    /\ (forall i g, c' !! i = Some g ->
          c !! i = Some g \/ (g ∈ gs /\ id_at w g = Some i))
    /\ (forall i g, r' !! i = Some g ->
          r !! i = Some g \/ (g ∈ gs /\ id_at w g = Some i)).
Proof.
  intros Hall. revert l c r.
  induction Hall as [|g gs [rec Hr] _ IH]; intros l c r Hnd.
  - exists l, c, r. split; [reflexivity|].
    unfold ids_set, ids_of. cbn. repeat split; auto; set_solver.
  - rewrite (ids_of_cons _ _ _ _ Hr) in Hnd. apply NoDup_cons in Hnd as [Hfresh Hnd].
    assert (Hfresh' : id rec ∉ ids_set w gs).
    { unfold ids_set. now rewrite elem_of_list_to_set. }
    cbn [Diff_right]. unfold mbind, M_bind, Mbind, deref. rewrite Hr.
    rewrite (ids_set_cons _ _ _ _ Hr).
    assert (Hhere : g ∈ g :: gs /\ id_at w g = Some (id rec)).
    { split; [apply list_elem_of_here | unfold id_at; now rewrite Hr]. }
    destruct (l !! id rec) as [g0|] eqn:Hl.
    + assert (Hdl : id rec ∈ dom l) by (apply elem_of_dom; eauto).
      destruct (IH (delete (id rec) l) (<[id rec := g]> c) r Hnd)
        as (l' & c' & r' & -> & Hdl' & Hdc' & Hdr' & Hel & Hec & Her).
      exists l', c', r'. split; [reflexivity|].
      rewrite Hdl', Hdc', Hdr', dom_delete_L, dom_insert_L.
      split; [set_solver|]. split; [set_solver|]. split; [set_solver|].
      split; [|split].
      * intros i g' Hi. apply Hel in Hi. apply lookup_delete_Some in Hi. tauto.
      * intros i g' Hi. destruct (Hec i g' Hi) as [Hins|[Hin Hid]].
        -- rewrite lookup_insert in Hins. case_decide as Hc.
           ++ injection Hins as <-. subst i. now right.
           ++ now left.
        -- right. split; [now apply elem_of_cons; right | done].
      * intros i g' Hi. destruct (Her i g' Hi) as [Hins|[Hin Hid]]; [now left|].
        right. split; [now apply elem_of_cons; right | done].
    + assert (Hdl : id rec ∉ dom l) by now apply not_elem_of_dom.
      destruct (IH l c (<[id rec := g]> r) Hnd)
        as (l' & c' & r' & -> & Hdl' & Hdc' & Hdr' & Hel & Hec & Her).
      exists l', c', r'. split; [reflexivity|].
      rewrite Hdl', Hdc', Hdr', dom_insert_L.
      split; [set_solver|]. split; [set_solver|]. split; [set_solver|].
      split; [|split].
      * exact Hel.
      * intros i g' Hi. destruct (Hec i g' Hi) as [Hins|[Hin Hid]]; [now left|].
        right. split; [now apply elem_of_cons; right | done].
      * intros i g' Hi. destruct (Her i g' Hi) as [Hins|[Hin Hid]].
        -- rewrite lookup_insert in Hins. case_decide as Hc.
           ++ injection Hins as <-. subst i. now right.
           ++ now left.
        -- right. split; [now apply elem_of_cons; right | done].
Qed.


Lemma range_order_dom (m : gmap Z ptr) (order : list Z) :
  range_order m order ->
  NoDup order /\ (forall i, i ∈ order <-> is_Some (m !! i)).
Proof.
  unfold range_order. intros Hperm. split.
  - rewrite Hperm. apply NoDup_fst_map_to_list.
  - intros i. rewrite Hperm, list_elem_of_fmap. split.
    + intros [[i' g] [-> Hin%elem_of_map_to_list]]. eauto.
    + intros [g Hg]. exists (i, g). split; [reflexivity|].
      now apply elem_of_map_to_list.
Qed.

(** A collection made from a map whose keys are the identities of its
    records. *)
Lemma from_map_ids w (m : gmap Z ptr) (order : list Z) :
  (forall i g, m !! i = Some g -> id_at w g = Some i) ->
  range_order m order ->
  ids_of w (goroutines (NewGoroutineDumpFromMap order m)) = order
  /\ ids_set w (goroutines (NewGoroutineDumpFromMap order m)) = dom m
  /\ (forall g, g ∈ goroutines (NewGoroutineDumpFromMap order m) ->
        exists i, m !! i = Some g).
Proof.
  intros Hkeys [Hnd Hel]%range_order_dom. cbn [goroutines NewGoroutineDumpFromMap].
  assert (Hids : ids_of w (omap (fun k => m !! k) order) = order).
  { assert (Hin : forall i, i ∈ order -> is_Some (m !! i)) by (intros i; apply Hel).
    clear Hel Hnd. induction order as [|i order IH]; [reflexivity|].
    destruct (Hin i) as [g Hg]; [apply list_elem_of_here|].
    cbn [omap list_omap]. rewrite Hg.
    unfold ids_of. cbn [omap list_omap]. fold (ids_of w (omap (fun k => m !! k) order)).
    pose proof (Hkeys i g Hg) as Hid. unfold id_at in Hid. rewrite Hid.
    rewrite IH; [reflexivity|]. intros j Hj. apply Hin. now apply elem_of_cons; right. }
  split; [exact Hids|]. split.
  - unfold ids_set. rewrite Hids. apply set_eq. intros i.
    now rewrite elem_of_list_to_set, Hel, elem_of_dom.
  - intros g (i & _ & Hg)%list_elem_of_omap. eauto.
Qed.

(** C4. For two collections of records that exist, in each of which no two
    records have the same identity, [Diff] returns three collections whose
    sets of identities are pairwise disjoint and together the identities of
    both inputs: those of the first input only, those of both, and those of
    the second input only.  Every record of the first result is a record of
    the first input, and every record of the other two is a record of the
    second input. *)
Theorem Diff_partition (gd another : GoroutineDump) (w : World) :
  allocated w (goroutines gd) ->
  allocated w (goroutines another) ->
  NoDup (ids_of w (goroutines gd)) ->
  NoDup (ids_of w (goroutines another)) ->
  exists lonly common ronly,
    Diff_maps gd another w = Done ((lonly, common, ronly), w)
    /\ forall ol oc or,
       range_order lonly ol -> range_order common oc -> range_order ronly or ->
       exists onlyInL both onlyInR,
         Diff ol oc or gd another w = Done ((onlyInL, both, onlyInR), w)
         /\ let L := ids_set w (goroutines gd) in
            let R := ids_set w (goroutines another) in
            let A := ids_set w (goroutines onlyInL) in
            let C := ids_set w (goroutines both) in
            let B := ids_set w (goroutines onlyInR) in
            A ## C /\ A ## B /\ C ## B
            /\ A ∪ C ∪ B = L ∪ R
            /\ A = L ∖ R /\ C = L ∩ R /\ B = R ∖ L
            /\ NoDup (ids_of w (goroutines onlyInL))
            /\ NoDup (ids_of w (goroutines both))
            /\ NoDup (ids_of w (goroutines onlyInR))
            /\ (forall g, g ∈ goroutines onlyInL -> g ∈ goroutines gd)
            /\ (forall g, g ∈ goroutines both -> g ∈ goroutines another)
            /\ (forall g, g ∈ goroutines onlyInR -> g ∈ goroutines another).
Proof.
  intros HallL HallR _ HndR.
  destruct (Diff_left_spec (goroutines gd) ∅ w HallL) as (l0 & Hleft & Hdl0 & Hel0).
  destruct (Diff_right_spec (goroutines another) l0 ∅ ∅ w HallR HndR)
    as (lonly & common & ronly & Hright & Hdl & Hdc & Hdr & Hel & Hec & Her).
  rewrite dom_empty_L in Hdl0, Hdc, Hdr.
  exists lonly, common, ronly. split.
  { unfold Diff_maps, mbind, M_bind, Mbind. now rewrite Hleft. }
  intros ol oc or Hol Hoc Hor.
  assert (HkL : forall i g, lonly !! i = Some g ->
                  g ∈ goroutines gd /\ id_at w g = Some i).
  { intros i g Hi%Hel. destruct (Hel0 i g Hi) as [Hemp|Hin]; [|done].
    now rewrite lookup_empty in Hemp. }
  assert (HkC : forall i g, common !! i = Some g ->
                  g ∈ goroutines another /\ id_at w g = Some i).
  { intros i g Hi. destruct (Hec i g Hi) as [Hemp|Hin]; [|done].
    now rewrite lookup_empty in Hemp. }
  assert (HkR : forall i g, ronly !! i = Some g ->
                  g ∈ goroutines another /\ id_at w g = Some i).
  { intros i g Hi. destruct (Her i g Hi) as [Hemp|Hin]; [|done].
    now rewrite lookup_empty in Hemp. }
  destruct (from_map_ids w lonly ol) as (HiA & HsA & HgA);
    [intros i g Hi; now apply HkL | done|].
  destruct (from_map_ids w common oc) as (HiC & HsC & HgC);
    [intros i g Hi; now apply HkC | done|].
  destruct (from_map_ids w ronly or) as (HiB & HsB & HgB);
    [intros i g Hi; now apply HkR | done|].
  eexists _, _, _. split.
  { unfold Diff, mbind, M_bind, Mbind.
    unfold Diff_maps, mbind, M_bind, Mbind. rewrite Hleft, Hright. reflexivity. }
  cbn zeta. rewrite HsA, HsC, HsB, HiA, HiC, HiB, Hdl, Hdc, Hdr, Hdl0.
  split; [set_solver|]. split; [set_solver|]. split; [set_solver|].
  split.
  { apply set_eq. intros i.
    destruct (decide (i ∈ ids_set w (goroutines gd)));
      destruct (decide (i ∈ ids_set w (goroutines another))); set_solver. }
  split; [set_solver|]. split; [set_solver|]. split; [set_solver|].
  split; [now apply range_order_dom in Hol|].
  split; [now apply range_order_dom in Hoc|].
  split; [now apply range_order_dom in Hor|].
  split; [|split].
  - intros g [i Hi]%HgA. now apply HkL in Hi.
  - intros g [i Hi]%HgC. now apply HkC in Hi.
  - intros g [i Hi]%HgB. now apply HkR in Hi.
Qed.

End DiffFacts.

Lemma Diff_partition_witness :
  let w := example_world in
  let gd := {| goroutines := [1%positive; 3%positive] |} in
  let another := {| goroutines := [2%positive] |} in
  exists lonly common ronly,
    Diff_maps gd another w = Done ((lonly, common, ronly), w)
    /\ exists onlyInL both onlyInR,
         Diff (map_to_list lonly).*1 (map_to_list common).*1 (map_to_list ronly).*1
           gd another w
         = Done ((onlyInL, both, onlyInR), w)
         /\ ids_set w (goroutines onlyInL)
            = ids_set w (goroutines gd) ∖ ids_set w (goroutines another)
         /\ ids_set w (goroutines both)
            = ids_set w (goroutines gd) ∩ ids_set w (goroutines another)
         /\ (forall g, g ∈ goroutines both -> g ∈ goroutines another).
Proof.
  intros w gd another.
  destruct (Diff_partition gd another w)
    as (lonly & common & ronly & Hmaps & Hdiff).
  - repeat constructor; vm_compute; eauto.
  - repeat constructor; vm_compute; eauto.
  - vm_compute. repeat constructor; rewrite ?elem_of_cons, ?elem_of_nil;
      intuition discriminate.
  - vm_compute. repeat constructor. rewrite elem_of_nil. tauto.
  - exists lonly, common, ronly. split; [exact Hmaps|].
    destruct (Hdiff (map_to_list lonly).*1 (map_to_list common).*1
                (map_to_list ronly).*1)
      as (a & c & b & HD & _ & _ & _ & _ & HA & HC & _ & _ & _ & _ & _ & HgC & _);
      [unfold range_order; reflexivity..|].
    exists a, c, b. auto.
Defined.
(** * Further properties *)

(** ** The record [NewGoroutine] makes *)

Section NewRecord.

Lemma parse_digits_above s0 n s un :
  0 <= n -> Strconv.parse_digits s0 n s = inr un -> n <= un.
Proof.
  revert n. induction s as [|c s IH]; intros n Hn; cbn [Strconv.parse_digits].
  - intros [= <-]. lia.
  - destruct (Regexp.digit c) eqn:Hd; [|discriminate].
    assert (Hc : 0 <= Z.of_nat (nat_of_ascii c) - 48).
    { unfold Regexp.digit in Hd. apply andb_true_iff in Hd as [Hlo _].
      apply Nat.leb_le in Hlo. lia. }
    destruct (Z.ltb _ _); [discriminate|].
    intros Hp. apply IH in Hp; lia.
Qed.

Lemma parse_digits_nonneg s0 s un :
  Strconv.parse_digits s0 0 s = inr un -> 0 <= un.
Proof. intros Hp. now apply parse_digits_above in Hp. Qed.

(** [Atoi] returns values of the type [int] only, and no negative value
    for a text that does not start with a minus sign. *)
Lemma Atoi_range s n :
  Strconv.Atoi s = inr n ->
  - 2 ^ 63 <= n < 2 ^ 63
  /\ (forall c s', s = String c s' -> c <> "-"%char -> 0 <= n).
Proof.
  unfold Strconv.Atoi. destruct s as [|c s']; [discriminate|].
  set (neg := Ascii.eqb c "-").
  destruct (if neg || Ascii.eqb c "+" then s' else String c s') as [|d ds] eqn:Hds;
    [discriminate|].
  destruct (Strconv.parse_digits _ 0 _) as [|un] eqn:Hp; [discriminate|].
  apply parse_digits_nonneg in Hp.
  destruct neg eqn:Hneg; cbn [negb andb].
  - destruct (Z.ltb (2 ^ 63) un) eqn:Hlt; [discriminate|]. apply Z.ltb_ge in Hlt.
    intros [= <-]. split; [lia|]. intros c0 s0 [= <- _] Hc.
    unfold neg in Hneg. apply Ascii.eqb_eq in Hneg. contradiction.
  - destruct (Z.leb (2 ^ 63) un) eqn:Hle; [discriminate|]. apply Z.leb_gt in Hle.
    intros [= <-]. split; lia.
Qed.

Lemma Matches_Plus_Class_head p s :
  Regexp.Matches (Regexp.Plus (Regexp.Class p)) s ->
  exists c s', s = String c s' /\ p c = true.
Proof.
  intros (s1 & s2 & -> & H1 & _)%Matches_Cat_inv.
  inversion H1; subst. rewrite str_app_cons. eauto.
Qed.

Lemma digit_not_minus c : Regexp.digit c = true -> c <> "-"%char.
Proof. intros Hd ->. discriminate Hd. Qed.

Lemma parse_duration_result parts metas0 md :
  parse_duration parts metas0 = Done md ->
  0 <= snd md < 2 ^ 63
  /\ (forall k, k <> MetaDuration -> fst md !! k = metas0 !! k).
Proof.
  unfold parse_duration. destruct (Nat.ltb _ _); [|intros [= <-]; cbn; split; [lia|done]].
  set (value := Strings.TrimSpace (nth 1 parts "")).
  assert (Hins : forall k, k <> MetaDuration ->
            <[MetaDuration := value]> metas0 !! k = metas0 !! k).
  { intros k Hk. now rewrite lookup_insert_ne. }
  destruct (Regexp.durationPattern_MatchString value) eqn:Hm;
    [|intros [= <-]; cbn; split; [lia|done]].
  unfold mbind, outcome_bind, obind.
  destruct (slice value 0 _) as [v|] eqn:Hv; [|discriminate].
  destruct (Strconv.Atoi v) as [|d] eqn:Hd; intros [= <-]; cbn [fst snd];
    (split; [|done]); [lia|].
  apply Atoi_range in Hd as [Hr Hpos]. split; [|lia].
  apply full_match_spec, Matches_Cat_inv in Hm as (ds & tl & Heq & Hds & ->%Matches_Lit).
  unfold slice in Hv. destruct (_ && _); [|discriminate]. injection Hv as Hv.
  rewrite Heq in Hv. unfold Strings.len in Hv.
  rewrite str_length_app in Hv. cbn [String.length] in Hv.
  replace (Z.to_nat (Z.of_nat (String.length ds + 8) - 8 - 0)) with (String.length ds)
    in Hv by lia.
  cbn [Z.to_nat Strings.drop] in Hv.
  rewrite str_take_app_length in Hv. subst v.
  apply Matches_Plus_Class_head in Hds as (c & s' & -> & Hc).
  eapply Hpos; [reflexivity|]. now apply digit_not_minus.
Qed.

End NewRecord.

(** X1. A record made by [NewGoroutine] has the line as its header, counts
    one line, is not finalized, has empty bodies, no fingerprint and no
    duplicates; it has a state; its duration is not negative, and its
    duration and identity are in the range of [int]. *)
Theorem NewGoroutine_record (metaline : string) (g : Goroutine) :
  NewGoroutine metaline = Done (inr g) ->
  header g = metaline /\ lines g = 1 /\ frozen g = false
  /\ buf g = "" /\ bufScrubbed g = "" /\ scrubbedHash g = "" /\ duplicates g = []
  /\ is_Some (metas g !! MetaState)
  /\ 0 <= duration g < 2 ^ 63
  /\ - 2 ^ 63 <= id g < 2 ^ 63.
Proof.
  unfold NewGoroutine, mbind, outcome_bind, obind.
  destruct (slice metaline _ _) as [inner|]; [|discriminate].
  destruct (parse_duration _ _) as [md|] eqn:Hmd; [|discriminate].
  destruct (slice metaline 9 _) as [prefix|]; [|discriminate].
  destruct (Strconv.Atoi _) as [|n] eqn:Hn; [discriminate|].
  intros [= <-]. cbn.
  apply parse_duration_result in Hmd as [Hd Hm].
  apply Atoi_range in Hn as [Hn _].
  repeat split; try lia.
  rewrite Hm by discriminate. rewrite lookup_singleton_eq. eauto.
Qed.

Lemma NewGoroutine_record_witness :
  let g := record_of "goroutine 12 [chan receive, 3 minutes]:" in
  header g = "goroutine 12 [chan receive, 3 minutes]:" /\ lines g = 1
  /\ frozen g = false
  /\ buf g = "" /\ bufScrubbed g = "" /\ scrubbedHash g = "" /\ duplicates g = []
  /\ is_Some (metas g !! MetaState)
  /\ 0 <= duration g < 2 ^ 63
  /\ - 2 ^ 63 <= id g < 2 ^ 63.
Proof.
  intros g.
  apply (NewGoroutine_record "goroutine 12 [chan receive, 3 minutes]:").
  vm_compute. reflexivity.
Defined.

(** ** What [AddLine] accumulates *)

Section Accumulation.

Lemma int_wrap_small z : - 2 ^ 63 <= z < 2 ^ 63 -> int_wrap z = z.
Proof. intros Hz. unfold int_wrap. rewrite Z.mod_small; lia. Qed.

Lemma AddLine_fields l g :
  frozen g = false ->
  let g' := fst (AddLine l g) in
  frozen g' = false
  /\ lines g' = int_wrap (lines g + 1)
  /\ buf g' = buf g +:+ l +:+ newline
  /\ bufScrubbed g' = bufScrubbed g +:+ scrub l
  /\ id g' = id g /\ header g' = header g /\ duration g' = duration g
  /\ metas g' = metas g /\ duplicates g' = duplicates g
  /\ scrubbedHash g' = scrubbedHash g /\ fullHasher g' = fullHasher g.
Proof.
  intros Hf. unfold AddLine. rewrite Hf.
  destruct (_ && _); cbn; auto 12.
Qed.

End Accumulation.

(** X2. On a record that is not finalized, [AddLine] for each of the lines
    [ls] adds their number to [lines] (as long as the count stays in the
    range of [int]), appends each line and a newline to the raw body, and
    leaves identity, header, duration, attributes and duplicates alone;
    this holds for every line, also for those reported as ignored. *)
Theorem AddLines_accounting (ls : list string) (g : Goroutine) :
  frozen g = false ->
  - 2 ^ 63 <= lines g ->
  lines g + Z.of_nat (length ls) < 2 ^ 63 ->
  lines (AddLines ls g) = lines g + Z.of_nat (length ls)
  /\ buf (AddLines ls g) = buf g +:+ raw_body ls
  /\ bufScrubbed (AddLines ls g) = bufScrubbed g +:+ scrubbed_body ls
  /\ frozen (AddLines ls g) = false
  /\ id (AddLines ls g) = id g /\ header (AddLines ls g) = header g
  /\ duration (AddLines ls g) = duration g /\ metas (AddLines ls g) = metas g
  /\ duplicates (AddLines ls g) = duplicates g.
Proof.
  revert g. induction ls as [|l ls IH]; intros g Hf Hlo Hhi.
  - cbn. rewrite !str_app_nil_r. repeat split; try done; lia.
  - destruct (AddLine_fields l g Hf)
      as (Hf' & Hl & Hb & Hs & Hid & Hh & Hd & Hm & Hdu & _).
    cbn [length] in Hhi.
    rewrite int_wrap_small in Hl by lia.
    change (AddLines (l :: ls) g) with (AddLines ls (fst (AddLine l g))).
    destruct (IH (fst (AddLine l g)) Hf') as (IHl & IHb & IHs & IHf & IHr);
      [lia | lia|].
    rewrite IHl, IHb, IHs, Hl, Hb, Hs, <- Hid, <- Hh, <- Hd, <- Hm, <- Hdu.
    cbn [raw_body scrubbed_body fold_right length].
    rewrite !str_app_assoc. repeat split; try tauto; lia.
Qed.

Lemma AddLines_accounting_witness :
  let g := record_of "goroutine 1 [running]:" in
  let ls := ["main.foo(0x1)"; String "009" "/src/main.go:12"] in
  lines (AddLines ls g) = lines g + Z.of_nat (length ls)
  /\ buf (AddLines ls g) = buf g +:+ raw_body ls
  /\ bufScrubbed (AddLines ls g) = bufScrubbed g +:+ scrubbed_body ls
  /\ frozen (AddLines ls g) = false
  /\ id (AddLines ls g) = id g /\ header (AddLines ls g) = header g
  /\ duration (AddLines ls g) = duration g /\ metas (AddLines ls g) = metas g
  /\ duplicates (AddLines ls g) = duplicates g.
Proof.
  intros g ls. apply (AddLines_accounting ls g).
  - vm_compute. reflexivity.
  - vm_compute. discriminate.
  - vm_compute. reflexivity.
Defined.

(** ** Fingerprints and scrubbed lines *)

Section ScrubbedLines.

Lemma scrub_stem l : scrub l = stem l +:+ newline.
Proof.
  unfold scrub, stem. destruct (Regexp.lineWithArgs_MatchString l); [|reflexivity].
  now rewrite str_app_assoc.
Qed.

Lemma occurs_take c n s : occurs c (Strings.take n s) = true -> occurs c s = true.
Proof.
  revert n. induction s as [|a s IH]; intros [|n]; cbn; try discriminate.
  intros [Ha|Hs]%orb_true_iff; apply orb_true_iff; [now left | right; eauto].
Qed.

Lemma stem_no_newline l :
  occurs newline_byte l = false -> occurs newline_byte (stem l) = false.
Proof.
  intros Hl. unfold stem, Regexp.lineWithArgs_Split.
  destruct (Regexp.lineWithArgs_MatchString l); [|exact Hl].
  destruct (Regexp.find_to_end _ l) as [i|]; cbn [nth].
  - rewrite occurs_app. apply orb_false_iff. split; [|reflexivity].
    destruct (occurs _ (Strings.take i l)) eqn:Ho; [|reflexivity].
    apply occurs_take in Ho. congruence.
  - rewrite occurs_app, Hl. reflexivity.
Qed.

(** Two texts that start with a line and its newline have the same first
    line and the same rest. *)
Lemma terminated_inj x y A B :
  occurs newline_byte x = false -> occurs newline_byte y = false ->
  x +:+ newline +:+ A = y +:+ newline +:+ B -> x = y /\ A = B.
Proof.
  assert (Hnl : forall T, newline +:+ T = String newline_byte T) by reflexivity.
  revert y. induction x as [|a x IH]; intros [|b y] Hx Hy Heq;
    rewrite ?str_app_nil_l, ?str_app_cons, ?Hnl in Heq.
  - injection Heq as ->. auto.
  - injection Heq as <- _. cbn in Hy. discriminate.
  - injection Heq as -> _. cbn in Hx. discriminate.
  - injection Heq as -> Heq.
    cbn in Hx, Hy. apply orb_false_iff in Hx as [_ Hx], Hy as [_ Hy].
    destruct (IH y Hx Hy Heq) as [-> ->]. auto.
Qed.

Lemma scrubbed_body_cons l ls :
  scrubbed_body (l :: ls) = stem l +:+ newline +:+ scrubbed_body ls.
Proof.
  unfold scrubbed_body. cbn [fold_right]. now rewrite scrub_stem, str_app_assoc.
Qed.

Lemma scrubbed_body_inj las lbs :
  Forall (fun l => occurs newline_byte l = false) las ->
  Forall (fun l => occurs newline_byte l = false) lbs ->
  scrubbed_body las = scrubbed_body lbs -> map stem las = map stem lbs.
Proof.
  intros Ha. revert lbs. induction Ha as [|la las Hla _ IH]; intros lbs Hb Heq.
  - destruct Hb as [|lb lbs Hlb _]; [reflexivity|].
    rewrite scrubbed_body_cons in Heq. cbn in Heq.
    destruct (stem lb); discriminate.
  - destruct Hb as [|lb lbs Hlb Hb].
    + rewrite scrubbed_body_cons in Heq. cbn in Heq.
      destruct (stem la); discriminate.
    + rewrite !scrubbed_body_cons in Heq.
      apply terminated_inj in Heq as [Hs Hr]; [|now apply stem_no_newline..].
      cbn [map]. now rewrite Hs, (IH lbs Hb Hr).
Qed.

Lemma scrubbed_body_stems las lbs :
  map stem las = map stem lbs -> scrubbed_body las = scrubbed_body lbs.
Proof.
  revert lbs. induction las as [|la las IH]; intros [|lb lbs]; try discriminate.
  - reflexivity.
  - cbn [map]. intros [= Hs Hr]. rewrite !scrubbed_body_cons, Hs.
    now rewrite (IH lbs Hr).
Qed.

Lemma fingerprint_of_lines metaline g ls :
  NewGoroutine metaline = Done (inr g) ->
  scrubbedHash (Freeze (AddLines ls g))
  = Hex.EncodeToString (scrubbed_body ls +:+ MD5.sum "").
Proof.
  intros (Hf & Hb & Hh & _)%NewGoroutine_fresh.
  destruct (AddLines_unfrozen ls g Hf) as (Hf' & Hb' & Hh').
  rewrite Freeze_unfrozen by done. rewrite Hb', Hh', Hb, Hh. reflexivity.
Qed.

Lemma hex_space_comma_not_dot c :
  Regexp.hex_space_comma c = true -> negb (Ascii.eqb c ".") = true.
Proof. destruct c as [[] [] [] [] [] [] [] []]; vm_compute; congruence. Qed.

Lemma argGroup_no_dot x : Regexp.Matches Regexp.argGroup x -> occurs "." x = false.
Proof.
  intros Hx. destruct (occurs "." x) eqn:Ho; [|reflexivity].
  assert (Hcl : classes_within (fun c => negb (Ascii.eqb c ".")) Regexp.argGroup).
  { unfold Regexp.argGroup, Regexp.Plus. cbn [classes_within Regexp.Lit].
    repeat split; intros c Hc;
      try (apply Ascii.eqb_eq in Hc as <-; reflexivity);
      now apply hex_space_comma_not_dot. }
  pose proof (Matches_classes _ _ _ Hx Hcl _ Ho) as Hn. discriminate.
Qed.

(** A line that ends with the placeholder does not match the pattern. *)
Lemma placeholder_not_matched pre :
  Regexp.find_to_end Regexp.lineWithArgs (pre +:+ "(...)") = None.
Proof.
  induction pre as [|c pre IH]; [vm_compute; reflexivity|].
  rewrite str_app_cons. cbn [Regexp.find_to_end]. rewrite IH.
  destruct (Regexp.full_match _ _) eqn:Hm; [|reflexivity].
  apply full_match_spec, lineWithArgs_inv in Hm as (x & Heq & Hx).
  apply argGroup_no_dot in Hx.
  change ("(" +:+ x +:+ ")") with (String "(" (x +:+ ")")) in Heq.
  injection Heq as _ Heq.
  assert (Ho : occurs "." (x +:+ ")") = true).
  { rewrite <- Heq, occurs_app. apply orb_true_iff. right. reflexivity. }
  rewrite occurs_app, Hx in Ho. discriminate.
Qed.

Lemma stem_placeholder pre : stem (pre +:+ "(...)") = pre +:+ "(...)".
Proof.
  unfold stem, Regexp.lineWithArgs_MatchString. rewrite placeholder_not_matched.
  rewrite bool_decide_eq_false_2; [reflexivity|]. intros [? ?]. discriminate.
Qed.

Lemma stem_cases l : stem l = l \/ exists pre, stem l = pre +:+ "(...)".
Proof.
  unfold stem. destruct (Regexp.lineWithArgs_MatchString l); [right|now left].
  eauto.
Qed.

Lemma stem_idempotent l : stem (stem l) = stem l.
Proof.
  destruct (stem_cases l) as [Hl|[pre Hl]]; rewrite Hl.
  - exact Hl.
  - apply stem_placeholder.
Qed.

End ScrubbedLines.

(** X3. Two finalized records whose body lines hold no newline have the
    same fingerprint exactly when they have as many lines and their lines,
    scrubbed one by one, are the same. *)
Theorem fingerprint_eq_iff_stems (ma mb : string) (ga gb : Goroutine)
    (las lbs : list string) :
  NewGoroutine ma = Done (inr ga) ->
  NewGoroutine mb = Done (inr gb) ->
  Forall (fun l => occurs newline_byte l = false) las ->
  Forall (fun l => occurs newline_byte l = false) lbs ->
  scrubbedHash (Freeze (AddLines las ga)) = scrubbedHash (Freeze (AddLines lbs gb))
  <-> map stem las = map stem lbs.
Proof.
  intros Ha Hb Hna Hnb.
  rewrite (fingerprint_of_lines ma ga las Ha), (fingerprint_of_lines mb gb lbs Hb).
  split.
  - intros Heq%EncodeToString_inj%str_app_inv_tail. now apply scrubbed_body_inj.
  - intros Heq. now rewrite (scrubbed_body_stems las lbs Heq).
Qed.

Lemma fingerprint_eq_iff_stems_witness :
  scrubbedHash (Freeze (AddLines ["main.foo(0x1)"; "main.main()"]
                          (record_of "goroutine 1 [running]:")))
  = scrubbedHash (Freeze (AddLines ["main.foo(0x2)"; "main.main()"]
                            (record_of "goroutine 2 [running]:")))
  <-> map stem ["main.foo(0x1)"; "main.main()"]
      = map stem ["main.foo(0x2)"; "main.main()"].
Proof.
  apply (fingerprint_eq_iff_stems "goroutine 1 [running]:" "goroutine 2 [running]:").
  - vm_compute. reflexivity.
  - vm_compute. reflexivity.
  - repeat constructor.
  - repeat constructor.
Defined.

(** X4. Scrubbing a scrubbed line changes nothing: a record whose body
    lines are the scrubbed lines of another record has the fingerprint of
    that record. *)
Theorem fingerprint_of_scrubbed_lines (ma mb : string) (ga gb : Goroutine)
    (ls : list string) :
  NewGoroutine ma = Done (inr ga) ->
  NewGoroutine mb = Done (inr gb) ->
  scrubbedHash (Freeze (AddLines (map stem ls) gb))
  = scrubbedHash (Freeze (AddLines ls ga))
  /\ Forall (fun l => stem (stem l) = stem l) ls.
Proof.
  intros Ha Hb. split.
  - rewrite (fingerprint_of_lines ma ga ls Ha), (fingerprint_of_lines mb gb _ Hb).
    f_equal. f_equal. apply scrubbed_body_stems.
    rewrite map_map. apply map_ext. intros l. apply stem_idempotent.
  - apply Forall_forall. intros l _. apply stem_idempotent.
Qed.

Lemma fingerprint_of_scrubbed_lines_witness :
  scrubbedHash (Freeze (AddLines (map stem ["main.foo(0x1, 0x2)"; "main.main()"])
                          (record_of "goroutine 2 [running]:")))
  = scrubbedHash (Freeze (AddLines ["main.foo(0x1, 0x2)"; "main.main()"]
                            (record_of "goroutine 1 [running]:"))).
Proof.
  apply (fingerprint_of_scrubbed_lines
           "goroutine 1 [running]:" "goroutine 2 [running]:").
  - vm_compute. reflexivity.
  - vm_compute. reflexivity.
Defined.

(** ** [scrubHeader] *)

Section HeaderScrubbing.

Lemma replace_digit_runs_no_digit b s c :
  occurs c (Regexp.replace_digit_runs b s) = true -> Regexp.digit c = false.
Proof.
  revert b. induction s as [|a s IH]; intros b; cbn [Regexp.replace_digit_runs].
  - discriminate.
  - destruct (Regexp.digit a) eqn:Ha.
    + destruct b; [apply IH|]. cbn [occurs].
      intros [Hc|Hc]%orb_true_iff; [|now apply IH in Hc].
      apply Ascii.eqb_eq in Hc as <-. reflexivity.
    + cbn [occurs]. intros [Hc|Hc]%orb_true_iff; [|now apply IH in Hc].
      apply Ascii.eqb_eq in Hc as <-. exact Ha.
Qed.

(** A text without digits is left as it is, whatever came before it. *)
Lemma replace_digit_runs_fixed b s :
  (forall c, occurs c s = true -> Regexp.digit c = false) ->
  Regexp.replace_digit_runs b s = s.
Proof.
  revert b. induction s as [|a s IH]; intros b Hs; [reflexivity|].
  cbn [Regexp.replace_digit_runs].
  rewrite (Hs a) by (cbn; now rewrite Ascii.eqb_refl).
  rewrite IH; [reflexivity|]. intros c Hc. apply Hs. cbn. rewrite Hc.
  apply orb_true_r.
Qed.

End HeaderScrubbing.

(** X5. The scrubbed header has no decimal digit, scrubbing it again
    changes nothing, and a header without digits is its own scrubbed
    header. *)
Theorem scrubHeader_no_digits (s : string) :
  (forall c, occurs c (scrubHeader s) = true -> Regexp.digit c = false)
  /\ scrubHeader (scrubHeader s) = scrubHeader s
  /\ ((forall c, occurs c s = true -> Regexp.digit c = false) -> scrubHeader s = s).
Proof.
  unfold scrubHeader. split; [|split].
  - intros c. apply replace_digit_runs_no_digit.
  - apply replace_digit_runs_fixed. intros c. apply replace_digit_runs_no_digit.
  - apply replace_digit_runs_fixed.
Qed.

Lemma scrubHeader_no_digits_witness :
  scrubHeader "goroutine [running]:" = "goroutine [running]:".
Proof.
  apply (scrubHeader_no_digits "goroutine [running]:").
  intros c Hc. destruct c as [[] [] [] [] [] [] [] []];
    first [reflexivity | discriminate Hc].
Defined.

(** ** The filters again: idempotence, [Copy] and [Search] *)

Section FilterMore.

Context `{CaseMapping} `{Evaluable E}.

Lemma filter_filter_same {A : Type} (f : A -> bool) (l : list A) :
  List.filter f (List.filter f l) = List.filter f l.
Proof.
  induction l as [|x l IH]; [reflexivity|].
  cbn [List.filter]. destruct (f x) eqn:Hf; [|exact IH].
  cbn [List.filter]. now rewrite Hf, IH.
Qed.

Lemma filter_sublist {A : Type} (f : A -> bool) (l : list A) :
  List.filter f l `sublist_of` l.
Proof.
  induction l as [|x l IH]; [constructor|].
  cbn [List.filter]. destruct (f x); now constructor.
Qed.

Lemma decides_filter (w w' : World) (e : E) (f : ptr -> bool) gs :
  heap w' = heap w -> Forall (decides w e) gs ->
  Forall (decides w' e) (List.filter f gs).
Proof.
  intros Hheap Hall. apply Forall_forall. intros g Hg%list_elem_of_In.
  apply filter_In in Hg as [Hg%list_elem_of_In _].
  rewrite Forall_forall in Hall. destruct (Hall g Hg) as [b Hb].
  exists b. unfold eval_at in *. now rewrite Hheap.
Qed.

(** X6. For a condition that compiles and gives a boolean on every record,
    [Keep] and [Delete] leave a subsequence of the collection, and a second
    [Keep] (or [Delete]) with the same condition leaves what the first one
    left. *)
Theorem filter_idempotent (cond : string) (e : E) (gd : GoroutineDump)
    (w : World) :
  NewEvaluableExpressionWithFunctions (Strings.Trim cond double_quote) functions
  = inr e ->
  Forall (decides w e) (goroutines gd) ->
  exists kept deleted wk wk' wd wd',
    Keep cond gd w = Done ((None, {| goroutines := kept |}), wk)
    /\ Keep cond {| goroutines := kept |} wk
       = Done ((None, {| goroutines := kept |}), wk')
    /\ Delete cond gd w = Done ((None, {| goroutines := deleted |}), wd)
    /\ Delete cond {| goroutines := deleted |} wd
       = Done ((None, {| goroutines := deleted |}), wd')
    /\ kept `sublist_of` goroutines gd
    /\ deleted `sublist_of` goroutines gd
    /\ heap wk' = heap w /\ heap wd' = heap w.
Proof.
  intros Hc Hall.
  pose proof (withCondition_decided (fun b => b) w cond e gd Hc Hall) as HK.
  pose proof (withCondition_decided negb w cond e gd Hc Hall) as HD.
  cbn zeta in HK, HD.
  set (kept := List.filter (fun g => passes w e g) (goroutines gd)) in *.
  set (deleted := List.filter (fun g => negb (passes w e g)) (goroutines gd)) in *.
  set (wk := printed w _) in HK. set (wd := printed w _) in HD.
  assert (Hallk : Forall (decides wk e) (goroutines {| goroutines := kept |}))
    by now apply (decides_filter w).
  assert (Halld : Forall (decides wd e) (goroutines {| goroutines := deleted |}))
    by now apply (decides_filter w).
  pose proof (withCondition_decided (fun b => b) wk cond e _ Hc Hallk) as HK2.
  pose proof (withCondition_decided negb wd cond e _ Hc Halld) as HD2.
  cbn zeta in HK2, HD2. cbn [goroutines] in HK2, HD2.
  assert (Hk2 : List.filter (fun g => passes wk e g) kept = kept).
  { unfold kept. rewrite <- (filter_filter_same (fun g => passes w e g)) at 2.
    apply filter_ext. intros g. reflexivity. }
  assert (Hd2 : List.filter (fun g => negb (passes wd e g)) deleted = deleted).
  { unfold deleted.
    rewrite <- (filter_filter_same (fun g => negb (passes w e g))) at 2.
    apply filter_ext. intros g. reflexivity. }
  rewrite Hk2 in HK2. rewrite Hd2 in HD2.
  eexists kept, deleted, wk, _, wd, _.
  split; [rewrite Keep_unfold; unfold mbind, M_bind, Mbind; rewrite HK; reflexivity|].
  split; [rewrite Keep_unfold; unfold mbind, M_bind, Mbind; rewrite HK2; reflexivity|].
  split; [rewrite Delete_unfold; unfold mbind, M_bind, Mbind; rewrite HD; reflexivity|].
  split; [rewrite Delete_unfold; unfold mbind, M_bind, Mbind; rewrite HD2; reflexivity|].
  split; [apply filter_sublist|]. split; [apply filter_sublist|].
  split; reflexivity.
Qed.

(** X7. With a condition that is not the empty text, [Copy] does what
    [Keep] does, into a new collection: it returns the records [Keep] would
    leave and prints the same; where [Keep] returns an error, [Copy] prints
    it and returns [nil]; where [Keep] panics, so does [Copy]. *)
Theorem Copy_as_Keep (cond : string) (gd : GoroutineDump) (w : World) :
  cond <> "" ->
  match Keep cond gd w with
  | Done ((None, gd'), w') => Copy cond gd w = Done (Some gd', w')
  | Done ((Some err, _), w') =>
      Copy cond gd w = Done (None, printed w' [OutPrintln [AError err]])
  | Panics p => Copy cond gd w = Panics p
  end.
Proof.
  intros Hne. unfold Copy, Keep.
  destruct (String.eqb cond "") eqn:Heq; [now apply String.eqb_eq in Heq|].
  unfold mbind, M_bind, Mbind.
  destruct (withCondition cond _ tt gd w) as [[[[err|kept] []] w']|p]; reflexivity.
Qed.

End FilterMore.

Lemma filter_idempotent_witness :
  exists kept deleted wk wk' wd wd',
    @Keep Mini.ascii_case _ Mini.evaluable "contains(trace, 'Mutex')"
      example_dump example_world
    = Done ((None, {| goroutines := kept |}), wk)
    /\ @Keep Mini.ascii_case _ Mini.evaluable "contains(trace, 'Mutex')"
         {| goroutines := kept |} wk
       = Done ((None, {| goroutines := kept |}), wk')
    /\ @Delete Mini.ascii_case _ Mini.evaluable "contains(trace, 'Mutex')"
         example_dump example_world
       = Done ((None, {| goroutines := deleted |}), wd)
    /\ @Delete Mini.ascii_case _ Mini.evaluable "contains(trace, 'Mutex')"
         {| goroutines := deleted |} wd
       = Done ((None, {| goroutines := deleted |}), wd')
    /\ kept `sublist_of` goroutines example_dump
    /\ deleted `sublist_of` goroutines example_dump
    /\ heap wk' = heap example_world /\ heap wd' = heap example_world.
Proof.
  apply (@filter_idempotent Mini.ascii_case _ Mini.evaluable
           "contains(trace, 'Mutex')"
           (Mini.ECall "contains" contains [Mini.EVar "trace"; Mini.EString "Mutex"])).
  - vm_compute. reflexivity.
  - repeat constructor.
    + exists true. vm_compute. reflexivity.
    + exists false. vm_compute. reflexivity.
    + exists false. vm_compute. reflexivity.
Defined.

Lemma Copy_as_Keep_witness :
  @Copy Mini.ascii_case _ Mini.evaluable "contains(trace, 'Mutex')"
    example_dump example_world
  = Done (Some {| goroutines := [1%positive] |},
          printed example_world
            [OutPrintf "Deleted %d goroutines, kept %d.\n" [AInt 2; AInt 1]]).
Proof.
  pose proof (@Copy_as_Keep Mini.ascii_case _ Mini.evaluable
                "contains(trace, 'Mutex')" example_dump example_world) as HC.
  assert (HK : @Keep Mini.ascii_case _ Mini.evaluable "contains(trace, 'Mutex')"
                 example_dump example_world
               = Done ((None, {| goroutines := [1%positive] |}),
                       printed example_world
                         [OutPrintf "Deleted %d goroutines, kept %d.\n"
                            [AInt 2; AInt 1]]))
    by (vm_compute; reflexivity).
  rewrite HK in HC. apply HC. discriminate.
Defined.

(** ** [Search] *)

Section SearchFacts.

Context `{CaseMapping} `{Evaluable E}.

Lemma printed_nil w : printed w [] = w.
Proof. destruct w. unfold printed. cbn. now rewrite app_nil_r. Qed.

Lemma printed_printed w out1 out2 :
  printed (printed w out1) out2 = printed w (out1 ++ out2).
Proof. unfold printed. cbn. now rewrite app_assoc. Qed.

Lemma printed_records_cons w g gs r :
  heap w !! g = Some r ->
  printed_records w (g :: gs) = PrintWithColor r ++ printed_records w gs.
Proof. intros Hr. unfold printed_records. cbn [omap list_omap]. now rewrite Hr. Qed.

(** The window of [Search] is a segment of the matches. *)
Lemma in_window_segment offset limit count (gs : list ptr) :
  0 <= count -> 0 <= offset -> 0 <= limit ->
  in_window offset limit count gs
  = take (Z.to_nat (offset + limit - Z.max count offset))
      (drop (Z.to_nat (offset - count)) gs).
Proof.
  revert count. induction gs as [|g gs IH]; intros count Hc Ho Hl.
  - now rewrite drop_nil, take_nil.
  - cbn [in_window]. rewrite IH by lia.
    destruct (Z.leb offset count) eqn:Hle; cbn [andb].
    + apply Z.leb_le in Hle.
      replace (Z.to_nat (offset - count)) with 0%nat by lia.
      replace (Z.to_nat (offset - (count + 1))) with 0%nat by lia.
      rewrite !drop_0.
      destruct (Z.ltb count (offset + limit)) eqn:Hlt.
      * apply Z.ltb_lt in Hlt.
        replace (Z.to_nat (offset + limit - Z.max count offset))
          with (S (Z.to_nat (offset + limit - Z.max (count + 1) offset))) by lia.
        reflexivity.
      * apply Z.ltb_ge in Hlt.
        replace (Z.to_nat (offset + limit - Z.max count offset)) with 0%nat by lia.
        replace (Z.to_nat (offset + limit - Z.max (count + 1) offset))
          with 0%nat by lia.
        reflexivity.
    + apply Z.leb_gt in Hle.
      replace (Z.to_nat (offset - count))
        with (S (Z.to_nat (offset - (count + 1)))) by lia.
      cbn [drop]. do 2 f_equal. lia.
Qed.

Lemma search_loop (e : E) offset limit i gs acc count w :
  Forall (decides w e) gs ->
  0 <= offset -> 0 <= limit -> offset + limit < 2 ^ 63 ->
  0 <= count -> count + Z.of_nat (length gs) < 2 ^ 63 ->
  withCondition_loop e (searching offset limit) i gs acc count w
  = Done ((inr acc,
           count + Z.of_nat (length (List.filter (passes w e) gs))),
          printed w
            (printed_records w
               (in_window offset limit count (List.filter (passes w e) gs)))).
Proof.
  intros Hall Ho Hl Hol. revert i count w Hall.
  induction gs as [|g gs IH]; intros i count w Hall Hc Hlen.
  - cbn. rewrite printed_nil, Z.add_0_r. reflexivity.
  - apply Forall_cons in Hall as [[b Hb] Hall]. cbn [length] in Hlen.
    assert (Hp : passes w e g = b) by (unfold passes; rewrite Hb; now destruct b).
    cbn [withCondition_loop List.filter]. rewrite Hp.
    unfold eval_at in Hb. unfold mbind, M_bind, Mbind, deref, lift.
    destruct (heap w !! g) as [r|] eqn:Hr; [|discriminate]. rewrite Hb.
    unfold searching at 1. destruct b.
    + rewrite !int_wrap_small by lia.
      cbn [in_window length].
      destruct (Z.leb offset count && Z.ltb count (offset + limit)) eqn:Hwin.
      * unfold mbind, M_bind, Mbind, deref, emit, mret, M_ret, Mret. rewrite Hr.
        cbn [fst snd].
        change ({| heap := heap w; stdout := stdout w ++ PrintWithColor r |})
          with (printed w (PrintWithColor r)).
        rewrite (IH _ (count + 1) (printed w (PrintWithColor r)))
          by (first [exact Hall | lia]).
        change (passes (printed w (PrintWithColor r)) e) with (passes w e).
        change (printed_records (printed w (PrintWithColor r)))
          with (printed_records w).
        rewrite printed_printed, (printed_records_cons _ _ _ _ Hr).
        do 3 f_equal. lia.
      * unfold mbind, M_bind, Mbind, mret, M_ret, Mret. cbn [fst snd].
        rewrite (IH _ (count + 1) w) by (first [exact Hall | lia]).
        do 3 f_equal. lia.
    + unfold mret, M_ret, Mret. cbn [fst snd].
      rewrite (IH _ count w) by (first [exact Hall | lia]). reflexivity.
Qed.

(** X8. For a condition that compiles and gives a boolean on every record,
    with an offset and a limit that are not negative and a sum in the range
    of [int], [Search] prints its heading, then the matching records from
    the one of rank [offset] on, at most [limit] of them and in the order
    of the collection, then a count that reports every record as deleted
    and none as kept; it changes no record. *)
Theorem Search_window (cond : string) (e : E) (offset limit : Z)
    (gd : GoroutineDump) (w : World) :
  NewEvaluableExpressionWithFunctions (Strings.Trim cond double_quote) functions
  = inr e ->
  Forall (decides w e) (goroutines gd) ->
  0 <= offset -> 0 <= limit -> offset + limit < 2 ^ 63 ->
  Z.of_nat (length (goroutines gd)) < 2 ^ 63 ->
  Search cond offset limit gd w
  = Done (tt,
          printed w
            ([OutSgrPrintf "[fg-green]Search with offset %d and limit %d.[reset]\n\n"
                [AInt offset; AInt limit]]
             ++ printed_records w
                  (take (Z.to_nat limit)
                     (drop (Z.to_nat offset)
                        (List.filter (passes w e) (goroutines gd))))
             ++ [OutPrintf "Deleted %d goroutines, kept %d.\n"
                   [AInt (Z.of_nat (length (goroutines gd))); AInt 0]])).
Proof.
  intros Hc Hall Ho Hl Hol Hlen.
  rewrite Search_unfold. unfold mbind, M_bind, Mbind. cbn [emit].
  change ({| heap := heap w; stdout := stdout w ++ ?out |}) with (printed w out).
  set (w0 := printed w _).
  unfold withCondition. rewrite Hc. unfold mbind, M_bind, Mbind.
  rewrite (search_loop e offset limit 0 (goroutines gd) [] 0 w0)
    by (first [exact Hall | lia]).
  cbn [fst snd emit length].
  change (passes w0 e) with (passes w e).
  change (printed_records w0) with (printed_records w).
  rewrite (in_window_segment offset limit 0) by lia.
  replace (Z.to_nat (offset + limit - Z.max 0 offset)) with (Z.to_nat limit) by lia.
  replace (Z.to_nat (offset - 0)) with (Z.to_nat offset) by lia.
  unfold mret, M_ret, Mret. unfold w0.
  change ({| heap := heap ?x; stdout := stdout ?x ++ ?out |}) with (printed x out).
  rewrite !printed_printed, Z.sub_0_r. reflexivity.
Qed.

End SearchFacts.

Lemma Search_window_witness :
  @Search Mini.ascii_case _ Mini.evaluable "contains(state, 'chan')" 1 5
    example_dump example_world
  = Done (tt,
          printed example_world
            ([OutSgrPrintf "[fg-green]Search with offset %d and limit %d.[reset]\n\n"
                [AInt 1; AInt 5]]
             ++ printed_records example_world [3%positive]
             ++ [OutPrintf "Deleted %d goroutines, kept %d.\n" [AInt 3; AInt 0]])).
Proof.
  rewrite (@Search_window Mini.ascii_case _ Mini.evaluable
             "contains(state, 'chan')"
             (Mini.ECall "contains" contains
                [Mini.EVar "state"; Mini.EString "chan"])).
  - vm_compute. reflexivity.
  - vm_compute. reflexivity.
  - repeat constructor.
    + exists false. vm_compute. reflexivity.
    + exists true. vm_compute. reflexivity.
    + exists true. vm_compute. reflexivity.
  - lia.
  - lia.
  - lia.
  - vm_compute. reflexivity.
Defined.

(** ** The duplicates [Dedupe] stores *)

Section DedupeDuplicates.

Implicit Types (w : World) (gs : list ptr).

Lemma length_ids_of w gs : allocated w gs -> length (ids_of w gs) = length gs.
Proof.
  induction 1 as [|g gs [r Hr] _ IH]; [reflexivity|].
  rewrite (ids_of_cons _ _ _ _ Hr). cbn [length]. now rewrite IH.
Qed.

Lemma concat_map_insert (G : string -> list Z) (h0 : string) (i : Z)
    (order : list string) :
  NoDup order -> h0 ∈ order ->
  concat (map (fun h => if bool_decide (h0 = h) then i :: G h else G h) order)
  ≡ₚ i :: concat (map G order).
Proof.
  induction order as [|h order IH]; intros Hnd Hin.
  { now apply elem_of_nil in Hin. }
  apply NoDup_cons in Hnd as [Hh Hnd]. cbn [map concat].
  case_bool_decide as Heq.
  - subst h. cbn [app]. constructor. apply Permutation_app_head.
    assert (Hsame : map (fun h => if bool_decide (h0 = h) then i :: G h else G h) order
                    = map G order).
    { apply map_ext_in. intros h Hh'%list_elem_of_In.
      rewrite bool_decide_eq_false_2; [reflexivity|]. now intros <-. }
    now rewrite Hsame.
  - apply elem_of_cons in Hin as [->|Hin]; [done|].
    rewrite (IH Hnd Hin). symmetry. apply Permutation_middle.
Qed.

(** The groups of the fingerprints, one after the other, hold every
    identity of the collection once for each of its records. *)
Lemma concat_groups w gs (order : list string) :
  allocated w gs -> NoDup order ->
  (forall h, h ∈ hashes_of w gs -> h ∈ order) ->
  concat (map (fun h => group_ids w h gs) order) ≡ₚ ids_of w gs.
Proof.
  intros Hall Hnd. induction Hall as [|g gs [r Hr] _ IH]; intros Hin.
  - clear. induction order as [|h order IH]; [reflexivity|]. exact IH.
  - assert (Hg : hash_at w g = Some (scrubbedHash r)) by (unfold hash_at; now rewrite Hr).
    rewrite (hashes_of_cons _ _ _ _ Hg) in Hin.
    assert (Heq : map (fun h => group_ids w h (g :: gs)) order
                  = map (fun h => if bool_decide (scrubbedHash r = h)
                                  then id r :: group_ids w h gs
                                  else group_ids w h gs) order).
    { apply map_ext. intros h. apply (group_ids_cons _ _ _ _ _ Hr). }
    rewrite Heq, concat_map_insert; [|done|apply Hin, list_elem_of_here].
    unfold ids_of. cbn [omap list_omap]. rewrite Hr. cbn. constructor.
    apply IH. intros h Hh. apply Hin. now apply elem_of_cons; right.
Qed.

Lemma duplicates_of_ext w (f : ptr -> list Z) gs :
  (forall g, g ∈ gs -> duplicates <$> heap w !! g = Some (f g)) ->
  duplicates_of w gs = map f gs.
Proof.
  induction gs as [|g gs IH]; intros Hf; [reflexivity|].
  unfold duplicates_of. cbn [omap list_omap map].
  rewrite (Hf g) by apply list_elem_of_here.
  fold (duplicates_of w gs). rewrite IH; [reflexivity|].
  intros g' Hg'. apply Hf. now apply elem_of_cons; right.
Qed.

Lemma hashes_of_map w gs :
  allocated w gs ->
  forall G : string -> list Z,
    map G (hashes_of w gs)
    = map (fun g => G (default "" (hash_at w g))) gs.
Proof.
  intros Hall G. induction Hall as [|g gs [h Hh]%allocated_hash _ IH]; [reflexivity|].
  rewrite (hashes_of_cons _ _ _ _ Hh). cbn [map]. now rewrite IH, Hh.
Qed.

(** One run of [Dedupe], with the records it keeps. *)
Lemma Dedupe_kept (order : list string) (gd : GoroutineDump) (w : World) :
  allocated w (goroutines gd) ->
  range_order (groups (keyed w (goroutines gd)) ∅) order ->
  exists gd' w',
    Dedupe order gd w = Done (gd', w')
    /\ heap w'
       = heap (range_world (groups (keyed w (goroutines gd)) ∅) order
                 (goroutines gd) w)
    /\ NoDup (hashes_of w (goroutines gd'))
    /\ (forall h, h ∈ hashes_of w (goroutines gd')
                  <-> h ∈ hashes_of w (goroutines gd))
    /\ (forall g, g ∈ goroutines gd' <-> first_of_group w (goroutines gd) g)
    /\ (forall g, g ∈ goroutines gd' ->
          exists r,
            heap w !! g = Some r
            /\ heap w' !! g
               = Some (set_duplicates
                         (group_ids w (scrubbedHash r) (goroutines gd)) r)
            /\ id r ∈ group_ids w (scrubbedHash r) (goroutines gd)).
Proof.
  intros Hall Horder.
  destruct (range_order_keys _ _ _ Hall Horder) as [Hnd Hel].
  destruct (Dedupe_once order gd w Hall Horder)
    as (gd' & w' & HD & Hheap & Hndk & Helk & Hfirst & _ & _).
  exists gd', w'. do 5 (split; [done|]).
  intros g Hg.
  destruct (proj1 (Hfirst g) Hg) as (pre & post & h & Heq & Hgh & Hpre).
  assert (Hf : first_with w h (goroutines gd) = Some g)
    by (apply first_with_Some; eauto).
  assert (Hgin : g ∈ goroutines gd).
  { rewrite Heq. apply elem_of_app. right. apply list_elem_of_here. }
  assert (Hin : h ∈ order).
  { apply Hel, elem_of_hashes_of. eauto. }
  pose proof (range_world_lookup_first
                (groups (keyed w (goroutines gd)) ∅) order _ w h g Hnd Hin Hf)
    as Hw'.
  rewrite <- Hheap in Hw'.
  unfold hash_at in Hgh. destruct (heap w !! g) as [r|] eqn:Hr; [|discriminate].
  injection Hgh as <-.
  rewrite (groups_lookup _ _ _ _ Hall), lookup_empty in Hw'.
  assert (Hidin : id r ∈ group_ids w (scrubbedHash r) (goroutines gd)).
  { unfold group_ids, ids_of. apply list_elem_of_omap. exists g. split.
    - apply list_elem_of_In, filter_In. split; [now apply list_elem_of_In|].
      apply bool_decide_eq_true_2. unfold hash_at. now rewrite Hr.
    - now rewrite Hr. }
  exists r. split; [reflexivity|]. split; [|exact Hidin].
  destruct (group_ids w (scrubbedHash r) (goroutines gd)) as [|i ids];
    [now apply elem_of_nil in Hidin|].
  exact Hw'.
Qed.

(** X9. After [Dedupe] every kept record has as its duplicates the
    identities of the records of the collection with its fingerprint, in
    the order of the collection, its own among them; the other records are
    as they were; and the duplicates of the kept records together are the
    identities of the collection, each as often as there. *)
Theorem Dedupe_duplicates (order : list string) (gd : GoroutineDump)
    (w : World) (m : gmap string (list Z)) :
  allocated w (goroutines gd) ->
  Dedupe_groups (goroutines gd) ∅ w = Done (m, w) ->
  range_order m order ->
  exists gd' w',
    Dedupe order gd w = Done (gd', w')
    /\ (forall g, g ∈ goroutines gd' ->
          exists r,
            heap w !! g = Some r
            /\ heap w' !! g
               = Some (set_duplicates
                         (group_ids w (scrubbedHash r) (goroutines gd)) r)
            /\ id r ∈ group_ids w (scrubbedHash r) (goroutines gd))
    /\ (forall g, g ∉ goroutines gd' -> heap w' !! g = heap w !! g)
    /\ concat (duplicates_of w' (goroutines gd')) ≡ₚ ids_of w (goroutines gd).
Proof.
  intros Hall Hm Horder.
  rewrite (Dedupe_groups_spec _ _ _ Hall) in Hm. injection Hm as <-.
  destruct (range_order_keys _ _ _ Hall Horder) as [Hnd Hel].
  destruct (Dedupe_kept order gd w Hall Horder)
    as (gd' & w' & HD & Hheap & Hndk & Helk & Hfirst & Hkept).
  exists gd', w'. split; [exact HD|]. split; [exact Hkept|]. split.
  - intros g Hg. rewrite Hheap. apply range_world_lookup_other.
    intros h _ Hf. apply Hg, Hfirst.
    apply first_with_Some in Hf as (pre & post & Hf). exists pre, post, h. exact Hf.
  - assert (Hallk : allocated w (goroutines gd')).
    { apply Forall_forall. intros g Hg. destruct (Hkept g Hg) as (r & Hr & _). eauto. }
    rewrite (duplicates_of_ext w'
               (fun g => group_ids w (default "" (hash_at w g)) (goroutines gd))).
    + rewrite <- (hashes_of_map w _ Hallk (fun h => group_ids w h (goroutines gd))).
      assert (Hperm : hashes_of w (goroutines gd') ≡ₚ order).
      { apply NoDup_Permutation; [done..|]. intros h. now rewrite Helk, Hel. }
      rewrite Hperm. apply concat_groups; [done..|]. intros h. apply Hel.
    + intros g Hg. destruct (Hkept g Hg) as (r & Hr & Hr' & _).
      rewrite Hr'. unfold hash_at. rewrite Hr. reflexivity.
Qed.

(** X19. After [Dedupe], what [PrintWithColor] prints for a kept record
    tells the number of the records of the collection with its fingerprint:
    when there are more than one, the scrubbed header, their number, their
    identities in the order of the collection and the scrubbed body; when
    it is the only one, its header and its body as they are.  The parameter
    [dups] of a condition is that number. *)
Theorem Dedupe_then_PrintWithColor (order : list string) (gd : GoroutineDump)
    (w : World) (m : gmap string (list Z)) :
  allocated w (goroutines gd) ->
  Dedupe_groups (goroutines gd) ∅ w = Done (m, w) ->
  range_order m order ->
  exists gd' w',
    Dedupe order gd w = Done (gd', w')
    /\ forall g, g ∈ goroutines gd' ->
         exists r r',
           heap w !! g = Some r /\ heap w' !! g = Some r'
           /\ let same :=
                List.filter
                  (fun g' => bool_decide (hash_at w g' = Some (scrubbedHash r)))
                  (goroutines gd) in
              g ∈ same
              /\ params_of r' !! "dups" = Some (VInt (Z.of_nat (length same)))
              /\ PrintWithColor r'
                 = if Nat.ltb 1 (length same) then
                     [ OutSgrPrintf
                         "[fg-blue]%s[reset] [fg-red]%d[reset] times: [fg-green]%v[reset]\n"
                         [ AString (scrubHeader (header r));
                           AInt (Z.of_nat (length same));
                           AInts (ids_of w same) ];
                       OutPrintln [AString (bufScrubbed r)] ]
                   else
                     [ OutSgrPrintf "[fg-blue]%s[reset]\n" [AString (header r)];
                       OutPrintln [AString (buf r)] ].
Proof.
  intros Hall Hm Horder.
  rewrite (Dedupe_groups_spec _ _ _ Hall) in Hm. injection Hm as <-.
  destruct (Dedupe_kept order gd w Hall Horder)
    as (gd' & w' & HD & _ & _ & _ & Hfirst & Hkept).
  exists gd', w'. split; [exact HD|]. intros g Hg.
  destruct (Hkept g Hg) as (r & Hr & Hr' & _).
  exists r, (set_duplicates (group_ids w (scrubbedHash r) (goroutines gd)) r).
  split; [exact Hr|]. split; [exact Hr'|]. cbn zeta.
  set (same := List.filter _ (goroutines gd)).
  assert (Hlen : length (group_ids w (scrubbedHash r) (goroutines gd)) = length same).
  { unfold group_ids. fold same. apply length_ids_of.
    apply Forall_forall. intros g' Hg'%list_elem_of_In.
    apply filter_In in Hg' as [Hg'%list_elem_of_In _].
    unfold allocated in Hall. rewrite Forall_forall in Hall. now apply Hall. }
  split; [|split].
  - apply list_elem_of_In, filter_In. split.
    + apply list_elem_of_In.
      destruct (proj1 (Hfirst g) Hg) as (pre & post & h & Heq & _).
      rewrite Heq. apply elem_of_app. right. apply list_elem_of_here.
    + apply bool_decide_eq_true_2. unfold hash_at. now rewrite Hr.
  - unfold params_of. rewrite lookup_insert_ne by done.
    rewrite lookup_insert_eq. cbn [duplicates set_duplicates]. now rewrite Hlen.
  - unfold PrintWithColor. cbn [duplicates set_duplicates header bufScrubbed buf].
    rewrite Hlen. reflexivity.
Qed.

End DedupeDuplicates.

Lemma Dedupe_duplicates_witness :
  let m := groups (keyed example_world (goroutines example_dump)) ∅ in
  let order := (map_to_list m).*1 in
  exists gd' w',
    Dedupe order example_dump example_world = Done (gd', w')
    /\ concat (duplicates_of w' (goroutines gd'))
       ≡ₚ ids_of example_world (goroutines example_dump).
Proof.
  intros m order.
  destruct (Dedupe_duplicates order example_dump example_world m)
    as (gd' & w' & HD & _ & _ & Hperm).
  - repeat constructor; vm_compute; eauto.
  - vm_compute. reflexivity.
  - unfold range_order. reflexivity.
  - exists gd', w'. auto.
Defined.

Lemma Dedupe_then_PrintWithColor_witness :
  let m := groups (keyed example_world (goroutines example_dump)) ∅ in
  let order := (map_to_list m).*1 in
  exists gd' w',
    Dedupe order example_dump example_world = Done (gd', w')
    /\ forall g, g ∈ goroutines gd' ->
         exists r', heap w' !! g = Some r'
                    /\ exists n, params_of r' !! "dups" = Some (VInt n).
Proof.
  intros m order.
  destruct (Dedupe_then_PrintWithColor order example_dump example_world m)
    as (gd' & w' & HD & Hall).
  - repeat constructor; vm_compute; eauto.
  - vm_compute. reflexivity.
  - unfold range_order. reflexivity.
  - exists gd', w'. split; [exact HD|]. intros g Hg.
    destruct (Hall g Hg) as (r & r' & _ & Hr' & _ & Hd & _). eauto.
Defined.

(** ** The records [Diff] returns *)

Section DiffRecords.

Implicit Types (w : World) (gs : list ptr).

Lemma elem_of_ids_of w gs i :
  i ∈ ids_of w gs <-> exists g, g ∈ gs /\ id_at w g = Some i.
Proof. unfold ids_of, id_at. apply list_elem_of_omap. Qed.

Lemma elem_of_ids_set w gs i :
  i ∈ ids_set w gs <-> exists g, g ∈ gs /\ id_at w g = Some i.
Proof. unfold ids_set. rewrite elem_of_list_to_set. apply elem_of_ids_of. Qed.

(** In a collection without a repeated identity the identity tells the
    record. *)
Lemma id_at_inj w gs g g' i :
  NoDup (ids_of w gs) -> g ∈ gs -> g' ∈ gs ->
  id_at w g = Some i -> id_at w g' = Some i -> g = g'.
Proof.
  induction gs as [|a gs IH]; intros Hnd Hg Hg' Hi Hi'.
  { now apply elem_of_nil in Hg. }
  unfold ids_of in Hnd. cbn [omap list_omap] in Hnd. fold (ids_of w gs) in Hnd.
  apply elem_of_cons in Hg as [->|Hg]; apply elem_of_cons in Hg' as [->|Hg'].
  - reflexivity.
  - exfalso. unfold id_at in Hi. rewrite Hi in Hnd.
    apply NoDup_cons in Hnd as [Hn _]. apply Hn, elem_of_ids_of. eauto.
  - exfalso. unfold id_at in Hi'. rewrite Hi' in Hnd.
    apply NoDup_cons in Hnd as [Hn _]. apply Hn, elem_of_ids_of. eauto.
  - apply IH; auto.
    destruct (id <$> heap w !! a); [now apply NoDup_cons in Hnd | done].
Qed.

Lemma NoDup_records w gs :
  allocated w gs -> NoDup (ids_of w gs) -> NoDup gs.
Proof.
  induction 1 as [|g gs [r Hr] Hall IH]; intros Hnd; [constructor|].
  rewrite (ids_of_cons _ _ _ _ Hr) in Hnd. apply NoDup_cons in Hnd as [Hn Hnd].
  apply NoDup_cons. split; [|now apply IH].
  intros Hin. apply Hn, elem_of_ids_of. exists g. split; [done|].
  unfold id_at. now rewrite Hr.
Qed.

Lemma NoDup_List_filter {A : Type} (p : A -> bool) (l : list A) :
  NoDup l -> NoDup (List.filter p l).
Proof.
  induction 1 as [|x l Hx Hnd IH]; [constructor|].
  cbn [List.filter]. destruct (p x); [|done].
  constructor; [|done]. intros Hin%list_elem_of_In. apply filter_In in Hin as [Hin _].
  now apply Hx, list_elem_of_In.
Qed.

(** The collection made from a map whose entries are the records of [gs]
    that [p] holds of, under their identities. *)
Lemma from_map_records w (m : gmap Z ptr) (order : list Z) gs
    (p : ptr -> bool) :
  range_order m order ->
  NoDup (ids_of w gs) -> NoDup gs ->
  (forall i g, m !! i = Some g -> g ∈ gs /\ id_at w g = Some i) ->
  (forall g, g ∈ gs ->
     exists i, id_at w g = Some i /\ (is_Some (m !! i) <-> p g = true)) ->
  goroutines (NewGoroutineDumpFromMap order m) ≡ₚ List.filter p gs.
Proof.
  intros Hord Hnd Hndg Hk Hp.
  destruct (range_order_dom _ _ Hord) as [Hndo Hel].
  destruct (from_map_ids w m order) as (Hids & _ & Hfrom);
    [intros i g Hi; now apply Hk | done |].
  apply NoDup_Permutation.
  - assert (Hall : allocated w (goroutines (NewGoroutineDumpFromMap order m))).
    { apply Forall_forall. intros g [i Hi]%Hfrom. apply Hk in Hi as [_ Hi].
      unfold id_at in Hi. destruct (heap w !! g); [eauto | discriminate]. }
    apply (NoDup_records w _ Hall). now rewrite Hids.
  - now apply NoDup_List_filter.
  - intros g. split.
    + intros [i Hi]%Hfrom. destruct (Hk i g Hi) as [Hin Hid].
      apply list_elem_of_In, filter_In. split; [now apply list_elem_of_In|].
      destruct (Hp g Hin) as (i' & Hid' & Hiff).
      rewrite Hid in Hid'. injection Hid' as <-. apply Hiff. eauto.
    + intros Hg%list_elem_of_In. apply filter_In in Hg as [Hin%list_elem_of_In Hpg].
      destruct (Hp g Hin) as (i & Hid & Hiff).
      destruct (proj2 Hiff Hpg) as [g' Hg'].
      destruct (Hk i g' Hg') as [Hin' Hid'].
      assert (g' = g) by (eapply id_at_inj; eauto). subst g'.
      cbn [goroutines NewGoroutineDumpFromMap]. apply list_elem_of_omap.
      exists i. split; [apply Hel; eauto | done].
Qed.

(** The three maps of [Diff]: their keys, and their entries. *)
Lemma Diff_maps_spec (gd another : GoroutineDump) w :
  allocated w (goroutines gd) ->
  allocated w (goroutines another) ->
  NoDup (ids_of w (goroutines another)) ->
  exists lonly common ronly,
    Diff_maps gd another w = Done ((lonly, common, ronly), w)
    /\ dom lonly = ids_set w (goroutines gd) ∖ ids_set w (goroutines another)
    /\ dom common = ids_set w (goroutines another) ∩ ids_set w (goroutines gd)
    /\ dom ronly = ids_set w (goroutines another) ∖ ids_set w (goroutines gd)
    /\ (forall i g, lonly !! i = Some g ->
          g ∈ goroutines gd /\ id_at w g = Some i)
    /\ (forall i g, common !! i = Some g ->
          g ∈ goroutines another /\ id_at w g = Some i)
    /\ (forall i g, ronly !! i = Some g ->
          g ∈ goroutines another /\ id_at w g = Some i).
Proof.
  intros HallL HallR HndR.
  destruct (Diff_left_spec (goroutines gd) ∅ w HallL) as (l0 & Hleft & Hdl0 & Hel0).
  destruct (Diff_right_spec (goroutines another) l0 ∅ ∅ w HallR HndR)
    as (lonly & common & ronly & Hright & Hdl & Hdc & Hdr & Hel & Hec & Her).
  rewrite dom_empty_L in Hdl0, Hdc, Hdr.
  exists lonly, common, ronly. split.
  { unfold Diff_maps, mbind, M_bind, Mbind. now rewrite Hleft. }
  rewrite Hdl, Hdc, Hdr, Hdl0.
  split; [set_solver|]. split; [set_solver|]. split; [set_solver|].
  split; [|split].
  - intros i g Hi%Hel. destruct (Hel0 i g Hi) as [Hemp|Hin]; [|done].
    now rewrite lookup_empty in Hemp.
  - intros i g Hi. destruct (Hec i g Hi) as [Hemp|Hin]; [|done].
    now rewrite lookup_empty in Hemp.
  - intros i g Hi. destruct (Her i g Hi) as [Hemp|Hin]; [|done].
    now rewrite lookup_empty in Hemp.
Qed.

Lemma Diff_of_maps (gd another : GoroutineDump) w lonly common ronly ol oc or :
  Diff_maps gd another w = Done ((lonly, common, ronly), w) ->
  Diff ol oc or gd another w
  = Done ((NewGoroutineDumpFromMap ol lonly,
           NewGoroutineDumpFromMap oc common,
           NewGoroutineDumpFromMap or ronly), w).
Proof. intros Hm. unfold Diff, mbind, M_bind, Mbind. now rewrite Hm. Qed.

Lemma id_at_allocated w gs g :
  allocated w gs -> g ∈ gs -> exists i, id_at w g = Some i /\ i ∈ ids_set w gs.
Proof.
  intros Hall Hg. unfold allocated in Hall. rewrite Forall_forall in Hall.
  destruct (Hall g Hg) as [r Hr].
  assert (Hid : id_at w g = Some (id r)) by (unfold id_at; now rewrite Hr).
  exists (id r). split; [done|]. apply elem_of_ids_set. eauto.
Qed.

(** X10. For two collections of records that exist, in neither of which two
    records have the same identity, the results of [Diff] are, up to the
    order of the [range]s: the records of the first collection whose identity
    the second does not have; the records of the second collection whose
    identity the first has; and the records of the second collection whose
    identity the first does not have.  So the first two results have together
    as many records as the first collection, and the last two as many as the
    second. *)
Theorem Diff_records (gd another : GoroutineDump) (w : World) :
  allocated w (goroutines gd) ->
  allocated w (goroutines another) ->
  NoDup (ids_of w (goroutines gd)) ->
  NoDup (ids_of w (goroutines another)) ->
  exists lonly common ronly,
    Diff_maps gd another w = Done ((lonly, common, ronly), w)
    /\ forall ol oc or,
       range_order lonly ol -> range_order common oc -> range_order ronly or ->
       exists onlyInL both onlyInR,
         Diff ol oc or gd another w = Done ((onlyInL, both, onlyInR), w)
         /\ let L := ids_set w (goroutines gd) in
            let R := ids_set w (goroutines another) in
            goroutines onlyInL
            ≡ₚ List.filter (fun g => negb (id_in w R g)) (goroutines gd)
            /\ goroutines both ≡ₚ List.filter (id_in w L) (goroutines another)
            /\ goroutines onlyInR
               ≡ₚ List.filter (fun g => negb (id_in w L g)) (goroutines another)
            /\ (length (goroutines onlyInL) + length (goroutines both)
                = length (goroutines gd))%nat
            /\ (length (goroutines both) + length (goroutines onlyInR)
                = length (goroutines another))%nat.
Proof.
  intros HallL HallR HndL HndR.
  destruct (Diff_maps_spec gd another w HallL HallR HndR)
    as (lonly & common & ronly & Hmaps & Hdl & Hdc & Hdr & HkL & HkC & HkR).
  exists lonly, common, ronly. split; [exact Hmaps|].
  intros ol oc or Hol Hoc Hor.
  exists (NewGoroutineDumpFromMap ol lonly), (NewGoroutineDumpFromMap oc common),
    (NewGoroutineDumpFromMap or ronly).
  split; [now apply Diff_of_maps|]. cbn zeta.
  pose proof (NoDup_records w _ HallL HndL) as HndgL.
  pose proof (NoDup_records w _ HallR HndR) as HndgR.
  assert (HA : goroutines (NewGoroutineDumpFromMap ol lonly)
               ≡ₚ List.filter (fun g => negb (id_in w (ids_set w (goroutines another)) g))
                    (goroutines gd)).
  { apply (from_map_records w); try done.
    intros g Hg. destruct (id_at_allocated w _ g HallL Hg) as (i & Hid & Hi).
    exists i. split; [done|]. unfold id_in. rewrite Hid, <- elem_of_dom, Hdl.
    rewrite negb_true_iff, bool_decide_eq_false. set_solver. }
  assert (HC : goroutines (NewGoroutineDumpFromMap oc common)
               ≡ₚ List.filter (id_in w (ids_set w (goroutines gd)))
                    (goroutines another)).
  { apply (from_map_records w); try done.
    intros g Hg. destruct (id_at_allocated w _ g HallR Hg) as (i & Hid & Hi).
    exists i. split; [done|]. unfold id_in. rewrite Hid, <- elem_of_dom, Hdc.
    rewrite bool_decide_eq_true. set_solver. }
  assert (HB : goroutines (NewGoroutineDumpFromMap or ronly)
               ≡ₚ List.filter (fun g => negb (id_in w (ids_set w (goroutines gd)) g))
                    (goroutines another)).
  { apply (from_map_records w); try done.
    intros g Hg. destruct (id_at_allocated w _ g HallR Hg) as (i & Hid & Hi).
    exists i. split; [done|]. unfold id_in. rewrite Hid, <- elem_of_dom, Hdr.
    rewrite negb_true_iff, bool_decide_eq_false. set_solver. }
  split; [exact HA|]. split; [exact HC|]. split; [exact HB|]. split.
  - destruct (from_map_ids w lonly ol) as (HiA & _ & HgA);
      [intros i g Hi; now apply HkL | done|].
    destruct (from_map_ids w common oc) as (HiC & _ & HgC);
      [intros i g Hi; now apply HkC | done|].
    assert (HallA : allocated w (goroutines (NewGoroutineDumpFromMap ol lonly))).
    { apply Forall_forall. intros g [i Hi]%HgA. apply HkL in Hi as [Hi _].
      unfold allocated in HallL. rewrite Forall_forall in HallL. now apply HallL. }
    assert (HallC : allocated w (goroutines (NewGoroutineDumpFromMap oc common))).
    { apply Forall_forall. intros g [i Hi]%HgC. apply HkC in Hi as [Hi _].
      unfold allocated in HallR. rewrite Forall_forall in HallR. now apply HallR. }
    rewrite <- (length_ids_of w _ HallA), <- (length_ids_of w _ HallC),
      <- (length_ids_of w _ HallL), HiA, HiC, <- length_app.
    apply Permutation_length, NoDup_Permutation; [|done|].
    + destruct (range_order_dom _ _ Hol) as [Hnol Hall_ol].
      destruct (range_order_dom _ _ Hoc) as [Hnoc Hall_oc].
      apply NoDup_app. split; [done|]. split; [|done].
      intros i Hi%Hall_ol%elem_of_dom Hi'%Hall_oc%elem_of_dom. set_solver.
    + intros i. rewrite elem_of_app.
      destruct (range_order_dom _ _ Hol) as [_ Hall_ol].
      destruct (range_order_dom _ _ Hoc) as [_ Hall_oc].
      assert (Hiff : i ∈ ids_of w (goroutines gd) <-> i ∈ ids_set w (goroutines gd))
        by (unfold ids_set; now rewrite elem_of_list_to_set).
      rewrite Hiff, Hall_ol, Hall_oc, <- !elem_of_dom, Hdl, Hdc.
      destruct (decide (i ∈ ids_set w (goroutines another))); set_solver.
  - rewrite HC, HB. rewrite <- length_app. apply Permutation_length.
    clear. induction (goroutines another) as [|g gs IH]; [reflexivity|].
    cbn [List.filter]. destruct (id_in w _ g); cbn [negb app].
    + now constructor.
    + rewrite <- Permutation_middle. now constructor.
Qed.

(** X11. The difference of a collection of records that exist, no two with
    the same identity, with itself: no record is on one side only, and the
    common records are those of the collection. *)
Theorem Diff_self (gd : GoroutineDump) (w : World) :
  allocated w (goroutines gd) ->
  NoDup (ids_of w (goroutines gd)) ->
  exists common,
    Diff_maps gd gd w = Done ((∅, common, ∅), w)
    /\ forall oc,
       range_order common oc ->
       exists both,
         Diff [] oc [] gd gd w
         = Done (({| goroutines := [] |}, both, {| goroutines := [] |}), w)
         /\ goroutines both ≡ₚ goroutines gd.
Proof.
  intros Hall Hnd.
  destruct (Diff_maps_spec gd gd w Hall Hall Hnd)
    as (lonly & common & ronly & Hmaps & Hdl & Hdc & Hdr & _ & HkC & _).
  assert (lonly = ∅) as -> by (apply dom_empty_iff_L; set_solver).
  assert (ronly = ∅) as -> by (apply dom_empty_iff_L; set_solver).
  exists common. split; [exact Hmaps|]. intros oc Hoc.
  exists (NewGoroutineDumpFromMap oc common).
  split; [now apply (Diff_of_maps gd gd w ∅ common ∅ [] oc [])|].
  pose proof (NoDup_records w _ Hall Hnd) as Hndg.
  rewrite (from_map_records w common oc (goroutines gd) (fun _ => true));
    try done.
  - clear. induction (goroutines gd) as [|g gs IH]; [reflexivity|].
    cbn [List.filter]. now rewrite IH.
  - intros g Hg. destruct (id_at_allocated w _ g Hall Hg) as (i & Hid & Hi).
    exists i. split; [done|]. rewrite <- elem_of_dom, Hdc. set_solver.
Qed.

End DiffRecords.

Lemma Diff_records_witness :
  let w := example_world in
  let gd := {| goroutines := [1%positive; 3%positive] |} in
  let another := {| goroutines := [2%positive] |} in
  exists lonly common ronly,
    Diff_maps gd another w = Done ((lonly, common, ronly), w)
    /\ exists onlyInL both onlyInR,
         Diff (map_to_list lonly).*1 (map_to_list common).*1 (map_to_list ronly).*1
           gd another w
         = Done ((onlyInL, both, onlyInR), w)
         /\ (length (goroutines onlyInL) + length (goroutines both)
             = length (goroutines gd))%nat.
Proof.
  intros w gd another.
  destruct (Diff_records gd another w)
    as (lonly & common & ronly & Hmaps & Hdiff).
  - repeat constructor; vm_compute; eauto.
  - repeat constructor; vm_compute; eauto.
  - vm_compute. repeat constructor; rewrite ?elem_of_cons, ?elem_of_nil;
      intuition discriminate.
  - vm_compute. repeat constructor. rewrite elem_of_nil. tauto.
  - exists lonly, common, ronly. split; [exact Hmaps|].
    destruct (Hdiff (map_to_list lonly).*1 (map_to_list common).*1
                (map_to_list ronly).*1)
      as (a & c & b & HD & _ & _ & _ & Hlen & _);
      [unfold range_order; reflexivity..|].
    exists a, c, b. auto.
Defined.

Lemma Diff_self_witness :
  let w := example_world in
  let gd := {| goroutines := [1%positive; 3%positive] |} in
  exists common,
    Diff_maps gd gd w = Done ((∅, common, ∅), w)
    /\ exists both,
         Diff [] (map_to_list common).*1 [] gd gd w
         = Done (({| goroutines := [] |}, both, {| goroutines := [] |}), w)
         /\ goroutines both ≡ₚ goroutines gd.
Proof.
  intros w gd.
  destruct (Diff_self gd w) as (common & Hmaps & Hdiff).
  - repeat constructor; vm_compute; eauto.
  - vm_compute. repeat constructor; rewrite ?elem_of_cons, ?elem_of_nil;
      intuition discriminate.
  - exists common. split; [exact Hmaps|].
    apply Hdiff. unfold range_order. reflexivity.
Defined.

(** ** [Diff] on a collection with a repeated identity *)

Section DiffRepeated.

Implicit Types (w : World) (gs : list ptr).

(** The second loop without the assumption that the identities differ. *)
Lemma Diff_right_any gs (l c r : gmap Z ptr) w :
  allocated w gs ->
  exists l' c' r',
    Diff_right gs (l, c, r) w = Done ((l', c', r'), w)
    /\ dom l' = dom l ∖ ids_set w gs
    /\ dom c ∪ (ids_set w gs ∩ dom l) ⊆ dom c'
    /\ dom r ∪ (ids_set w gs ∖ dom l) ⊆ dom r'
    /\ (forall i g, l' !! i = Some g -> l !! i = Some g)
    /\ (forall i g, c' !! i = Some g ->
          c !! i = Some g \/ (g ∈ gs /\ id_at w g = Some i))
    /\ (forall i g, r' !! i = Some g ->
          r !! i = Some g \/ (g ∈ gs /\ id_at w g = Some i)).
Proof.
  intros Hall. revert l c r.
  induction Hall as [|g gs [rec Hr] _ IH]; intros l c r.
  - exists l, c, r. split; [reflexivity|].
    unfold ids_set, ids_of. cbn. repeat split; auto; set_solver.
  - cbn [Diff_right]. unfold mbind, M_bind, Mbind, deref. rewrite Hr.
    rewrite (ids_set_cons _ _ _ _ Hr).
    assert (Hhere : g ∈ g :: gs /\ id_at w g = Some (id rec)).
    { split; [apply list_elem_of_here | unfold id_at; now rewrite Hr]. }
    destruct (l !! id rec) as [g0|] eqn:Hl.
    + destruct (IH (delete (id rec) l) (<[id rec := g]> c) r)
        as (l' & c' & r' & -> & Hdl' & Hdc' & Hdr' & Hel & Hec & Her).
      exists l', c', r'. split; [reflexivity|].
      rewrite dom_delete_L in Hdl', Hdr', Hdc'. rewrite dom_insert_L in Hdc'.
      assert (Hdl0 : id rec ∈ dom l) by (apply elem_of_dom; eauto).
      split; [set_solver|]. split.
      { intros j Hj. apply Hdc'.
        destruct (decide (j = id rec)); set_solver. }
      split.
      { intros j Hj. apply Hdr'. set_solver. }
      split; [|split].
      * intros i g' Hi. apply Hel in Hi. apply lookup_delete_Some in Hi. tauto.
      * intros i g' Hi. destruct (Hec i g' Hi) as [Hins|[Hin Hid]].
        -- rewrite lookup_insert in Hins. case_decide as Hc.
           ++ injection Hins as <-. subst i. now right.
           ++ now left.
        -- right. split; [now apply elem_of_cons; right | done].
      * intros i g' Hi. destruct (Her i g' Hi) as [Hins|[Hin Hid]]; [now left|].
        right. split; [now apply elem_of_cons; right | done].
    + assert (Hdl : id rec ∉ dom l) by now apply not_elem_of_dom.
      destruct (IH l c (<[id rec := g]> r))
        as (l' & c' & r' & -> & Hdl' & Hdc' & Hdr' & Hel & Hec & Her).
      exists l', c', r'. split; [reflexivity|].
      rewrite dom_insert_L in Hdr'.
      split; [set_solver|]. split; [set_solver|]. split; [set_solver|].
      split; [exact Hel|]. split.
      * intros i g' Hi. destruct (Hec i g' Hi) as [Hins|[Hin Hid]]; [now left|].
        right. split; [now apply elem_of_cons; right | done].
      * intros i g' Hi. destruct (Her i g' Hi) as [Hins|[Hin Hid]].
        -- rewrite lookup_insert in Hins. case_decide as Hc.
           ++ injection Hins as <-. subst i. now right.
           ++ now left.
        -- right. split; [now apply elem_of_cons; right | done].
Qed.

(** An identity of [lonly] that two records of the second collection have
    ends in [ronly]. *)
Lemma Diff_right_twice pre g1 mid g2 post (l c r : gmap Z ptr) w i l' c' r' :
  allocated w (pre ++ g1 :: mid ++ g2 :: post) ->
  id_at w g1 = Some i -> id_at w g2 = Some i ->
  i ∈ dom l ->
  Diff_right (pre ++ g1 :: mid ++ g2 :: post) (l, c, r) w
  = Done ((l', c', r'), w) ->
  i ∈ dom r'.
Proof.
  intros Hall H1 H2. revert l c r.
  induction pre as [|g pre IH]; intros l c r Hi Hrun.
  - cbn [app] in Hall, Hrun.
    apply Forall_cons in Hall as [[rec Hr] Hall].
    assert (Hid : id rec = i).
    { unfold id_at in H1. rewrite Hr in H1. now injection H1. }
    cbn [Diff_right] in Hrun. unfold mbind, M_bind, Mbind, deref in Hrun.
    rewrite Hr, Hid in Hrun.
    apply elem_of_dom in Hi as [g0 Hl]. rewrite Hl in Hrun.
    destruct (Diff_right_any (mid ++ g2 :: post) (delete i l) (<[i := g1]> c) r w Hall)
      as (l2 & c2 & r2 & Hrun2 & _ & _ & Hdr & _).
    rewrite Hrun2 in Hrun. injection Hrun as -> -> ->.
    apply Hdr. apply elem_of_union. right. apply elem_of_difference. split.
    + apply elem_of_ids_set. exists g2. split; [|done].
      apply elem_of_app. right. apply list_elem_of_here.
    + rewrite dom_delete_L. set_solver.
  - cbn [app] in Hall, Hrun.
    apply Forall_cons in Hall as [[rec Hr] Hall].
    cbn [Diff_right] in Hrun. unfold mbind, M_bind, Mbind, deref in Hrun.
    rewrite Hr in Hrun.
    destruct (l !! id rec) as [g0|] eqn:Hl.
    + destruct (decide (i = id rec)) as [->|Hne].
      * destruct (Diff_right_any (pre ++ g1 :: mid ++ g2 :: post)
                    (delete (id rec) l) (<[id rec := g]> c) r w Hall)
          as (l2 & c2 & r2 & Hrun2 & _ & _ & Hdr & _).
        rewrite Hrun2 in Hrun. injection Hrun as -> -> ->.
        apply Hdr. apply elem_of_union. right. apply elem_of_difference. split.
        -- apply elem_of_ids_set. exists g1. split; [|done].
           apply elem_of_app. right. apply list_elem_of_here.
        -- rewrite dom_delete_L. set_solver.
      * apply (IH Hall (delete (id rec) l) (<[id rec := g]> c) r); try done.
        rewrite dom_delete_L. set_solver.
    + apply (IH Hall l c (<[id rec := g]> r)); done.
Qed.

(** X12. When two records of the second collection have the same identity
    and a record of the first collection has it too, [Diff] returns that
    identity both among the common records and among those of the second
    collection only. *)
Theorem Diff_repeated_identity (gd : GoroutineDump) (w : World)
    (pre mid post : list ptr) (g1 g2 : ptr) (i : Z) :
  let another := {| goroutines := pre ++ g1 :: mid ++ g2 :: post |} in
  allocated w (goroutines gd) ->
  allocated w (goroutines another) ->
  id_at w g1 = Some i -> id_at w g2 = Some i ->
  i ∈ ids_set w (goroutines gd) ->
  exists lonly common ronly,
    Diff_maps gd another w = Done ((lonly, common, ronly), w)
    /\ forall ol oc or,
       range_order lonly ol -> range_order common oc -> range_order ronly or ->
       exists onlyInL both onlyInR,
         Diff ol oc or gd another w = Done ((onlyInL, both, onlyInR), w)
         /\ i ∈ ids_set w (goroutines both)
         /\ i ∈ ids_set w (goroutines onlyInR)
         /\ i ∉ ids_set w (goroutines onlyInL).
Proof.
  intros another HallL HallR H1 H2 Hi.
  destruct (Diff_left_spec (goroutines gd) ∅ w HallL) as (l0 & Hleft & Hdl0 & Hel0).
  rewrite dom_empty_L in Hdl0.
  assert (Hi0 : i ∈ dom l0) by set_solver.
  destruct (Diff_right_any _ l0 ∅ ∅ w HallR)
    as (lonly & common & ronly & Hright & Hdl & Hdc & _ & Hsub & Hec & Her).
  pose proof (Diff_right_twice pre g1 mid g2 post l0 ∅ ∅ w i _ _ _
                HallR H1 H2 Hi0 Hright) as Hir.
  assert (Hin : i ∈ ids_set w (goroutines another)).
  { apply elem_of_ids_set. exists g1. split; [|done].
    apply elem_of_app. right. apply list_elem_of_here. }
  assert (Hic : i ∈ dom common) by (apply Hdc; set_solver).
  assert (Hmaps : Diff_maps gd another w = Done ((lonly, common, ronly), w)).
  { unfold Diff_maps, mbind, M_bind, Mbind. now rewrite Hleft. }
  exists lonly, common, ronly. split; [exact Hmaps|].
  intros ol oc or Hol Hoc Hor.
  exists (NewGoroutineDumpFromMap ol lonly), (NewGoroutineDumpFromMap oc common),
    (NewGoroutineDumpFromMap or ronly).
  split; [now apply Diff_of_maps|].
  assert (Hel : forall j g, lonly !! j = Some g -> id_at w g = Some j).
  { intros j g Hj%Hsub.
    destruct (Hel0 j g Hj) as [Hemp|[_ Hid]]; [|done].
    now rewrite lookup_empty in Hemp. }
  destruct (from_map_ids w lonly ol) as (_ & HsA & _); [done..|].
  destruct (from_map_ids w common oc) as (_ & HsC & _); [|done|].
  { intros j g Hj. destruct (Hec j g Hj) as [Hemp|[_ Hid]]; [|done].
    now rewrite lookup_empty in Hemp. }
  destruct (from_map_ids w ronly or) as (_ & HsB & _); [|done|].
  { intros j g Hj. destruct (Her j g Hj) as [Hemp|[_ Hid]]; [|done].
    now rewrite lookup_empty in Hemp. }
  rewrite HsA, HsC, HsB, Hdl.
  split; [done|]. split; [done|]. set_solver.
Qed.

End DiffRepeated.

Lemma Diff_repeated_identity_witness :
  let w := example_world in
  let gd := {| goroutines := [1%positive] |} in
  let another := {| goroutines := [1%positive; 2%positive] |} in
  exists lonly common ronly,
    Diff_maps gd another w = Done ((lonly, common, ronly), w)
    /\ exists onlyInL both onlyInR,
         Diff (map_to_list lonly).*1 (map_to_list common).*1 (map_to_list ronly).*1
           gd another w
         = Done ((onlyInL, both, onlyInR), w)
         /\ 7 ∈ ids_set w (goroutines both)
         /\ 7 ∈ ids_set w (goroutines onlyInR).
Proof.
  intros w gd another.
  destruct (Diff_repeated_identity gd w [] [] [] 1%positive 2%positive 7)
    as (lonly & common & ronly & Hmaps & Hdiff).
  - repeat constructor; vm_compute; eauto.
  - repeat constructor; vm_compute; eauto.
  - reflexivity.
  - reflexivity.
  - vm_compute. set_solver.
  - exists lonly, common, ronly. split; [exact Hmaps|].
    destruct (Hdiff (map_to_list lonly).*1 (map_to_list common).*1
                (map_to_list ronly).*1)
      as (a & c & b & HD & HC & HB & _);
      [unfold range_order; reflexivity..|].
    exists a, c, b. auto.
Defined.

(** ** A collection made from a map *)

Lemma omap_lookup_keys (m : gmap Z ptr) (l : list (Z * ptr)) :
  (forall kv, kv ∈ l -> m !! kv.1 = Some kv.2) ->
  omap (fun k => m !! k) l.*1 = l.*2.
Proof.
  induction l as [|kv l IH]; intros Hl; [reflexivity|].
  cbn [fmap list_fmap omap list_omap].
  rewrite (Hl kv) by apply list_elem_of_here.
  f_equal. apply IH. intros kv' Hkv'. apply Hl. now apply elem_of_cons; right.
Qed.

(** X13. Whatever the order in which the [range] yields the keys, the
    collection [NewGoroutineDumpFromMap] makes holds the values of the map,
    each as often as the map has it: it has one record for each key, and a
    record is in it exactly when some key has it. *)
Theorem NewGoroutineDumpFromMap_values (m : gmap Z ptr) (order : list Z) :
  range_order m order ->
  goroutines (NewGoroutineDumpFromMap order m) ≡ₚ (map_to_list m).*2
  /\ length (goroutines (NewGoroutineDumpFromMap order m)) = size m
  /\ (forall g, g ∈ goroutines (NewGoroutineDumpFromMap order m)
                <-> exists i, m !! i = Some g).
Proof.
  intros Hord. unfold range_order in Hord.
  assert (Hperm : goroutines (NewGoroutineDumpFromMap order m) ≡ₚ (map_to_list m).*2).
  { cbn [goroutines NewGoroutineDumpFromMap]. rewrite Hord.
    rewrite omap_lookup_keys; [reflexivity|].
    intros [k g] Hkv. now apply elem_of_map_to_list. }
  split; [exact Hperm|]. split.
  - rewrite Hperm, length_fmap. symmetry. apply map_size_length_to_list || (rewrite length_map_to_list; reflexivity).
  - intros g. rewrite Hperm, list_elem_of_fmap. split.
    + intros [[i g'] [-> Hin%elem_of_map_to_list]]. eauto.
    + intros [i Hi]. exists (i, g). split; [reflexivity|].
      now apply elem_of_map_to_list.
Qed.

Lemma NewGoroutineDumpFromMap_values_witness :
  let m : gmap Z ptr := <[7 := 1%positive]> (<[9 := 3%positive]> ∅) in
  length (goroutines (NewGoroutineDumpFromMap (map_to_list m).*1 m)) = size m.
Proof.
  intros m.
  apply (NewGoroutineDumpFromMap_values m (map_to_list m).*1).
  unfold range_order. reflexivity.
Defined.

(** ** The summary *)

Section SummaryFacts.

Implicit Types (w : World) (gs : list ptr).

Lemma state_count_cons w k g gs r :
  heap w !! g = Some r ->
  state_count w k (g :: gs)
  = ((if bool_decide (default "" (metas r !! MetaState) = k) then 1 else 0)
     + state_count w k gs)%nat.
Proof.
  intros Hr. unfold state_count. cbn [List.filter].
  assert (Hs : state_at w g = Some (default "" (metas r !! MetaState)))
    by (unfold state_at; now rewrite Hr).
  do 2 case_bool_decide; try congruence; reflexivity.
Qed.

(** The counting loop of [Summary]. *)
Lemma Summary_stats_spec gs (s : gmap string Z) w :
  allocated w gs ->
  (forall k, 0 <= default 0 (s !! k)) ->
  (forall k, default 0 (s !! k) + Z.of_nat (length gs) < 2 ^ 63) ->
  exists s',
    Summary_stats gs s w = Done (s', w)
    /\ forall k,
         s' !! k
         = if decide (state_count w k gs = 0%nat) then s !! k
           else Some (default 0 (s !! k) + Z.of_nat (state_count w k gs)).
Proof.
  intros Hall. revert s. induction Hall as [|g gs [r Hr] _ IH]; intros s Hlo Hhi.
  - exists s. split; [reflexivity|]. intros k. reflexivity.
  - cbn [Summary_stats]. unfold mbind, M_bind, Mbind, deref. rewrite Hr.
    set (k0 := default "" (metas r !! MetaState)).
    cbn [length] in Hhi.
    assert (Hw : int_wrap (default 0 (s !! k0) + 1) = default 0 (s !! k0) + 1).
    { apply int_wrap_small. specialize (Hlo k0). specialize (Hhi k0).
      lia. }
    rewrite Hw.
    destruct (IH (<[k0 := default 0 (s !! k0) + 1]> s)) as (s' & -> & Hs').
    + intros k. destruct (decide (k0 = k)) as [<-|Hne].
      * rewrite lookup_insert_eq. change (0 <= default 0 (s !! k0) + 1).
        specialize (Hlo k0). lia.
      * rewrite lookup_insert_ne by done. apply Hlo.
    + intros k. destruct (decide (k0 = k)) as [<-|Hne].
      * rewrite lookup_insert_eq.
        change (default 0 (s !! k0) + 1 + Z.of_nat (length gs) < 2 ^ 63).
        specialize (Hhi k0). lia.
      * rewrite lookup_insert_ne by done. specialize (Hhi k). lia.
    + exists s'. split; [reflexivity|]. intros k. rewrite Hs'.
      rewrite (state_count_cons _ _ _ _ _ Hr). fold k0.
      case_bool_decide as Hk.
      * subst k. rewrite lookup_insert_eq.
        change (default 0 (Some (default 0 (s !! k0) + 1)))
          with (default 0 (s !! k0) + 1).
        repeat case_decide; try lia; f_equal; lia.
      * rewrite lookup_insert_ne by done.
        repeat case_decide; try lia; f_equal; lia.
Qed.

Lemma state_count_pos w k gs :
  state_count w k gs <> 0%nat <-> exists g, g ∈ gs /\ state_at w g = Some k.
Proof.
  unfold state_count. split.
  - intros Hne.
    destruct (List.filter _ gs) as [|g l] eqn:Hf; [done|].
    assert (Hin : In g (List.filter
                          (fun g => bool_decide (state_at w g = Some k)) gs))
      by (rewrite Hf; now left).
    apply filter_In in Hin as [Hin Hg]. apply bool_decide_eq_true_1 in Hg.
    exists g. split; [now apply list_elem_of_In | done].
  - intros (g & Hin & Hg) Hz.
    assert (Hin' : In g (List.filter
                           (fun g => bool_decide (state_at w g = Some k)) gs)).
    { apply filter_In. split; [now apply list_elem_of_In|].
      now apply bool_decide_eq_true_2. }
    destruct (List.filter _ gs); [done | discriminate].
Qed.

Lemma sort_strings_Permutation (l1 l2 : list string) :
  l1 ≡ₚ l2 -> sort_strings l1 = sort_strings l2.
Proof.
  intros Hperm. unfold sort_strings.
  apply (StronglySorted_unique String.le).
  - apply StronglySorted_merge_sort; apply _.
  - apply StronglySorted_merge_sort; apply _.
  - now rewrite !merge_sort_Permutation.
Qed.

(** X14. [Summary] of a collection of records that exist prints the number
    of the records; then, when there is one, an empty line, a line for each
    state that a record of the collection is in, with the number of the
    records in that state, and an empty line.  The states come in ascending
    order, each once, whatever the order in which the [range] over the
    counts yields them. *)
Theorem Summary_output (order : list string) (gd : GoroutineDump) (w : World)
    (stats : gmap string Z) :
  allocated w (goroutines gd) ->
  Z.of_nat (length (goroutines gd)) < 2 ^ 63 ->
  Summary_stats (goroutines gd) ∅ w = Done (stats, w) ->
  range_order stats order ->
  let states := sort_strings order in
  Summary order gd w
  = Done (tt, printed w
       ([OutPrintf "# of goroutines: %d\n"
           [AInt (Z.of_nat (length (goroutines gd)))]]
        ++ match goroutines gd with
           | [] => []
           | _ :: _ =>
               [OutPrintln []]
               ++ map (fun k =>
                         OutPrintf "%15s: %d\n"
                           [AString k;
                            AInt (Z.of_nat (state_count w k (goroutines gd)))])
                    states
               ++ [OutPrintln []]
           end))
  /\ StronglySorted String.le states
  /\ NoDup states
  /\ (forall k, k ∈ states
                <-> exists g, g ∈ goroutines gd /\ state_at w g = Some k)
  /\ (forall order', range_order stats order' ->
        Summary order' gd w = Summary order gd w).
Proof.
  intros Hall Hlen Hstats Hord states.
  destruct (Summary_stats_spec (goroutines gd) ∅ w Hall) as (s' & Hrun & Hs').
  { intros k. now rewrite lookup_empty. }
  { intros k. rewrite lookup_empty. cbn. lia. }
  rewrite Hrun in Hstats. injection Hstats as ->.
  assert (Hlook : forall k,
            stats !! k
            = if decide (state_count w k (goroutines gd) = 0%nat) then None
              else Some (Z.of_nat (state_count w k (goroutines gd)))).
  { intros k. rewrite Hs', lookup_empty. now case_decide. }
  clear Hs'.
  assert (Hkeys : forall k, k ∈ order
                    <-> exists g, g ∈ goroutines gd /\ state_at w g = Some k).
  { intros k. rewrite <- state_count_pos. unfold range_order in Hord.
    rewrite Hord, list_elem_of_fmap. split.
    - intros [[k' n] [-> Hin%elem_of_map_to_list]]. rewrite Hlook in Hin.
      cbn. now case_decide.
    - intros Hne. exists (k, Z.of_nat (state_count w k (goroutines gd))).
      split; [reflexivity|]. apply elem_of_map_to_list. rewrite Hlook.
      now case_decide. }
  assert (Hperm : states ≡ₚ order) by apply merge_sort_Permutation.
  split; [|split; [|split; [|split]]].
  - unfold Summary, mbind, M_bind, Mbind, emit.
    destruct (goroutines gd) as [|g gs] eqn:Hgs.
    + cbn [length Nat.ltb Nat.leb]. unfold mret, M_ret, Mret.
      rewrite map_size_empty. unfold printed. cbn.
      reflexivity.
    + change (Nat.ltb 0 (length (g :: gs))) with true. cbv iota.
      cbn [stdout heap].
      change {| heap := heap w; stdout := stdout w ++ ?out |}
        with (printed w out).
      assert (Hrun' : Summary_stats (g :: gs) ∅
                        (printed w [OutPrintf "# of goroutines: %d\n"
                                      [AInt (Z.of_nat (length (g :: gs)))]])
                      = Done (stats, printed w [OutPrintf "# of goroutines: %d\n"
                                      [AInt (Z.of_nat (length (g :: gs)))]])).
      { destruct (Summary_stats_spec (g :: gs) ∅
                    (printed w [OutPrintf "# of goroutines: %d\n"
                                  [AInt (Z.of_nat (length (g :: gs)))]]))
          as (s2 & Hrun2 & Hs2).
        - exact Hall.
        - intros k. now rewrite lookup_empty.
        - intros k. rewrite lookup_empty. cbn [default]. lia.
        - rewrite Hrun2. do 2 f_equal. apply map_eq. intros k.
          rewrite Hs2, Hlook, lookup_empty. reflexivity. }
      rewrite Hrun'. unfold mret, M_ret, Mret. cbn [heap stdout printed].
      assert (Hsize : Nat.ltb 0 (size stats) = true).
      { apply Nat.ltb_lt. destruct (decide (size stats = 0%nat)) as [Hz|]; [|lia].
        apply map_size_empty_iff in Hz. exfalso.
        pose proof Hall as Hall'. apply Forall_cons in Hall' as [[r Hr] _].
        pose proof (Hlook (default "" (metas r !! MetaState))) as Hk.
        rewrite Hz, lookup_empty in Hk. case_decide as Hc; [|done].
        revert Hc. apply state_count_pos. exists g.
        split; [apply list_elem_of_here|]. unfold state_at. now rewrite Hr. }
      rewrite Hsize. unfold printed. cbn [heap stdout]. do 3 f_equal.
      rewrite <- !app_assoc. do 2 f_equal. f_equal. f_equal.
      apply map_ext_in. intros k Hk%list_elem_of_In.
      rewrite Hperm in Hk. rewrite Hlook. apply Hkeys, state_count_pos in Hk.
      case_decide; [done | reflexivity].
  - unfold states, sort_strings. apply StronglySorted_merge_sort; apply _.
  - rewrite Hperm. unfold range_order in Hord. rewrite Hord.
    apply NoDup_fst_map_to_list.
  - intros k. rewrite Hperm. apply Hkeys.
  - intros order' Hord'. unfold Summary.
    rewrite (sort_strings_Permutation order' order); [reflexivity|].
    unfold range_order in Hord, Hord'. now rewrite Hord, Hord'.
Qed.

End SummaryFacts.

Lemma Summary_output_witness :
  let stats : gmap string Z := <["semacquire" := 1]> (<["chan receive" := 2]> ∅) in
  Summary ["semacquire"; "chan receive"] example_dump example_world
  = Done (tt, printed example_world
       [OutPrintf "# of goroutines: %d\n" [AInt 3];
        OutPrintln [];
        OutPrintf "%15s: %d\n" [AString "chan receive"; AInt 2];
        OutPrintf "%15s: %d\n" [AString "semacquire"; AInt 1];
        OutPrintln []]).
Proof.
  intros stats.
  destruct (Summary_output ["semacquire"; "chan receive"] example_dump
              example_world stats) as [Hout _].
  - repeat constructor; vm_compute; eauto.
  - vm_compute. reflexivity.
  - vm_compute. reflexivity.
  - unfold range_order. vm_compute. reflexivity.
  - exact Hout.
Defined.

(** ** The functions of the conditions *)

Section FunctionsOutcome.

Context `{CaseMapping}.

Lemma strings_or_not (args : list value) :
  Forall (fun v => exists s, v = VString s) args
  \/ Exists (fun v => forall s, v <> VString s) args.
Proof.
  induction args as [|v args [IH|IH]].
  - left. constructor.
  - destruct v; try (right; apply Exists_cons; left; congruence).
    left. constructor; eauto.
  - right. apply Exists_cons. now right.
Qed.

Lemma strings_and_not (args : list value) :
  Forall (fun v => exists s, v = VString s) args ->
  Exists (fun v => forall s, v <> VString s) args -> False.
Proof.
  intros Hall Hex. apply Exists_exists in Hex as (v & Hin & Hv).
  rewrite Forall_forall in Hall. destruct (Hall v Hin) as [s ->]. now apply (Hv s).
Qed.

Lemma lower_upper_arity args :
  length args <> 1%nat ->
  lower args = Done (inl (ErrorString "lower() accepts exactly one arguments"))
  /\ upper args = Done (inl (ErrorString "upper() accepts exactly one arguments")).
Proof.
  intros Hlen. unfold lower, upper.
  destruct (Nat.eqb (length args) 1) eqn:Heq; [|split; reflexivity].
  apply Nat.eqb_eq in Heq. contradiction.
Qed.

Lemma contains_strings args :
  length args = 2%nat -> Forall (fun v => exists s, v = VString s) args ->
  exists b, contains args = Done (inr (VBool b)).
Proof.
  destruct args as [|v0 [|v1 [|? ?]]]; try discriminate. intros _ Hall.
  apply Forall_cons in Hall as [[s0 ->] Hall].
  apply Forall_cons in Hall as [[s1 ->] _].
  eexists. reflexivity.
Qed.

Lemma lower_upper_strings args :
  length args = 1%nat -> Forall (fun v => exists s, v = VString s) args ->
  exists s, args = [VString s]
            /\ lower args = Done (inr (VString (ToLower s)))
            /\ upper args = Done (inr (VString (ToUpper s))).
Proof.
  destruct args as [|v0 [|? ?]]; try discriminate. intros _ Hall.
  apply Forall_cons in Hall as [[s0 ->] _]. exists s0. repeat split.
Qed.

Lemma outcome_classes (f : ExpressionFunction) (n : nat) (args : list value) :
  (length args <> n -> exists e, f args = Done (inl e)) ->
  (length args = n -> Exists (fun v => forall s, v <> VString s) args ->
   f args = Panics InterfaceConversion) ->
  (length args = n -> Forall (fun v => exists s, v = VString s) args ->
   exists v, f args = Done (inr v)) ->
  (length args <> n <-> exists e, f args = Done (inl e))
  /\ (length args = n /\ Exists (fun v => forall s, v <> VString s) args
      <-> f args = Panics InterfaceConversion)
  /\ (length args = n /\ Forall (fun v => exists s, v = VString s) args
      <-> exists v, f args = Done (inr v)).
Proof.
  intros He Hp Hv.
  destruct (decide (length args = n)) as [Hn|Hn].
  - destruct (strings_or_not args) as [Hs|Hs].
    + destruct (Hv Hn Hs) as [v Hfv]. rewrite Hfv.
      split; [split; [done | intros [e [=]]]|].
      split; [split; [|discriminate]|split; eauto].
      intros [_ Hex]. exfalso. now apply (strings_and_not args).
    + rewrite (Hp Hn Hs).
      split; [split; [done | intros [e [=]]]|].
      split; [split; auto|].
      split; [|intros [v [=]]].
      intros [_ Hall]. exfalso. now apply (strings_and_not args).
  - destruct (He Hn) as [e Hfe]. rewrite Hfe.
    split; [split; eauto|].
    split; [split; [tauto | discriminate]|].
    split; [tauto | intros [v [=]]].
Qed.

(** X15. What a function of the table returns is decided by the number and
    the types of its arguments: an error exactly when their number is wrong
    (two for [contains], one for [lower] and [upper]), whatever their types;
    a panic exactly when their number is right and one of them is not a
    string; a value exactly when their number is right and all are
    strings. *)
Theorem functions_outcome (name : string) (f : ExpressionFunction)
    (args : list value) :
  functions !! name = Some f ->
  let arity := (if String.eqb name "contains" then 2 else 1)%nat in
  (length args <> arity <-> exists e, f args = Done (inl e))
  /\ (length args = arity /\ Exists (fun v => forall s, v <> VString s) args
      <-> f args = Panics InterfaceConversion)
  /\ (length args = arity /\ Forall (fun v => exists s, v = VString s) args
      <-> exists v, f args = Done (inr v)).
Proof.
  intros Hf arity.
  destruct (functions_lookup name f Hf) as [[-> ->]|[[-> ->]|[-> ->]]];
    subst arity; cbn [String.eqb Ascii.eqb Bool.eqb]; apply outcome_classes.
  - intros Hn. rewrite (contains_arity _ Hn). eauto.
  - apply contains_non_string.
  - intros Hn Hs. destruct (contains_strings _ Hn Hs) as [b ->]. eauto.
  - intros Hn. destruct (lower_upper_arity _ Hn) as [-> _]. eauto.
  - intros Hn Hs. now apply lower_upper_non_string.
  - intros Hn Hs. destruct (lower_upper_strings _ Hn Hs) as (s & _ & -> & _). eauto.
  - intros Hn. destruct (lower_upper_arity _ Hn) as [_ ->]. eauto.
  - intros Hn Hs. now apply lower_upper_non_string.
  - intros Hn Hs. destruct (lower_upper_strings _ Hn Hs) as (s & _ & _ & ->). eauto.
Qed.

Lemma HasPrefix_spec (s p : string) :
  Strings.HasPrefix s p = true <-> exists q, s = p +:+ q.
Proof.
  revert s. induction p as [|a p IH]; intros s.
  - destruct s; (split; [intros _; eexists; now rewrite str_app_nil_l | reflexivity]).
  - destruct s as [|b s]; cbn [Strings.HasPrefix].
    + split; [discriminate|]. intros [q Hq]. rewrite str_app_cons in Hq. discriminate.
    + destruct (Ascii.eqb_spec a b) as [->|Hne].
      * rewrite IH. split; intros [q Hq]; exists q.
        -- rewrite str_app_cons. now f_equal.
        -- rewrite str_app_cons in Hq. now injection Hq.
      * split; [discriminate|]. intros [q Hq]. rewrite str_app_cons in Hq.
        injection Hq as ? ?. congruence.
Qed.

(** [Index] finds an occurrence exactly when there is one. *)
Lemma Index_from_found (i : Z) (s sub : string) :
  0 <= i ->
  (-1 <? Strings.Index_from i s sub) = true <-> exists p q, s = p +:+ sub +:+ q.
Proof.
  revert i. induction s as [|c s IH]; intros i Hi; cbn [Strings.Index_from].
  - destruct (Strings.HasPrefix "" sub) eqn:Hp.
    + split; [intros _|intros _; apply Z.ltb_lt; lia].
      apply HasPrefix_spec in Hp as [q Hq]. exists "", q. now rewrite str_app_nil_l.
    + split; [discriminate|]. intros (p & q & Hpq). exfalso.
      destruct p; [|rewrite str_app_cons in Hpq; discriminate].
      rewrite str_app_nil_l in Hpq.
      assert (Strings.HasPrefix "" sub = true) by (apply HasPrefix_spec; eauto).
      congruence.
  - destruct (Strings.HasPrefix (String c s) sub) eqn:Hp.
    + split; [intros _|intros _; apply Z.ltb_lt; lia].
      apply HasPrefix_spec in Hp as [q Hq]. exists "", q. now rewrite str_app_nil_l.
    + rewrite (IH (i + 1)) by lia. split.
      * intros (p & q & ->). exists (String c p), q. now rewrite str_app_cons.
      * intros (p & q & Hpq). destruct p as [|a p].
        -- rewrite str_app_nil_l in Hpq.
           assert (Strings.HasPrefix (String c s) sub = true)
             by (apply HasPrefix_spec; eauto).
           congruence.
        -- rewrite str_app_cons in Hpq. injection Hpq as _ ->. eauto.
Qed.

(** X16. [contains] of two strings is the boolean that tells whether the
    second occurs in the first. *)
Theorem contains_substring (a b : string) :
  exists v,
    contains [VString a; VString b] = Done (inr (VBool v))
    /\ (v = true <-> exists p q, a = p +:+ b +:+ q).
Proof.
  eexists. split; [reflexivity|].
  unfold Strings.Index. apply Index_from_found. lia.
Qed.

End FunctionsOutcome.

Lemma functions_outcome_witness :
  (exists e, @lower Mini.ascii_case [VString "a"; VString "b"] = Done (inl e))
  /\ @lower Mini.ascii_case [VInt 1] = Panics InterfaceConversion.
Proof.
  destruct (@functions_outcome Mini.ascii_case "lower" (@lower Mini.ascii_case)
              [VString "a"; VString "b"]) as (He & _ & _); [reflexivity|].
  destruct (@functions_outcome Mini.ascii_case "lower" (@lower Mini.ascii_case)
              [VInt 1]) as (_ & Hp & _); [reflexivity|].
  split.
  - apply He. cbn. discriminate.
  - apply Hp. split; [reflexivity|]. apply Exists_cons. left. discriminate.
Defined.

(** ** What the filters report *)

Section FilterMessages.

Context `{CaseMapping} `{Evaluable E}.

(** X17. For a condition that compiles and gives a boolean on every record
    of a collection of [n] records, [k] of which it is true of: [Keep]
    prints that it deleted [n - k] and kept [k], [Delete] that it deleted
    [k] and kept [n - k], and neither prints anything else. *)
Theorem filter_messages (cond : string) (e : E) (gd : GoroutineDump)
    (w : World) :
  NewEvaluableExpressionWithFunctions (Strings.Trim cond double_quote) functions
  = inr e ->
  Forall (decides w e) (goroutines gd) ->
  let n := Z.of_nat (length (goroutines gd)) in
  let k := Z.of_nat (length (List.filter (passes w e) (goroutines gd))) in
  exists gk gd',
    Keep cond gd w
    = Done ((None, gk),
            printed w [OutPrintf "Deleted %d goroutines, kept %d.\n"
                         [AInt (n - k); AInt k]])
    /\ Delete cond gd w
       = Done ((None, gd'),
               printed w [OutPrintf "Deleted %d goroutines, kept %d.\n"
                            [AInt k; AInt (n - k)]])
    /\ Z.of_nat (length (goroutines gk)) = k
    /\ Z.of_nat (length (goroutines gd')) = n - k
    /\ 0 <= k <= n.
Proof.
  intros Hc Hall n k.
  pose proof (withCondition_decided (fun b => b) w cond e gd Hc Hall) as HK.
  pose proof (withCondition_decided negb w cond e gd Hc Hall) as HD.
  cbn zeta in HK, HD.
  pose proof (Permutation_length (filter_split (passes w e) (goroutines gd))) as Hlen.
  rewrite length_app in Hlen.
  assert (Hd : Z.of_nat (length (List.filter (fun g => negb (passes w e g))
                                   (goroutines gd))) = n - k)
    by (subst n k; lia).
  exists {| goroutines := List.filter (passes w e) (goroutines gd) |},
    {| goroutines := List.filter (fun g => negb (passes w e g)) (goroutines gd) |}.
  split; [|split].
  - rewrite Keep_unfold. unfold mbind, M_bind, Mbind. rewrite HK. reflexivity.
  - rewrite Delete_unfold. unfold mbind, M_bind, Mbind. rewrite HD.
    cbn [fst]. unfold mret, M_ret, Mret. rewrite Hd.
    replace (Z.of_nat (length (goroutines gd)) - (n - k)) with k by (subst n; lia).
    reflexivity.
  - cbn [goroutines]. split; [reflexivity|]. split; [exact Hd|]. subst n k. lia.
Qed.

End FilterMessages.

Lemma filter_messages_witness :
  exists gk gd',
    @Keep Mini.ascii_case _ Mini.evaluable "contains(state, 'chan')"
      example_dump example_world
    = Done ((None, gk),
            printed example_world
              [OutPrintf "Deleted %d goroutines, kept %d.\n" [AInt 1; AInt 2]])
    /\ @Delete Mini.ascii_case _ Mini.evaluable "contains(state, 'chan')"
         example_dump example_world
       = Done ((None, gd'),
               printed example_world
                 [OutPrintf "Deleted %d goroutines, kept %d.\n" [AInt 2; AInt 1]]).
Proof.
  destruct (@filter_messages Mini.ascii_case _ Mini.evaluable
              "contains(state, 'chan')"
              (Mini.ECall "contains" contains [Mini.EVar "state"; Mini.EString "chan"])
              example_dump example_world)
    as (gk & gd' & HK & HD & _).
  - vm_compute. reflexivity.
  - repeat constructor; vm_compute; eauto.
  - exists gk, gd'. split; [exact HK | exact HD].
Defined.

(** ** [NewGoroutine] on the header lines of the Go runtime *)

Section HeaderParsing.

Lemma str_drop_app_length s t : Strings.drop (String.length s) (s +:+ t) = t.
Proof.
  induction s as [|c s IH]; [rewrite str_app_nil_l; now destruct t|].
  rewrite str_app_cons. cbn [String.length Strings.drop]. exact IH.
Qed.

Lemma slice_middle a b c :
  slice (a +:+ b +:+ c) (Strings.len a) (Strings.len a + Strings.len b) = Done b.
Proof.
  unfold slice, Strings.len. rewrite !str_length_app.
  assert (Hb : Z.leb 0 (Z.of_nat (String.length a))
               && Z.leb (Z.of_nat (String.length a))
                    (Z.of_nat (String.length a) + Z.of_nat (String.length b))
               && Z.leb (Z.of_nat (String.length a) + Z.of_nat (String.length b))
                    (Z.of_nat (String.length a + (String.length b + String.length c)))
               = true).
  { rewrite !andb_true_iff, !Z.leb_le. lia. }
  rewrite Hb.
  replace (Z.to_nat (Z.of_nat (String.length a) + Z.of_nat (String.length b)
                     - Z.of_nat (String.length a)))
    with (String.length b) by lia.
  rewrite Nat2Z.id, str_drop_app_length, str_take_app_length. reflexivity.
Qed.

Lemma Index_from_skip (p rest : string) (i : Z) :
  occurs "[" p = false ->
  Strings.Index_from i (p +:+ String "[" rest) "[" = i + Strings.len p.
Proof.
  revert i. induction p as [|a p IH]; intros i Hp.
  - rewrite str_app_nil_l. cbn [Strings.Index_from Strings.HasPrefix].
    rewrite Ascii.eqb_refl. unfold Strings.len.
    destruct rest; cbn [Strings.HasPrefix String.length]; lia.
  - rewrite str_app_cons. cbn [occurs] in Hp. apply orb_false_iff in Hp as [Ha Hp].
    cbn [Strings.Index_from Strings.HasPrefix].
    rewrite Ascii.eqb_sym, Ha. rewrite (IH (i + 1) Hp).
    unfold Strings.len. cbn [String.length]. lia.
Qed.

Lemma rev_app_app (s1 s2 t : string) :
  String.rev_app s1 s2 +:+ t = String.rev_app s1 (s2 +:+ t).
Proof.
  revert s2. induction s1 as [|a s1 IH]; intros s2; [reflexivity|].
  cbn [String.rev_app]. now rewrite IH, str_app_cons.
Qed.

Lemma rev_cons_app (c : ascii) (cur s : string) :
  String.rev (String c cur) +:+ s = String.rev cur +:+ String c s.
Proof.
  unfold String.rev. cbn [String.rev_app].
  now rewrite !rev_app_app, str_app_cons, !str_app_nil_l.
Qed.

Lemma Split_go_no_sep (sep : ascii) (cur s : string) :
  occurs sep s = false ->
  Strings.Split_go sep cur s = [String.rev cur +:+ s].
Proof.
  revert cur. induction s as [|c s IH]; intros cur Hs.
  - cbn. now rewrite str_app_nil_r.
  - cbn [occurs] in Hs. apply orb_false_iff in Hs as [Hc Hs].
    cbn [Strings.Split_go]. rewrite Hc, (IH _ Hs). now rewrite rev_cons_app.
Qed.

Lemma Split_go_sep (sep : ascii) (cur s t : string) :
  occurs sep s = false ->
  Strings.Split_go sep cur (s +:+ String sep t)
  = (String.rev cur +:+ s) :: Strings.Split_go sep "" t.
Proof.
  revert cur. induction s as [|c s IH]; intros cur Hs.
  - rewrite str_app_nil_l, str_app_nil_r. cbn [Strings.Split_go].
    now rewrite Ascii.eqb_refl.
  - cbn [occurs] in Hs. apply orb_false_iff in Hs as [Hc Hs].
    rewrite str_app_cons. cbn [Strings.Split_go]. rewrite Hc, (IH _ Hs).
    now rewrite rev_cons_app.
Qed.

End HeaderParsing.

Section TrimFacts.

Lemma plain_bounds c :
  plain c = true ->
  (nat_of_ascii c < 128)%nat
  /\ ((Nat.leb 9 (nat_of_ascii c) && Nat.leb (nat_of_ascii c) 13)
      || Nat.eqb (nat_of_ascii c) 32) = false.
Proof.
  unfold plain. intros [Hlt Hsp]%andb_true_iff.
  apply Nat.ltb_lt in Hlt. now apply negb_true_iff in Hsp.
Qed.

(** A text whose last byte is plain is not one white space rune. *)
Lemma space_width_last (y : string) (c : ascii) :
  plain c = true ->
  Strings.space_width (y +:+ String c "") <> String.length (y +:+ String c "").
Proof.
  intros [Hlt Hsp]%plain_bounds.
  destruct y as [|c0 [|c1 [|c2 y]]];
    rewrite ?str_app_cons, ?str_app_nil_l; cbn [Strings.space_width String.length].
  - rewrite Hsp. discriminate.
  - assert (H1 : Nat.eqb (nat_of_ascii c) 133 = false) by (apply Nat.eqb_neq; lia).
    assert (H2 : Nat.eqb (nat_of_ascii c) 160 = false) by (apply Nat.eqb_neq; lia).
    rewrite H1, H2. cbn [orb]. rewrite andb_false_r.
    match goal with |- (if ?b then _ else _) <> _ => destruct b end; discriminate.
  - assert (H1 : Nat.eqb (nat_of_ascii c) 128 = false) by (apply Nat.eqb_neq; lia).
    assert (H2 : Nat.leb 128 (nat_of_ascii c) = false) by (apply Nat.leb_gt; lia).
    assert (H3 : Nat.eqb (nat_of_ascii c) 168 = false) by (apply Nat.eqb_neq; lia).
    assert (H4 : Nat.eqb (nat_of_ascii c) 169 = false) by (apply Nat.eqb_neq; lia).
    assert (H5 : Nat.eqb (nat_of_ascii c) 175 = false) by (apply Nat.eqb_neq; lia).
    assert (H6 : Nat.eqb (nat_of_ascii c) 159 = false) by (apply Nat.eqb_neq; lia).
    rewrite H1, H2, H3, H4, H5, H6. cbn [andb orb]. rewrite !andb_false_r.
    cbn [orb].
    match goal with |- (if ?b then _ else _) <> _ => destruct b end;
      [discriminate|].
    match goal with |- (if ?b then _ else _) <> _ => destruct b end;
      discriminate.
  - rewrite str_length_app.
    repeat match goal with
           | |- context [if ?b then _ else _] => destruct b
           end; cbn [String.length]; lia.
Qed.

Lemma space_width_plain (c : ascii) (s : string) :
  plain c = true -> Strings.space_width (String c s) = 0%nat.
Proof.
  intros [Hlt Hsp]%plain_bounds. cbn [Strings.space_width]. rewrite Hsp.
  assert (H1 : Nat.eqb (nat_of_ascii c) 194 = false) by (apply Nat.eqb_neq; lia).
  assert (H2 : Nat.eqb (nat_of_ascii c) 225 = false) by (apply Nat.eqb_neq; lia).
  assert (H3 : Nat.eqb (nat_of_ascii c) 226 = false) by (apply Nat.eqb_neq; lia).
  assert (H4 : Nat.eqb (nat_of_ascii c) 227 = false) by (apply Nat.eqb_neq; lia).
  rewrite H1, H2, H3, H4. cbn [andb orb].
  destruct s as [|c1 [|c2 s]]; reflexivity.
Qed.

Lemma str_drop_app_le (k : nat) (u v : string) :
  (k <= String.length u)%nat ->
  Strings.drop k (u +:+ v) = Strings.drop k u +:+ v.
Proof.
  revert u. induction k as [|k IH]; intros u Hk.
  - now destruct u, v.
  - destruct u as [|a u]; [cbn in Hk; lia|].
    rewrite str_app_cons. cbn [Strings.drop]. apply IH. cbn in Hk. lia.
Qed.

Lemma str_length_drop (k : nat) (u : string) :
  String.length (Strings.drop k u) = (String.length u - k)%nat.
Proof.
  revert u. induction k as [|k IH]; intros u.
  - destruct u; cbn; lia.
  - destruct u as [|a u]; [reflexivity|]. cbn [Strings.drop String.length].
    rewrite IH. lia.
Qed.

Lemma space_width_end_last (u : string) (c : ascii) :
  plain c = true -> Strings.space_width_end (u +:+ String c "") = 0%nat.
Proof.
  intros Hc. unfold Strings.space_width_end.
  set (t := u +:+ String c "").
  assert (Hn : String.length t = S (String.length u)).
  { unfold t. rewrite str_length_app. cbn. lia. }
  assert (Hk : forall k, (1 <= k)%nat ->
             Nat.leb k (String.length t)
             && Nat.eqb (Strings.space_width (Strings.drop (String.length t - k) t)) k
             = false).
  { intros k Hk1. destruct (Nat.leb_spec k (String.length t)) as [Hle|Hgt];
      [|reflexivity].
    cbn [andb]. apply Nat.eqb_neq. unfold t.
    rewrite str_drop_app_le by (fold t; lia).
    intros Heq.
    apply (space_width_last
             (Strings.drop (String.length (u +:+ String c "") - k) u) c Hc).
    rewrite Heq, str_length_app, str_length_drop. fold t. cbn [String.length]. lia. }
  rewrite (Hk 1%nat), (Hk 2%nat), (Hk 3%nat) by lia. reflexivity.
Qed.

Lemma TrimLeft_space_stop (fuel : nat) (s : string) :
  Strings.space_width s = 0%nat -> Strings.TrimLeft_space fuel s = s.
Proof. intros Hs. destruct fuel; cbn [Strings.TrimLeft_space]; now rewrite ?Hs. Qed.

Lemma TrimRight_space_stop (fuel : nat) (s : string) :
  Strings.space_width_end s = 0%nat -> Strings.TrimRight_space fuel s = s.
Proof. intros Hs. destruct fuel; cbn [Strings.TrimRight_space]; now rewrite ?Hs. Qed.

Lemma space_width_end_space (t : string) :
  Strings.space_width_end (t +:+ " ") = 1%nat.
Proof.
  unfold Strings.space_width_end. rewrite str_length_app. cbn [String.length].
  replace (String.length t + 1 - 1)%nat with (String.length t) by lia.
  rewrite str_drop_app_length.
  replace (Nat.leb 1 (String.length t + 1)) with true
    by (symmetry; apply Nat.leb_le; lia).
  reflexivity.
Qed.

(** [TrimSpace] of a text that begins and ends with a plain byte, set
    between a space and, or not, a space. *)
Lemma TrimSpace_padded (c0 c1 : ascii) (u v : string) (s : string) :
  s = String c0 u -> s = v +:+ String c1 "" ->
  plain c0 = true -> plain c1 = true ->
  Strings.TrimSpace (" " +:+ s) = s /\ Strings.TrimSpace (" " +:+ s +:+ " ") = s.
Proof.
  intros Hhead Hlast H0 H1.
  assert (Hw : Strings.space_width s = 0%nat)
    by (rewrite Hhead; now apply space_width_plain).
  assert (Hwe : Strings.space_width_end s = 0%nat)
    by (rewrite Hlast; now apply space_width_end_last).
  assert (Hleft : forall t,
            Strings.space_width t = 0%nat ->
            Strings.TrimLeft_space (String.length (" " +:+ t)) (" " +:+ t) = t).
  { intros t Ht. rewrite str_app_cons, str_app_nil_l.
    cbn [String.length Strings.TrimLeft_space].
    change (Strings.space_width (String " " t)) with 1%nat. cbv iota.
    cbn [Strings.drop]. destruct t; [reflexivity|].
    cbn [Strings.drop]. now apply TrimLeft_space_stop. }
  split.
  - unfold Strings.TrimSpace. rewrite (Hleft s Hw).
    now apply TrimRight_space_stop.
  - unfold Strings.TrimSpace.
    assert (Hw' : Strings.space_width (s +:+ " ") = 0%nat).
    { rewrite Hhead, str_app_cons. now apply space_width_plain. }
    rewrite (Hleft (s +:+ " ") Hw').
    rewrite str_length_app. cbn [String.length].
    replace (String.length s + 1)%nat with (S (String.length s)) by lia.
    cbn [Strings.TrimRight_space]. rewrite space_width_end_space.
    rewrite str_length_app. cbn [String.length].
    replace (String.length s + 1 - 1)%nat with (String.length s) by lia.
    rewrite str_take_app_length. now apply TrimRight_space_stop.
Qed.

End TrimFacts.

Section HeaderFormat.

Lemma digit_plain c : Regexp.digit c = true -> plain c = true.
Proof.
  unfold Regexp.digit, plain. intros [H1%Nat.leb_le H2%Nat.leb_le]%andb_true_iff.
  apply andb_true_iff. split; [apply Nat.ltb_lt; lia|].
  apply negb_true_iff, orb_false_iff. split.
  - apply andb_false_iff. right. apply Nat.leb_gt. lia.
  - apply Nat.eqb_neq. lia.
Qed.

Lemma all_digits_occurs (d : ascii) (s : string) :
  all_digits s = true -> Regexp.digit d = false -> occurs d s = false.
Proof.
  intros Hs Hd. induction s as [|a s IH]; [reflexivity|].
  cbn [all_digits] in Hs. apply andb_true_iff in Hs as [Ha Hs].
  cbn [occurs]. rewrite (IH Hs), orb_false_r.
  destruct (Ascii.eqb_spec a d) as [->|]; [congruence | reflexivity].
Qed.

Lemma all_digits_head (s : string) :
  s <> "" -> all_digits s = true ->
  exists c u, s = String c u /\ Regexp.digit c = true.
Proof.
  destruct s as [|c u]; [done|]. intros _ [Hc _]%andb_true_iff. eauto.
Qed.

Lemma all_digits_last (s : string) :
  s <> "" -> all_digits s = true ->
  exists v c, s = v +:+ String c "" /\ Regexp.digit c = true.
Proof.
  induction s as [|a s IH]; [done|]. intros _ [Ha Hs]%andb_true_iff.
  destruct s as [|b s].
  - exists "", a. now rewrite str_app_nil_l.
  - destruct (IH ltac:(discriminate) Hs) as (v & c & Hv & Hc).
    exists (String a v), c. rewrite str_app_cons, <- Hv. auto.
Qed.

Lemma all_digits_Star (s : string) :
  all_digits s = true -> Regexp.Matches (Regexp.Star (Regexp.Class Regexp.digit)) s.
Proof.
  induction s as [|c s IH]; [constructor|]. intros [Hc Hs]%andb_true_iff.
  change (String c s) with (String c "" +:+ s).
  constructor; [now constructor | now apply IH].
Qed.

Lemma durationPattern_minutes (ds : string) :
  ds <> "" -> all_digits ds = true ->
  Regexp.durationPattern_MatchString (ds +:+ " minutes") = true.
Proof.
  intros Hne Hds. unfold Regexp.durationPattern_MatchString.
  apply full_match_spec. unfold Regexp.durationPattern. constructor.
  - destruct ds as [|c s]; [done|]. apply andb_true_iff in Hds as [Hc Hs].
    change (String c s) with (String c "" +:+ s). unfold Regexp.Plus.
    constructor; [now constructor | now apply all_digits_Star].
  - now apply Matches_Lit.
Qed.

(** X18. [NewGoroutine] on a header line as the Go runtime writes it,
    ["goroutine <id> [<state>]:"] or ["goroutine <id> [<state>, <n>
    minutes]:"], with decimal digits for [<id>] and [<n>] and no comma in
    [<state>]: it returns the error of [Atoi] when the identity is out of
    the range of [int], and else a record with that identity, the state
    without the white space around it, and the minutes as its duration
    ([0] when there are none, or when they are out of range). *)
Theorem NewGoroutine_parses (ids state : string) (wait : option string) :
  ids <> "" -> all_digits ids = true ->
  occurs "," state = false ->
  (forall ds, wait = Some ds -> ds <> "" /\ all_digits ds = true) ->
  NewGoroutine (metaline_of ids state wait)
  = match Strconv.Atoi ids with
    | inl err => Done (inl err)
    | inr n =>
        Done (inr {| id := n; lines := 1; header := metaline_of ids state wait;
                     buf := ""; bufScrubbed := "";
                     duration :=
                       match wait with
                       | Some ds =>
                           match Strconv.Atoi ds with
                           | inr d => d
                           | inl _ => 0
                           end
                       | None => 0
                       end;
                     metas :=
                       match wait with
                       | Some ds =>
                           <[MetaDuration := ds +:+ " minutes"]>
                             {[ MetaState := Strings.TrimSpace state ]}
                       | None => {[ MetaState := Strings.TrimSpace state ]}
                       end;
                     fullHasher := MD5.New; duplicates := [];
                     scrubbedHash := ""; frozen := false |})
    end.
Proof.
  intros Hne Hids Hstate Hwait.
  set (w := match wait with
            | Some ds => ", " +:+ ds +:+ " minutes"
            | None => ""
            end).
  set (idpart := " " +:+ ids +:+ " ").
  set (inner := state +:+ w).
  set (m := metaline_of ids state wait).
  assert (Hm : m = ("goroutine" +:+ idpart) +:+ String "[" (inner +:+ "]:")).
  { unfold m, metaline_of, idpart, inner. fold w.
    now rewrite !str_app_assoc, !str_app_cons, !str_app_nil_l. }
  assert (Hbracket : Regexp.digit "[" = false) by reflexivity.
  assert (Hcomma : Regexp.digit "," = false) by reflexivity.
  assert (Hidx : Strings.Index m "[" = 9 + Strings.len idpart).
  { rewrite Hm. unfold Strings.Index. rewrite Index_from_skip.
    - unfold Strings.len. rewrite str_length_app. cbn [String.length]. lia.
    - unfold idpart. rewrite !occurs_app, (all_digits_occurs _ _ Hids Hbracket).
      reflexivity. }
  assert (Hlen : Strings.len m = 9 + Strings.len idpart + 1 + Strings.len inner + 2).
  { rewrite Hm. unfold Strings.len.
    rewrite !str_length_app. cbn [String.length].
    rewrite !str_length_app. cbn [String.length]. lia. }
  assert (Hs1 : slice m (Strings.Index m "[" + 1) (Strings.len m - 2) = Done inner).
  { rewrite Hidx, Hlen.
    assert (Hm' : m = (("goroutine" +:+ idpart) +:+ "[") +:+ inner +:+ "]:").
    { rewrite Hm. now rewrite !str_app_assoc, !str_app_cons, !str_app_nil_l. }
    rewrite Hm' at 1.
    replace (9 + Strings.len idpart + 1)
      with (Strings.len (("goroutine" +:+ idpart) +:+ "["))
      by (unfold Strings.len; rewrite !str_length_app; cbn [String.length]; lia).
    replace (Strings.len (("goroutine" +:+ idpart) +:+ "[") + Strings.len inner + 2 - 2)
      with (Strings.len (("goroutine" +:+ idpart) +:+ "[") + Strings.len inner)
      by lia.
    apply slice_middle. }
  assert (Hs2 : slice m 9 (Strings.Index m "[") = Done idpart).
  { rewrite Hidx.
    assert (Hm' : m = "goroutine" +:+ idpart +:+ String "[" (inner +:+ "]:")).
    { rewrite Hm. now rewrite !str_app_assoc. }
    rewrite Hm' at 1. apply (slice_middle "goroutine"). }
  assert (Hid : Strings.TrimSpace idpart = ids).
  { destruct (all_digits_head ids Hne Hids) as (c0 & u & Hu & Hc0).
    destruct (all_digits_last ids Hne Hids) as (v & c1 & Hv & Hc1).
    apply (TrimSpace_padded c0 c1 u v ids Hu Hv);
      now apply digit_plain. }
  unfold NewGoroutine. fold m. rewrite Hs1.
  unfold mbind at 1. unfold outcome_bind, obind.
  assert (Hparse :
            parse_duration (Strings.Split inner ",")
              {[ MetaState := Strings.TrimSpace (nth 0 (Strings.Split inner ",") "") ]}
            = Done (match wait with
                    | Some ds =>
                        <[MetaDuration := ds +:+ " minutes"]>
                          {[ MetaState := Strings.TrimSpace state ]}
                    | None => {[ MetaState := Strings.TrimSpace state ]}
                    end,
                    match wait with
                    | Some ds =>
                        match Strconv.Atoi ds with
                        | inr d => d
                        | inl _ => 0
                        end
                    | None => 0
                    end)).
  { unfold inner, w, Strings.Split. destruct wait as [ds|].
    - destruct (Hwait ds eq_refl) as [Hdne Hds].
      assert (Hrest : occurs "," (" " +:+ ds +:+ " minutes") = false).
      { rewrite !occurs_app, (all_digits_occurs _ _ Hds Hcomma). reflexivity. }
      replace (state +:+ ", " +:+ ds +:+ " minutes")
        with (state +:+ String "," (" " +:+ ds +:+ " minutes"))
        by (now rewrite !str_app_cons, !str_app_nil_l).
      rewrite (Split_go_sep _ _ _ _ Hstate), (Split_go_no_sep _ _ _ Hrest).
      change (String.rev "") with "". rewrite !str_app_nil_l.
      unfold parse_duration. cbn [length Nat.ltb Nat.leb nth].
      assert (Hvalue : Strings.TrimSpace (" " +:+ ds +:+ " minutes")
                       = ds +:+ " minutes").
      { destruct (all_digits_head ds Hdne Hds) as (c0 & u & Hu & Hc0).
        apply (TrimSpace_padded c0 "s" (u +:+ " minutes") (ds +:+ " minute")
                 (ds +:+ " minutes")).
        - now rewrite Hu, str_app_cons.
        - now rewrite str_app_assoc.
        - now apply digit_plain.
        - reflexivity. }
      rewrite Hvalue, (durationPattern_minutes ds Hdne Hds).
      assert (Hsl : slice (ds +:+ " minutes") 0 (Strings.len (ds +:+ " minutes") - 8)
                    = Done ds).
      { replace (Strings.len (ds +:+ " minutes") - 8)
          with (Strings.len "" + Strings.len ds)
          by (unfold Strings.len; rewrite str_length_app; cbn [String.length]; lia).
        change 0 with (Strings.len "") at 1.
        rewrite <- (str_app_nil_l (ds +:+ " minutes")) at 1.
        apply slice_middle. }
      rewrite Hsl. unfold mbind, outcome_bind, obind.
      destruct (Strconv.Atoi ds); reflexivity.
    - rewrite str_app_nil_r, (Split_go_no_sep _ _ _ Hstate).
      change (String.rev "") with "". rewrite str_app_nil_l. reflexivity. }
  rewrite Hparse. unfold mbind at 1. unfold outcome_bind, obind.
  rewrite Hs2. unfold mbind, outcome_bind, obind. rewrite Hid.
  destruct (Strconv.Atoi ids); reflexivity.
Qed.

End HeaderFormat.

Lemma NewGoroutine_parses_witness :
  exists g,
    NewGoroutine "goroutine 42 [chan receive, 5 minutes]:" = Done (inr g)
    /\ id g = 42 /\ duration g = 5
    /\ metas g !! MetaState = Some "chan receive"
    /\ metas g !! MetaDuration = Some "5 minutes".
Proof.
  pose proof (NewGoroutine_parses "42" "chan receive" (Some "5")) as Hp.
  eexists. split.
  - etransitivity; [apply Hp|].
    + discriminate.
    + reflexivity.
    + reflexivity.
    + intros ds [= <-]. split; [discriminate | reflexivity].
    + vm_compute. reflexivity.
  - vm_compute. repeat split.
Defined.

(** ** Quotes around a condition *)

Section QuotedCondition.

Context `{CaseMapping} `{Evaluable E}.

Lemma rev_app_append (s t acc : string) :
  String.rev_app (s +:+ t) acc = String.rev_app t (String.rev_app s acc).
Proof.
  revert acc. induction s as [|a s IH]; intros acc.
  - now rewrite str_app_nil_l.
  - rewrite str_app_cons. cbn [String.rev_app]. apply IH.
Qed.

Lemma rev_snoc (s : string) (c : ascii) :
  String.rev (s +:+ String c "") = String c (String.rev s).
Proof. unfold String.rev. now rewrite rev_app_append. Qed.

Lemma TrimLeft_byte_snoc (c : ascii) (s : string) :
  Strings.TrimLeft_byte c (s +:+ String c "")
  = match Strings.TrimLeft_byte c s with
    | "" => ""
    | t => t +:+ String c ""
    end.
Proof.
  induction s as [|a s IH].
  - rewrite str_app_nil_l. cbn [Strings.TrimLeft_byte]. now rewrite Ascii.eqb_refl.
  - rewrite str_app_cons. cbn [Strings.TrimLeft_byte].
    destruct (Ascii.eqb a c); [exact IH|]. now rewrite str_app_cons.
Qed.

(** [Trim] takes a byte of the cutset off either end. *)
Lemma Trim_quoted (c : ascii) (s : string) :
  Strings.Trim (String c (s +:+ String c "")) c = Strings.Trim s c.
Proof.
  unfold Strings.Trim. cbn [Strings.TrimLeft_byte]. rewrite Ascii.eqb_refl.
  rewrite TrimLeft_byte_snoc.
  destruct (Strings.TrimLeft_byte c s) as [|a t] eqn:Ht; [reflexivity|].
  rewrite rev_snoc. cbn [Strings.TrimLeft_byte]. now rewrite Ascii.eqb_refl.
Qed.

Lemma withCondition_quoted {St : Type} (cond : string)
    (callback : nat -> ptr -> bool -> St -> M (option ptr * St))
    (st : St) (gd : GoroutineDump) :
  withCondition (String double_quote (cond +:+ String double_quote "")) callback st gd
  = withCondition cond callback st gd.
Proof. unfold withCondition. now rewrite Trim_quoted. Qed.

(** X20. A condition between double quotes is the condition without them
    to [Keep], [Delete] and [Search], and to [Copy] when it is not the
    empty text.  The empty text makes [Copy] return the whole collection
    without printing; the empty text between quotes is a condition to
    [Copy], which then does what [Keep] does with the empty condition. *)
Theorem quoted_condition (cond : string) (offset limit : Z)
    (gd : GoroutineDump) (w : World) :
  let quoted := String double_quote (cond +:+ String double_quote "") in
  Keep quoted gd w = Keep cond gd w
  /\ Delete quoted gd w = Delete cond gd w
  /\ Search quoted offset limit gd w = Search cond offset limit gd w
  /\ (cond <> "" -> Copy quoted gd w = Copy cond gd w)
  /\ Copy "" gd w = Done (Some {| goroutines := goroutines gd |}, w)
  /\ match Keep "" gd w with
     | Done ((None, gd'), w') =>
         Copy (String double_quote (String double_quote "")) gd w
         = Done (Some gd', w')
     | Done ((Some err, _), w') =>
         Copy (String double_quote (String double_quote "")) gd w
         = Done (None, printed w' [OutPrintln [AError err]])
     | Panics p =>
         Copy (String double_quote (String double_quote "")) gd w = Panics p
     end.
Proof.
  intros quoted. split; [|split; [|split; [|split; [|split]]]].
  - unfold Keep. unfold quoted. now rewrite withCondition_quoted.
  - unfold Delete. unfold quoted. now rewrite withCondition_quoted.
  - unfold Search. unfold quoted.
    unfold mbind, M_bind, Mbind. now rewrite withCondition_quoted.
  - intros Hne. unfold Copy. unfold quoted.
    destruct cond as [|a cond]; [done|]. cbn [String.eqb].
    change (String.eqb (String double_quote (String a cond +:+ String double_quote "")) "")
      with false.
    now rewrite withCondition_quoted.
  - reflexivity.
  - unfold Copy, Keep. cbn [String.eqb].
    change (String double_quote (String double_quote ""))
      with (String double_quote ("" +:+ String double_quote "")).
    rewrite withCondition_quoted.
    unfold mbind, M_bind, Mbind.
    destruct (withCondition "" _ tt gd w) as [[[[err|kept] []] w']|p];
      reflexivity.
Qed.

End QuotedCondition.

Lemma quoted_condition_witness :
  @Copy Mini.ascii_case _ Mini.evaluable
    (String double_quote ("contains(state, 'chan')" +:+ String double_quote ""))
    example_dump example_world
  = @Copy Mini.ascii_case _ Mini.evaluable "contains(state, 'chan')"
      example_dump example_world.
Proof.
  apply (@quoted_condition Mini.ascii_case _ Mini.evaluable
           "contains(state, 'chan')" 0 0 example_dump example_world).
  discriminate.
Defined.

(** ** [Search] when the end of its window is out of range *)

Section SearchOverflow.

Context `{CaseMapping} `{Evaluable E}.

(** No record is printed when the end of the window, as the callback
    computes it, is not after its start. *)
Lemma search_loop_nothing (e : E) offset limit i gs acc count w :
  Forall (decides w e) gs ->
  int_wrap (offset + limit) <= Z.max 0 offset ->
  0 <= count -> count + Z.of_nat (length gs) < 2 ^ 63 ->
  withCondition_loop e (searching offset limit) i gs acc count w
  = Done ((inr acc,
           count + Z.of_nat (length (List.filter (passes w e) gs))), w).
Proof.
  intros Hall Hend. revert i count.
  induction gs as [|g gs IH]; intros i count Hc Hlen.
  - cbn. rewrite Z.add_0_r. reflexivity.
  - apply Forall_cons in Hall as [[b Hb] Hall]. cbn [length] in Hlen.
    assert (Hp : passes w e g = b) by (unfold passes; rewrite Hb; now destruct b).
    cbn [withCondition_loop List.filter]. rewrite Hp.
    unfold eval_at in Hb. unfold mbind, M_bind, Mbind, deref, lift.
    destruct (heap w !! g) as [r|] eqn:Hr; [|discriminate]. rewrite Hb.
    unfold searching at 1. destruct b.
    + rewrite (int_wrap_small (count + 1)) by lia.
      assert (Hwin : Z.leb offset count && Z.ltb count (int_wrap (offset + limit))
                     = false).
      { destruct (Z.leb_spec offset count); [|reflexivity].
        cbn [andb]. apply Z.ltb_ge. lia. }
      rewrite Hwin. unfold mbind, M_bind, Mbind, mret, M_ret, Mret. cbn [fst snd].
      rewrite (IH Hall _ (count + 1)) by lia.
      cbn [length]. do 3 f_equal. lia.
    + unfold mret, M_ret, Mret. cbn [fst snd].
      rewrite (IH Hall _ count) by lia. reflexivity.
Qed.

(** X21. When the sum of an offset and a limit that are not negative is
    beyond the range of [int] (as for the largest [int] as limit and an
    offset of one or more), [Search] prints no record at all, however many
    match: the end of its window has wrapped around to a negative number.
    It prints its heading and the count only. *)
Theorem Search_overflow (cond : string) (e : E) (offset limit : Z)
    (gd : GoroutineDump) (w : World) :
  NewEvaluableExpressionWithFunctions (Strings.Trim cond double_quote) functions
  = inr e ->
  Forall (decides w e) (goroutines gd) ->
  0 <= offset < 2 ^ 63 -> 0 <= limit < 2 ^ 63 -> 2 ^ 63 <= offset + limit ->
  Z.of_nat (length (goroutines gd)) < 2 ^ 63 ->
  Search cond offset limit gd w
  = Done (tt,
          printed w
            [OutSgrPrintf "[fg-green]Search with offset %d and limit %d.[reset]\n\n"
               [AInt offset; AInt limit];
             OutPrintf "Deleted %d goroutines, kept %d.\n"
               [AInt (Z.of_nat (length (goroutines gd))); AInt 0]]).
Proof.
  intros Hc Hall Ho Hl Hol Hlen.
  assert (Hend : int_wrap (offset + limit) <= Z.max 0 offset).
  { unfold int_wrap.
    replace ((offset + limit + 2 ^ 63) mod 2 ^ 64)
      with (offset + limit + 2 ^ 63 - 2 ^ 64).
    - lia.
    - apply Z.mod_unique with (q := 1); lia. }
  rewrite Search_unfold. unfold mbind, M_bind, Mbind. cbn [emit].
  change ({| heap := heap w; stdout := stdout w ++ ?out |}) with (printed w out).
  set (w0 := printed w _).
  unfold withCondition. rewrite Hc. unfold mbind, M_bind, Mbind.
  rewrite (search_loop_nothing e offset limit 0 (goroutines gd) [] 0 w0)
    by (first [exact Hall | exact Hend | lia]).
  cbn [fst snd emit length].
  unfold mret, M_ret, Mret. unfold w0.
  change ({| heap := heap ?x; stdout := stdout ?x ++ ?out |}) with (printed x out).
  rewrite !printed_printed, Z.sub_0_r. reflexivity.
Qed.

End SearchOverflow.

Lemma Search_overflow_witness :
  @Search Mini.ascii_case _ Mini.evaluable "contains(state, 'chan')"
    1 (2 ^ 63 - 1) example_dump example_world
  = Done (tt,
          printed example_world
            [OutSgrPrintf "[fg-green]Search with offset %d and limit %d.[reset]\n\n"
               [AInt 1; AInt (2 ^ 63 - 1)];
             OutPrintf "Deleted %d goroutines, kept %d.\n" [AInt 3; AInt 0]]).
Proof.
  apply (@Search_overflow Mini.ascii_case _ Mini.evaluable
           "contains(state, 'chan')"
           (Mini.ECall "contains" contains
              [Mini.EVar "state"; Mini.EString "chan"])).
  - vm_compute. reflexivity.
  - repeat constructor.
    + exists false. vm_compute. reflexivity.
    + exists true. vm_compute. reflexivity.
    + exists true. vm_compute. reflexivity.
  - lia.
  - lia.
  - lia.
  - vm_compute. reflexivity.
Defined.
